(** * SK combinator calculus and first-order unification

    A shallow embedding of [combinator_calculus.py] and [unify.py]:
    the unification algorithm, written once against the term algebra
    interface, with the tuple algebra; and the combinator term model with
    its printer, parser and reduction engine and its own term algebra. *)

From Stdlib Require Import ZArith Lia Ascii.
From Stdlib Require String.
From stdpp Require Import base decidable option list strings.

Local Open Scope Z_scope.
Local Open Scope nat_scope.

(** ** Outcomes of a Python call

    A call returns a value, raises an exception, or is cut off by the
    bound put on its loops and recursion (Rocq functions are total). *)

Inductive res (E A : Type) : Type :=
  | Ok (a : A)
  | Raise (e : E)
  | OutOfFuel.

Arguments Ok {E A} a.
Arguments Raise {E A} e.
Arguments OutOfFuel {E A}.

#[global] Instance res_ret {E} : MRet (res E) := fun _ a => Ok a.

#[global] Instance res_bind {E} : MBind (res E) := fun _ _ k m =>
  match m with
  | Ok a => k a
  | Raise e => Raise e
  | OutOfFuel => OutOfFuel
  end.

Module Unify.

(** *** The term algebra interface *)

(** Exceptions other than [UnificationError] that the operations of a
    term algebra raise. *)
Inductive PyError : Type :=
  | IndexError
  | ValueError
  | TypeError.

(** Whether [hash(x)] returns.  A key of a dictionary is hashed when the
    dictionary is built or looked up, and [TypeError] is raised for a
    value without a hash. *)
Class Hash (A : Type) : Type := hashable : A -> bool.

(** The abstract class [Unifier]: the four operations an implementation
    provides.  [==] on terms and on function symbols is decidable
    equality. *)
Class Unifier (FunSymT TermT : Type)
    `{EqDecision FunSymT, EqDecision TermT} : Type := {
  apply : FunSymT -> list TermT -> res PyError TermT;
  is_var : TermT -> bool;
  fun_sym : TermT -> res PyError FunSymT;
  args : TermT -> res PyError (list TermT);
}.

(** *** Dictionaries

    A [dict] keeps its items in insertion order; its keys are terms. *)
Definition dict (TermT : Type) : Type := list (TermT * TermT).

Section Dict.
Context {TermT : Type} `{EqDecision TermT}.

(** [s.get(key, default)] *)
Fixpoint dict_get (s : dict TermT) (key default : TermT) : TermT :=
  match s with
  | [] => default
  | (k, v) :: s' => if decide (k = key) then v else dict_get s' key default
  end.

(** [s[key] = value] *)
Fixpoint dict_set (s : dict TermT) (key value : TermT) : dict TermT :=
  match s with
  | [] => [(key, value)]
  | (k, v) :: s' =>
      if decide (k = key) then (k, value) :: s'
      else (k, v) :: dict_set s' key value
  end.

(** [s |= other] *)
Definition dict_ior (s other : dict TermT) : dict TermT :=
  fold_left (fun s '(k, v) => dict_set s k v) other s.

Definition dict_keys (s : dict TermT) : list TermT := s.*1.
Definition dict_values (s : dict TermT) : list TermT := s.*2.

End Dict.

(** *** The derived operations and the algorithm *)

Section Unifier.
Context {FunSymT TermT : Type} `{Unifier FunSymT TermT} `{Hash TermT}.

(** [any(f(x) for x in l)]: stops at the first [True], and at the first
    exception. *)
Fixpoint any_res {E} (f : TermT -> res E bool) (l : list TermT) : res E bool :=
  match l with
  | [] => Ok false
  | x :: l' => b ← f x; if b : bool then Ok true else any_res f l'
  end.

(** [tuple(f(x) for x in l)] *)
Fixpoint map_res {E} (f : TermT -> res E TermT) (l : list TermT)
  : res E (list TermT) :=
  match l with
  | [] => Ok []
  | x :: l' => y ← f x; l'' ← map_res f l'; Ok (y :: l'')
  end.

(** [occurs_in]; [depth] bounds the depth of the recursion. *)
Fixpoint occurs_in (depth : nat) (var term : TermT) : res PyError bool :=
  match depth with
  | O => OutOfFuel
  | S depth =>
      if is_var term then Ok (bool_decide (var = term))
      else l ← args term; any_res (occurs_in depth var) l
  end.

(** [subst] *)
Fixpoint subst (depth : nat) (s : dict TermT) (term : TermT)
  : res PyError TermT :=
  match depth with
  | O => OutOfFuel
  | S depth =>
      if is_var term then
        if hashable term then Ok (dict_get s term term) else Raise TypeError
      else
        f ← fun_sym term;
        l ← args term;
        l' ← map_res (subst depth s) l;
        apply f l'
  end.

(** The two [UnificationError]s, and the exceptions of the algebra that
    pass through [unify]. *)
Inductive Exn : Type :=
  | OccursCheck (var term : TermT)
  | SymbolMismatch (f g : FunSymT)
  | AlgebraError (e : PyError).

(** The two objects that [unify] updates in place: the list [equations]
    and the dictionary [subst]. *)
Record Locals : Type := mkLocals {
  equations : list (TermT * TermT);
  bindings : dict TermT;
}.

(** Statements of the body of [unify]: they update the two objects and
    return a value or raise. *)
Definition M (A : Type) : Type := Locals -> Locals * res Exn A.

Definition ret {A} (a : A) : M A := fun st => (st, Ok a).

Definition bind {A B} (m : M A) (k : A -> M B) : M B := fun st =>
  match m st with
  | (st', Ok a) => k a st'
  | (st', Raise e) => (st', Raise e)
  | (st', OutOfFuel) => (st', OutOfFuel)
  end.

Definition raise {A} (e : Exn) : M A := fun st => (st, Raise e).

(** A call into the algebra: its exceptions propagate. *)
Definition call {A} (r : res PyError A) : M A := fun st =>
  (st, match r with
       | Ok a => Ok a
       | Raise e => Raise (AlgebraError e)
       | OutOfFuel => OutOfFuel
       end).

Definition get_equations : M (list (TermT * TermT)) :=
  fun st => (st, Ok (equations st)).
Definition set_equations (eqs : list (TermT * TermT)) : M unit :=
  fun st => (mkLocals eqs (bindings st), Ok tt).
Definition get_bindings : M (dict TermT) :=
  fun st => (st, Ok (bindings st)).
Definition set_bindings (s : dict TermT) : M unit :=
  fun st => (mkLocals (equations st) s, Ok tt).

Notation "x <- m ;; k" := (bind m (fun x => k))
  (at level 100, m at next level, right associativity).
Notation "m ;;; k" := (bind m (fun _ => k))
  (at level 100, right associativity).

(** [{key: value}] *)
Definition dict_display (key value : TermT) : res PyError (dict TermT) :=
  if hashable key then Ok [(key, value)] else Raise TypeError.

(** [equations.pop()] on a non-empty list: the list without its last
    item, and that item. *)
Fixpoint pop {A} (l : list A) : option (list A * A) :=
  match l with
  | [] => None
  | x :: l' =>
      match pop l' with
      | None => Some ([], x)
      | Some (l'', y) => Some (x :: l'', y)
      end
  end.

(** [for i, (l, r) in enumerate(equations): equations[i] = ...] from
    index [i] on; [todo] is what the iteration has still to visit. *)
Fixpoint subst_equations (depth : nat) (new_subst : dict TermT) (i : nat)
    (todo : list (TermT * TermT)) : M unit :=
  match todo with
  | [] => ret tt
  | (l, r) :: todo =>
      l' <- call (subst depth new_subst l);;
      r' <- call (subst depth new_subst r);;
      eqs <- get_equations;;
      set_equations (<[i := (l', r')]> eqs);;;
      subst_equations depth new_subst (S i) todo
  end.

(** [for var, term in subst.items(): subst[var] = ...] *)
Fixpoint subst_bindings (depth : nat) (new_subst : dict TermT)
    (todo : list (TermT * TermT)) : M unit :=
  match todo with
  | [] => ret tt
  | (var, term) :: todo =>
      term' <- call (subst depth new_subst term);;
      s <- get_bindings;;
      set_bindings (dict_set s var term');;;
      subst_bindings depth new_subst todo
  end.

(** One turn of the [while] loop; the value says whether the loop goes
    on ([false]: [equations] was empty). *)
Definition unify_turn (depth : nat) : M bool :=
  eqs <- get_equations;;
  match pop eqs with
  | None => ret false
  | Some (eqs, (left_, right_)) =>
      set_equations eqs;;;
      if bool_decide (left_ = right_) then ret true
      else if is_var left_ then
        occurs <- call (occurs_in depth left_ right_);;
        if occurs : bool then raise (OccursCheck left_ right_)
        else
          new_subst <- call (dict_display left_ right_);;
          eqs <- get_equations;;
          subst_equations depth new_subst 0 eqs;;;
          s <- get_bindings;;
          subst_bindings depth new_subst s;;;
          s <- get_bindings;;
          set_bindings (dict_ior s new_subst);;;
          ret true
      else if is_var right_ then
        eqs <- get_equations;;
        set_equations (eqs ++ [(right_, left_)]);;;
        ret true
      else
        f <- call (fun_sym left_);;
        g <- call (fun_sym right_);;
        if bool_decide (f <> g) then raise (SymbolMismatch f g)
        else
          largs <- call (args left_);;
          rargs <- call (args right_);;
          eqs <- get_equations;;
          set_equations (eqs ++ zip largs rargs);;;
          ret true
  end.

(** The [while] loop; [fuel] bounds the number of turns. *)
Fixpoint unify_loop (fuel depth : nat) : M unit :=
  match fuel with
  | O => fun st => (st, OutOfFuel)
  | S fuel =>
      continue <- unify_turn depth;;
      if continue : bool then unify_loop fuel depth else ret tt
  end.

(** *** Notions used in the statements below *)

(** [st'] is reached from [st] by turns of the loop that go on. *)
Inductive turns (depth : nat) : Locals -> Locals -> Prop :=
  | turns_refl st : turns depth st st
  | turns_step st st1 st' :
      unify_turn depth st = (st1, Ok true) -> turns depth st1 st' ->
      turns depth st st'.

(** An outcome that is neither a value nor a [UnificationError]. *)
Definition alg_failure {A} (r : res Exn A) : Prop :=
  match r with
  | Raise (AlgebraError _) | OutOfFuel => True
  | _ => False
  end.

(** The image of an equation, and of an item of the dictionary, under
    the binding [{var: term}]. *)
Definition subst_eq (depth : nat) (var term : TermT)
    (e e' : TermT * TermT) : Prop :=
  subst depth [(var, term)] e.1 = Ok e'.1 /\
  subst depth [(var, term)] e.2 = Ok e'.2.

Definition subst_item (depth : nat) (var term : TermT)
    (e e' : TermT * TermT) : Prop :=
  e'.1 = e.1 /\ subst depth [(var, term)] e.2 = Ok e'.2.

(** The cases of one turn of the loop. *)
Inductive turn_spec (depth : nat) (st : Locals)
  : Locals -> res Exn bool -> Prop :=
  | turn_empty :
      equations st = [] -> turn_spec depth st st (Ok false)
  | turn_equal eqs t :
      equations st = eqs ++ [(t, t)] ->
      turn_spec depth st (mkLocals eqs (bindings st)) (Ok true)
  | turn_occurs eqs var term :
      equations st = eqs ++ [(var, term)] ->
      var <> term -> is_var var = true ->
      occurs_in depth var term = Ok true ->
      turn_spec depth st (mkLocals eqs (bindings st))
        (Raise (OccursCheck var term))
  | turn_bind eqs var term eqs' s' :
      equations st = eqs ++ [(var, term)] ->
      var <> term -> is_var var = true ->
      occurs_in depth var term = Ok false ->
      hashable var = true ->
      Forall2 (subst_eq depth var term) eqs eqs' ->
      Forall2 (subst_item depth var term) (bindings st) s' ->
      turn_spec depth st
        (mkLocals eqs' (dict_ior (dict_ior (bindings st) s') [(var, term)]))
        (Ok true)
  | turn_swap eqs l r :
      equations st = eqs ++ [(l, r)] ->
      l <> r -> is_var l = false -> is_var r = true ->
      turn_spec depth st (mkLocals (eqs ++ [(r, l)]) (bindings st)) (Ok true)
  | turn_mismatch eqs l r f g :
      equations st = eqs ++ [(l, r)] ->
      l <> r -> is_var l = false -> is_var r = false ->
      fun_sym l = Ok f -> fun_sym r = Ok g -> f <> g ->
      turn_spec depth st (mkLocals eqs (bindings st))
        (Raise (SymbolMismatch f g))
  | turn_decompose eqs l r f largs rargs :
      equations st = eqs ++ [(l, r)] ->
      l <> r -> is_var l = false -> is_var r = false ->
      fun_sym l = Ok f -> fun_sym r = Ok f ->
      args l = Ok largs -> args r = Ok rargs ->
      turn_spec depth st (mkLocals (eqs ++ zip largs rargs) (bindings st))
        (Ok true)
  | turn_failure st' r :
      alg_failure r -> turn_spec depth st st' r.

(** The part of the round-trip law that [subst] relies on: an
    application rebuilt from its own symbol and as many arguments as it
    has is an application to these arguments. *)
Definition rebuild_law : Prop :=
  forall t f l l' t',
    is_var t = false -> fun_sym t = Ok f -> args t = Ok l ->
    length l' = length l -> apply f l' = Ok t' ->
    is_var t' = false /\ args t' = Ok l'.

(** Taking an application apart and applying its symbol to its
    arguments gives the application back. *)
Definition rebuild_id_law : Prop :=
  forall t f l t',
    is_var t = false -> fun_sym t = Ok f -> args t = Ok l ->
    apply f l = Ok t' -> t' = t.

(** [var] does not occur in [term]: with enough depth, [occurs_in]
    answers [False].  In [solved eqs s], no variable bound by [s] occurs
    in a term that [s] binds a variable to, or in an equation of
    [eqs]. *)
Definition fresh_in (var term : TermT) : Prop :=
  exists depth, occurs_in depth var term = Ok false.

Definition solved (eqs : list (TermT * TermT)) (s : dict TermT) : Prop :=
  NoDup (dict_keys s) /\
  forall k, k ∈ dict_keys s ->
    (forall v, v ∈ dict_values s -> fresh_in k v) /\
    (forall e, e ∈ eqs -> fresh_in k e.1 /\ fresh_in k e.2).

(** Two dictionaries bind the same variables to the same terms, the
    variable [var] apart as long as the second does not bind it. *)
Definition same_bindings (var : TermT) (sa sb : dict TermT) : Prop :=
  forall k, k <> var \/ var ∈ dict_keys sb ->
    (k ∈ dict_keys sa <-> k ∈ dict_keys sb) /\
    forall d, dict_get sa k d = dict_get sb k d.

(** *** The call, on the objects of the caller

    [unify] receives references: the list [equations] and, optionally,
    the dictionary [subst].  Without the latter a new dictionary is
    made.  The objects are updated in place, whether [unify] returns or
    raises, and the reference returned is that of the dictionary. *)
Inductive object : Type :=
  | PyList (items : list (TermT * TermT))
  | PyDict (items : dict TermT).

Abbreviation heap := (list object).
Abbreviation ref := nat (only parsing).

Definition alloc (h : heap) (o : object) : heap * ref := (h ++ [o], length h).

Definition unify (equations_ref : ref) (subst_ref : option ref)
    (fuel depth : nat) (h : heap) : heap * res Exn ref :=
  let '(h, subst_ref) :=
    match subst_ref with
    | None => alloc h (PyDict [])
    | Some r => (h, r)
    end in
  match h !! equations_ref, h !! subst_ref with
  | Some (PyList eqs), Some (PyDict s) =>
      let '(st, r) := unify_loop fuel depth (mkLocals eqs s) in
      (<[subst_ref := PyDict (bindings st)]>
         (<[equations_ref := PyList (equations st)]> h),
       _ ← r; Ok subst_ref)
  | _, _ => (h, Raise (AlgebraError TypeError))
  end.

Definition unify2 (left_ right_ : TermT) (subst_ref : option ref)
    (fuel depth : nat) (h : heap) : heap * res Exn ref :=
  let '(h, equations_ref) := alloc h (PyList [(left_, right_)]) in
  unify equations_ref subst_ref fuel depth h.

(** The dictionary [unify] starts from, and the reference it returns:
    those of the argument [subst], or a new, empty one. *)
Definition subst_arg (h : heap) (subst_ref : option ref) (s : dict TermT)
  : Prop :=
  match subst_ref with
  | None => s = []
  | Some r => h !! r = Some (PyDict s)
  end.

Definition subst_loc (h : heap) (subst_ref : option ref) : ref :=
  match subst_ref with
  | None => length h
  | Some r => r
  end.

End Unifier.

Arguments Exn : clear implicits.
Arguments turn_spec {_ _ _ _ _ _} depth st _ _.
Arguments Locals : clear implicits.
Arguments object : clear implicits.
Abbreviation heap T := (list (object T)).
Abbreviation ref := nat (only parsing).

(** *** The tuple algebra [GeneralUnifier]

    An application is a tuple whose first item is the function symbol;
    any other value is a variable.  The values that are not tuples are
    taken to be strings, as in the examples of the source. *)
Unset Elimination Schemes.
Inductive GTerm : Type :=
  | Atom (s : string)
  | Tuple (items : list GTerm).
Set Elimination Schemes.

#[global] Instance GTerm_eq_dec : EqDecision GTerm.
Proof.
  refine (fix go (a b : GTerm) {struct a} : Decision (a = b) :=
    match a, b with
    | Atom s, Atom s' => cast_if (decide (s = s'))
    | Tuple l, Tuple l' => cast_if (@list_eq_dec _ go l l')
    | _, _ => right _
    end); abstract congruence.
Defined.

(** The characters of a string, each as a string of its own. *)
Fixpoint chars (s : string) : list GTerm :=
  match s with
  | EmptyString => []
  | String c s' => Atom (String c EmptyString) :: chars s'
  end.

Module GeneralUnifier.

(* (f, *args) *)
Definition apply (f : GTerm) (args : list GTerm) : res PyError GTerm :=
  Ok (Tuple (f :: args)).

(* not isinstance(term, tuple) *)
Definition is_var (term : GTerm) : bool :=
  match term with Tuple _ => false | Atom _ => true end.

(* term[0] *)
Definition fun_sym (term : GTerm) : res PyError GTerm :=
  match term with
  | Tuple (f :: _) => Ok f
  | Atom (String c _) => Ok (Atom (String c EmptyString))
  | Tuple [] | Atom EmptyString => Raise IndexError
  end.

(* term[1:] *)
Definition args (term : GTerm) : res PyError (list GTerm) :=
  match term with
  | Tuple items => Ok (tail items)
  | Atom s => Ok (tail (chars s))
  end.

End GeneralUnifier.

(** The terms of the examples. *)
Definition x_ : GTerm := Atom "x".
Definition y_ : GTerm := Atom "y".
Definition z_ : GTerm := Atom "z".
Definition w_ : GTerm := Atom "w".
Definition f_ (args : list GTerm) : GTerm := Tuple (Atom "f" :: args).
Definition g_ (args : list GTerm) : GTerm := Tuple (Atom "g" :: args).

(** Strings have a hash, and so have tuples of values that have one. *)
#[global] Instance GTerm_hash : Hash GTerm := fun _ => true.

#[global] Instance GeneralUnifier : Unifier GTerm GTerm := {|
  apply := GeneralUnifier.apply;
  is_var := GeneralUnifier.is_var;
  fun_sym := GeneralUnifier.fun_sym;
  args := GeneralUnifier.args;
|}.

(** *** Notions used in the statements on the tuple algebra *)

(** The nesting depth of tuples. *)
Fixpoint gdepth (t : GTerm) : nat :=
  match t with
  | Atom _ => 0
  | Tuple items => S (foldr (fun x n => gdepth x `max` n) 0 items)
  end.

(** The number of atoms and tuples of a term. *)
Fixpoint gsize (t : GTerm) : nat :=
  match t with
  | Atom _ => 1
  | Tuple items => S (foldr (fun x n => gsize x + n) 0 items)
  end.

(** [occurs_in] and [subst] on the tuple algebra, by recursion on the
    term: the arguments of a tuple are its items but the first, and the
    empty tuple, whose symbol [subst] cannot take, is left alone. *)
Fixpoint goccurs (var term : GTerm) : bool :=
  match term with
  | Atom _ => bool_decide (var = term)
  | Tuple [] => false
  | Tuple (_ :: args) => existsb (goccurs var) args
  end.

Fixpoint gsubst (s : dict GTerm) (term : GTerm) : GTerm :=
  match term with
  | Atom _ => dict_get s term term
  | Tuple [] => term
  | Tuple (f :: args) => Tuple (f :: map (gsubst s) args)
  end.

(** No empty tuple among a term, its arguments, their arguments, ... *)
Fixpoint proper (t : GTerm) : bool :=
  match t with
  | Atom _ => true
  | Tuple [] => false
  | Tuple (_ :: args) => forallb proper args
  end.

(** Every tuple has a symbol and as many arguments as [arity] gives to
    that symbol. *)
Fixpoint ranked (arity : GTerm -> nat) (t : GTerm) : bool :=
  match t with
  | Atom _ => true
  | Tuple [] => false
  | Tuple (f :: args) =>
      Nat.eqb (length args) (arity f) && forallb (ranked arity) args
  end.

(** The greatest nesting depth among the sides of the equations and the
    terms bound by the dictionary. *)
Definition eqs_depth (eqs : list (GTerm * GTerm)) : nat :=
  foldr (fun e n => Nat.max (gdepth e.1) (Nat.max (gdepth e.2) n)) 0 eqs.

Definition values_depth (s : dict GTerm) : nat :=
  foldr (fun e n => Nat.max (gdepth e.2) n) 0 s.

Definition state_depth (st : Locals GTerm) : nat :=
  Nat.max (eqs_depth (equations st)) (values_depth (bindings st)).

(** What decreases from turn to turn: the number of the variables of
    [universe] that occur in the equations, then the size of the
    equations, then the number of equations to be swapped. *)
Definition occurs_in_eqs (var : GTerm) (eqs : list (GTerm * GTerm)) : bool :=
  existsb (fun e => goccurs var e.1 || goccurs var e.2) eqs.

Fixpoint count_if {A} (p : A -> bool) (l : list A) : nat :=
  match l with
  | [] => 0
  | x :: l' => (if p x then 1 else 0) + count_if p l'
  end.

Definition eqs_vars (universe : list GTerm) (eqs : list (GTerm * GTerm)) : nat :=
  count_if (fun v => occurs_in_eqs v eqs) universe.

Definition eqs_size (eqs : list (GTerm * GTerm)) : nat :=
  foldr (fun e n => gsize e.1 + gsize e.2 + n) 0 eqs.

Definition eqs_to_swap (eqs : list (GTerm * GTerm)) : nat :=
  count_if (fun e => negb (is_var e.1) && is_var e.2) eqs.

(** What the binding [{var: term}] of the equation [e] makes of the
    dictionary: [for v, t in subst.items(): subst[v] = subst({var:
    term}, t)], then [subst |= {var: term}]. *)
Definition bind_in_place (s : dict GTerm) (e : GTerm * GTerm) : dict GTerm :=
  dict_ior (dict_ior s (map (fun kv => (kv.1, gsubst [e] kv.2)) s)) [e].

(** The variables of a term, with repetitions. *)
Fixpoint gvars (t : GTerm) : list GTerm :=
  match t with
  | Atom _ => [t]
  | Tuple [] => []
  | Tuple (_ :: args) => flat_map gvars args
  end.

(** The states of the loop on equations between ranked terms, and the
    substitutions that make equal the two sides of every equation and
    of every binding of a state. *)
Definition ranked_state (arity : GTerm -> nat) (st : Locals GTerm) : Prop :=
  solved (equations st) (bindings st) /\
  (forall e, e ∈ equations st -> ranked arity e.1 /\ ranked arity e.2) /\
  (forall k, k ∈ dict_keys (bindings st) -> is_var k = true).

Definition unified_by (s : dict GTerm) (st : Locals GTerm) : Prop :=
  (forall e, e ∈ equations st -> gsubst s e.1 = gsubst s e.2) /\
  (forall e, e ∈ bindings st -> gsubst s e.1 = gsubst s e.2).

End Unify.

Module CombinatorCalculus.
Import Unify.

(** *** Terms *)

Inductive Term : Type :=
  | Var (name : string)
  | PrimComb (name : string)
  | App (left right : Term).

#[global] Instance Term_eq_dec : EqDecision Term.
Proof. solve_decision. Defined.

Definition PrimComb_S : Term := PrimComb "S".
Definition PrimComb_K : Term := PrimComb "K".

Definition is_App (t : Term) : bool :=
  match t with App _ _ => true | _ => false end.

(** [len(s)] of a [str]: the number of its code points.  A [string] is
    the UTF-8 encoding of the [str], in which every code point has
    exactly one byte that is not a continuation byte [10xxxxxx]. *)
Definition is_continuation (c : ascii) : bool :=
  match c with
  | Ascii _ _ _ _ _ _ false true => true
  | _ => false
  end.

Fixpoint len (s : string) : nat :=
  match s with
  | EmptyString => 0
  | String c s' => (if is_continuation c then 0 else 1) + len s'
  end.

(** [__str__] of the three dataclasses. *)
Fixpoint to_str (t : Term) : string :=
  match t with
  | Var name =>
      if Nat.eqb (len name) 1 then name else "<" +:+ name +:+ ">"
  | PrimComb name => name
  | App left_ right_ =>
      let right_str := to_str right_ in
      let right_str :=
        if is_App right_ then "(" +:+ right_str +:+ ")" else right_str in
      to_str left_ +:+ right_str
  end.

(** *** Parser *)

(** The four [ValueError]s of the parser, with the index each message
    carries. *)
Inductive ParseError : Type :=
  | InvalidCharacter (index : Z)
  | BracketNotClosed (index : Z)
  | EmptyStringError
  | ExtraneousClosingBracket (index : Z).

#[global] Instance ParseError_eq_dec : EqDecision ParseError.
Proof. solve_decision. Defined.


Definition acc_append (acc : option Term) (t : Term) : option Term :=
  Some (match acc with None => t | Some a => App a t end).

(** [char in 'SK'] for a one-character [char]. *)
Fixpoint char_in (char : ascii) (s : string) : bool :=
  match s with
  | EmptyString => false
  | String c s' => if Ascii.eqb char c then true else char_in char s'
  end.

(** The code after the [while] loop of [parse_term]. *)
Definition parse_term_finish (acc : option Term) (i : nat)
  : res ParseError (Term * nat) :=
  match acc with
  | None => Raise EmptyStringError
  | Some t => Ok (t, i)
  end.

(** The [while] loop of [parse_term], entered with the current [i] and
    [acc]; the arm for an opening bracket is the recursive call
    [parse_term(src, i + 1)]. *)
Fixpoint parse_term_loop (fuel : nat) (src : string) (i0 i : nat)
    (acc : option Term) : res ParseError (Term * nat) :=
  match fuel with
  | O => OutOfFuel
  | S fuel =>
      match String.get i src with
      | None =>
          (* the [else] of the [while]: the end of the string was reached *)
          if negb (Nat.eqb i0 0)
          then Raise (BracketNotClosed (Z.of_nat i0 - 1))
          else parse_term_finish acc i
      | Some char =>
          if char_in char "SK" then
            parse_term_loop fuel src i0 (i + 1)
              (acc_append acc (PrimComb (String char EmptyString)))
          else if Ascii.eqb char "(" then
            '(term, i) ← parse_term_loop fuel src (i + 1) (i + 1) None;
            parse_term_loop fuel src i0 i (acc_append acc term)
          else if Ascii.eqb char ")" then
            parse_term_finish acc (i + 1)
          else Raise (InvalidCharacter (Z.of_nat i))
      end
  end.

Definition parse_term (fuel : nat) (src : string) (i0 : nat)
  : res ParseError (Term * nat) :=
  parse_term_loop fuel src i0 i0 None.

(** Every turn of the loop and every nested call consumes a character,
    so one unit of fuel per character and one for the end suffice;
    [parse_total] below shows that this bound is never hit.  [src] is
    indexed by its bytes; the indices are those of the code points,
    because the parser stops at the first character that is not one of
    the four ASCII characters of the syntax. *)
Definition parse (src : string) : res ParseError Term :=
  '(term, i) ← parse_term (S (String.length src)) src 0;
  if negb (Nat.eqb i (String.length src))
  then Raise (ExtraneousClosingBracket (Z.of_nat i - 1))
  else Ok term.

(** *** Reduction *)

(** The two rules [reduce1] tries at the root of [App left_ right_],
    in the order of the source. *)
Definition root_rule (left_ right_ : Term) : option Term :=
  match left_ with
  | App left_left left_right =>
      match
        match left_left with
        | App left_left_left left_left_right =>
            if bool_decide (left_left_left = PrimComb_S)
            then Some (App (App left_left_right right_)
                           (App left_right right_))
            else None
        | _ => None
        end
      with
      | Some t => Some t
      | None =>
          if bool_decide (left_left = PrimComb_K)
          then Some left_right
          else None
      end
  | _ => None
  end.

Fixpoint reduce1 (term : Term) : option Term :=
  match term with
  | Var _ | PrimComb _ => Some term
  | App left_ right_ =>
      match root_rule left_ right_ with
      | Some t => Some t
      | None =>
          match reduce1 left_ with
          | None =>
              match reduce1 right_ with
              | None => None
              | Some right_reduced => Some (App left_ right_reduced)
              end
          | Some left_reduced => Some (App left_reduced right_)
          end
      end
  end.

(** [reduce]: the [while True] loop, one unit of fuel per turn. *)
Fixpoint reduce (fuel : nat) (term : Term) : res Empty_set Term :=
  match fuel with
  | O => OutOfFuel
  | S fuel =>
      match reduce1 term with
      | None => Ok term
      | Some reduced => reduce fuel reduced
      end
  end.

(** *** The term algebra of combinator terms

    The function symbols are the values that [fun_sym] returns and that
    [apply] accepts: a primitive combinator, or the class [App]. *)
Inductive FunSym : Type :=
  | FunSym_PrimComb (name : string)
  | FunSym_App.

#[global] Instance FunSym_eq_dec : EqDecision FunSym.
Proof. solve_decision. Defined.

Module Unifier.

Definition apply (f : FunSym) (args : list Term) : res PyError Term :=
  match f with
  | FunSym_PrimComb name => Ok (PrimComb name)
  | FunSym_App =>
      match args with
      | [left_; right_] => Ok (App left_ right_)
      | _ => Raise ValueError
      end
  end.

Definition is_var (term : Term) : bool :=
  match term with Var _ => true | _ => false end.

Definition fun_sym (term : Term) : res PyError FunSym :=
  match term with
  | PrimComb name => Ok (FunSym_PrimComb name)
  | App _ _ => Ok FunSym_App
  | Var _ => Raise ValueError
  end.

Definition args (term : Term) : res PyError (list Term) :=
  match term with
  | PrimComb _ => Ok []
  | App left_ right_ => Ok [left_; right_]
  | Var _ => Raise ValueError
  end.

(** The argument sequences [apply] is meant for: none for a primitive
    combinator, two for [App]. *)
Definition arity_ok (f : FunSym) (args : list Term) : Prop :=
  match f with
  | FunSym_PrimComb _ => args = []
  | FunSym_App => length args = 2
  end.

End Unifier.

(** [Var], [PrimComb] and [App] are dataclasses that define [__eq__]
    and are not frozen: their instances have no hash. *)
#[global] Instance Term_hash : Hash Term := fun _ => false.

#[global] Instance CombinatorUnifier : Unify.Unifier FunSym Term := {|
  Unify.apply := Unifier.apply;
  Unify.is_var := Unifier.is_var;
  Unify.fun_sym := Unifier.fun_sym;
  Unify.args := Unifier.args;
|}.

(** *** Notions used in the statements below *)

Definition SKK : Term := App (App PrimComb_S PrimComb_K) PrimComb_K.

(** The terms built from [PrimComb "S"], [PrimComb "K"] and [App] only. *)
Fixpoint only_SK (t : Term) : bool :=
  match t with
  | Var _ => false
  | PrimComb name => bool_decide (name = "S") || bool_decide (name = "K")
  | App left_ right_ => only_SK left_ && only_SK right_
  end.

(** [s] is the part of [src] that starts at index [p]. *)
Definition at_pos (src : string) (p : nat) (s : string) : Prop :=
  forall k c, String.get k s = Some c -> String.get (p + k) src = Some c.



(** What the accumulator holds once the atoms of [t] have been appended
    to [acc] one after the other. *)
Fixpoint graft (a t : Term) : Term :=
  match t with
  | App left_ right_ => App (graft a left_) right_
  | _ => App a t
  end.

Definition feed (acc : option Term) (t : Term) : Term :=
  match acc with None => t | Some a => graft a t end.

(** The number of nodes of a term. *)
Fixpoint term_size (t : Term) : nat :=
  match t with
  | App left_ right_ => S (term_size left_ + term_size right_)
  | _ => 1
  end.

(** No rule applies at the root of [t] or at a node reached from the
    root through left children only. *)
Fixpoint no_spine_redex (t : Term) : bool :=
  match t with
  | App left_ right_ =>
      match root_rule left_ right_ with
      | Some _ => false
      | None => no_spine_redex left_
      end
  | _ => true
  end.

End CombinatorCalculus.

(** * Properties of the combinator calculus *)

Section Reduction.
Import CombinatorCalculus.

(** [reduce1] answers [None] on no term at all: the leaves answer with
    themselves, and every application is rebuilt around an answer. *)
Lemma reduce1_is_Some (t : Term) : is_Some (reduce1 t).
Proof.
  induction t as [name|name|l IHl r IHr]; simpl; [by eexists..|].
  destruct (root_rule l r); [by eexists|].
  destruct IHl as [l' ->]. by eexists.
Qed.

(** C1 (defect in the code): [reduce1] is to answer [None] exactly on the
    terms without a redex, in particular on every variable and on S and
    K.  The code answers a variable and a primitive combinator with the
    term itself, and so never answers [None]. *)
Theorem reduce1_leaf_returns_itself :
  (forall name, reduce1 (Var name) = Some (Var name)) /\
  reduce1 PrimComb_S = Some PrimComb_S /\
  reduce1 PrimComb_K = Some PrimComb_K /\
  (forall t, reduce1 t <> None).
Proof.
  repeat split.
  intros t Ht. destruct (reduce1_is_Some t) as [t' Ht']. congruence.
Qed.

(** The two steps that take [SKK X] to [X]. *)
Lemma reduce1_SKK (X : Term) :
  reduce1 (App SKK X) = Some (App (App PrimComb_K X) (App PrimComb_K X)) /\
  reduce1 (App (App PrimComb_K X) (App PrimComb_K X)) = Some X.
Proof. split; reflexivity. Qed.

Lemma reduce_out_of_fuel (fuel : nat) (t : Term) : reduce fuel t = OutOfFuel.
Proof.
  revert t. induction fuel as [|fuel IH]; intros t; simpl; [done|].
  destruct (reduce1_is_Some t) as [t' ->]. apply IH.
Qed.

(** C3 (defect in the code): [reduce] applied to [SKK X] is to stop and
    return [X].  Two [reduce1] steps do lead from [SKK X] to [X], but the
    loop of [reduce] stops only on a [None] that [reduce1] never gives:
    whatever the bound on the number of turns, the loop is still running
    when the bound is reached. *)
Theorem reduce_SKK_never_returns (X : Term) :
  parse "SKK" = Ok SKK /\
  reduce1 (App SKK X) = Some (App (App PrimComb_K X) (App PrimComb_K X)) /\
  reduce1 (App (App PrimComb_K X) (App PrimComb_K X)) = Some X /\
  (forall fuel, reduce fuel (App SKK X) = OutOfFuel).
Proof.
  split; [reflexivity|]. split; [apply reduce1_SKK|]. split; [apply reduce1_SKK|].
  intros fuel. apply reduce_out_of_fuel.
Qed.

(** C7: at the root, [reduce1] rewrites [((S a) b) c] to [(a c)(b c)] and
    [(K a) b] to [a], whatever [a], [b] and [c] are (no subterm is visited
    first); in particular [reduce1 (App (App K S) K)] is [S]. *)
Theorem reduce1_root_rules :
  (forall a b c,
     reduce1 (App (App (App PrimComb_S a) b) c) = Some (App (App a c) (App b c))) /\
  (forall a b, reduce1 (App (App PrimComb_K a) b) = Some a) /\
  reduce1 (App (App PrimComb_K PrimComb_S) PrimComb_K) = Some PrimComb_S.
Proof. repeat split. Qed.

End Reduction.

Section Parser.
Import CombinatorCalculus.

(** Strings: length and indexing of a concatenation. *)
Lemma str_length_app (a b : string) :
  String.length (a +:+ b) = String.length a + String.length b.
Proof. induction a as [|c a IH]; simpl; [done|]. by rewrite IH. Qed.

Lemma str_get_length (s : string) : String.get (String.length s) s = None.
Proof. induction s as [|c s IH]; simpl; done. Qed.

Lemma str_get_lt (s : string) (k : nat) (c : ascii) :
  String.get k s = Some c -> k < String.length s.
Proof.
  revert k. induction s as [|d s IH]; intros k; simpl; [done|].
  destruct k as [|k]; [lia|]. intros H%IH. lia.
Qed.

Lemma at_pos_refl (s : string) : at_pos s 0 s.
Proof. intros k c H. exact H. Qed.

Lemma at_pos_app_l src p a b : at_pos src p (a +:+ b) -> at_pos src p a.
Proof.
  intros H k c Hk. apply H.
  rewrite <- String.append_correct1; [done|]. by eapply str_get_lt.
Qed.

Lemma at_pos_app_r src p a b :
  at_pos src p (a +:+ b) -> at_pos src (p + String.length a) b.
Proof.
  intros H k c Hk. replace (p + String.length a + k) with (p + (k + String.length a)) by lia.
  apply H. by rewrite <- String.append_correct2.
Qed.

Lemma at_pos_head src p c s : at_pos src p (String c s) -> String.get p src = Some c.
Proof. intros H. specialize (H 0 c eq_refl). by rewrite Nat.add_0_r in H. Qed.

Lemma at_pos_tail src p c s : at_pos src p (String c s) -> at_pos src (p + 1) s.
Proof.
  intros H k d Hk. replace (p + 1 + k) with (p + S k) by lia. by apply H.
Qed.

(** More fuel does not change an outcome that was reached. *)
Lemma parse_term_loop_mono n m src i0 i acc r :
  parse_term_loop n src i0 i acc = r -> r <> OutOfFuel -> n <= m ->
  parse_term_loop m src i0 i acc = r.
Proof.
  revert m i0 i acc r. induction n as [|n IH]; intros m i0 i acc r.
  { intros <-. done. }
  intros Hr Hne Hle. destruct m as [|m]; [lia|].
  cbn [parse_term_loop] in *.
  destruct (String.get i src) as [char|]; [|done].
  destruct (char_in char "SK"); [apply IH; [done..|lia]|].
  destruct (Ascii.eqb char "("); [|done].
  destruct (parse_term_loop n src (i + 1) (i + 1) None) as [[t j]| |] eqn:Hin;
    cbn [mbind res_bind] in Hr; [| |congruence].
  - rewrite (IH m _ _ _ _ Hin) by (done || lia). cbn [mbind res_bind].
    apply IH; [done..|lia].
  - rewrite (IH m _ _ _ _ Hin) by (done || lia). done.
Qed.

(** One turn of the loop on each kind of character. *)
Lemma parse_term_loop_prim n src i0 i acc name :
  (name = "S" \/ name = "K") -> at_pos src i name ->
  parse_term_loop (S n) src i0 i acc =
  parse_term_loop n src i0 (i + 1) (Some (feed acc (PrimComb name))).
Proof.
  intros [-> | ->] H%at_pos_head; cbn [parse_term_loop]; rewrite H;
    by destruct acc.
Qed.

Lemma parse_term_loop_close n src i0 i acc :
  String.get i src = Some ")"%char ->
  parse_term_loop (S n) src i0 i acc = parse_term_finish acc (i + 1).
Proof. intros H. cbn [parse_term_loop]. by rewrite H. Qed.

Lemma parse_term_loop_open n src i0 i acc :
  String.get i src = Some "("%char ->
  parse_term_loop (S n) src i0 i acc =
  '(term, j) ← parse_term_loop n src (i + 1) (i + 1) None;
  parse_term_loop n src i0 j (acc_append acc term).
Proof. intros H. cbn [parse_term_loop]. by rewrite H. Qed.

(** Reading the printed form of [t] appends the atoms of [t] to the
    accumulator and moves the index past it; the fuel used is one unit
    per character. *)
Lemma parse_term_loop_to_str (t : Term) :
  only_SK t ->
  forall src p i0 acc n r,
    at_pos src p (to_str t) ->
    parse_term_loop n src i0 (p + String.length (to_str t))
      (Some (feed acc t)) = r ->
    r <> OutOfFuel ->
    parse_term_loop (n + String.length (to_str t)) src i0 p acc = r.
Proof.
  induction t as [name|name|l IHl r IHr]; intros Hsk; [done|..].
  - intros src p i0 acc n res Hat Hres _.
    apply orb_prop_elim in Hsk.
    assert (name = "S" \/ name = "K") as Hname.
    { destruct Hsk as [H|H]; apply bool_decide_unpack in H; auto. }
    cbn [to_str] in *.
    assert (String.length name = 1) as Hlen by (by destruct Hname as [-> | ->]).
    rewrite Hlen in *. rewrite Nat.add_1_r.
    by rewrite (parse_term_loop_prim _ _ _ _ _ name).
  - cbn [only_SK] in Hsk. apply andb_prop_elim in Hsk as [Hl Hr].
    intros src p i0 acc n res Hat Hres Hne.
    cbn [to_str] in *. cbv zeta in *.
    rewrite str_length_app in *.
    set (sl := to_str l) in *. set (q := p + String.length sl).
    pose proof (at_pos_app_l _ _ _ _ Hat) as Hatl.
    pose proof (at_pos_app_r _ _ _ _ Hat) as Hatr. fold q in Hatr.
    rewrite Nat.add_assoc in Hres. fold q in Hres.
    rewrite (Nat.add_comm (String.length sl)), Nat.add_assoc.
    apply (IHl Hl); [done| |done]. fold q.
    destruct r as [name|name|rl rr]; [done|..]; cbn [is_App] in *.
    + (* the right child is a primitive combinator: printed bare *)
      cbn [only_SK] in Hr. apply orb_prop_elim in Hr.
      assert (name = "S" \/ name = "K") as Hname.
      { destruct Hr as [H|H]; apply bool_decide_unpack in H; auto. }
      cbn [to_str] in *.
      assert (String.length name = 1) as Hlen by (by destruct Hname as [-> | ->]).
      rewrite Hlen in *. rewrite Nat.add_1_r.
      rewrite (parse_term_loop_prim _ _ _ _ _ name) by done.
      by destruct acc.
    + (* the right child is an application: printed in brackets *)
      set (rt := App rl rr) in *. set (sr := to_str rt) in *.
      change ("(" +:+ sr +:+ ")") with (String "(" (sr +:+ ")")) in *.
      cbn [String.length] in *. rewrite str_length_app in *.
      cbn [String.length] in *.
      pose proof (at_pos_head _ _ _ _ Hatr) as Hopen.
      pose proof (at_pos_tail _ _ _ _ Hatr) as Hin.
      pose proof (at_pos_app_l _ _ _ _ Hin) as Hatsr.
      pose proof (at_pos_app_r _ _ _ _ Hin) as Hclose%at_pos_head.
      replace (n + S (String.length sr + 1)) with (S (S n + String.length sr)) by lia.
      rewrite parse_term_loop_open by done.
      rewrite (IHr Hr src (q + 1) (q + 1) None (S n)
                 (Ok (rt, q + 1 + String.length sr + 1))); [|done| |done].
      * cbn [mbind res_bind]. apply (parse_term_loop_mono n); [|done|lia].
        rewrite <- Hres. f_equal; [lia|]. by destruct acc.
      * by rewrite parse_term_loop_close.
Qed.

(** C2: the parser inverts the printer on every term built from S, K
    and application only: [parse (to_str t)] returns [t]. *)
Theorem parse_to_str (t : Term) : only_SK t -> parse (to_str t) = Ok t.
Proof.
  intros Hsk. unfold parse, parse_term.
  change (S (String.length (to_str t))) with (1 + String.length (to_str t)).
  rewrite (parse_term_loop_to_str t Hsk (to_str t) 0 0 None 1
             (Ok (t, String.length (to_str t))));
    [| apply at_pos_refl | | done].
  - cbn [mbind res_bind]. by rewrite Nat.eqb_refl.
  - cbn [parse_term_loop feed]. rewrite Nat.add_0_l.
    by rewrite str_get_length.
Qed.

Lemma parse_to_str_witness :
  parse (to_str (App PrimComb_S (App PrimComb_K PrimComb_S))) =
  Ok (App PrimComb_S (App PrimComb_K PrimComb_S)).
Proof. apply parse_to_str. exact I. Defined.







(** A closing bracket at the very end of the input is accepted. *)
Lemma parse_trailing_closing_bracket :
  parse "SK)" = Ok (App PrimComb_S PrimComb_K).
Proof. reflexivity. Qed.



End Parser.

(** * Properties of the term algebras *)

Section Algebras.
Import Unify CombinatorCalculus.

Lemma general_round_trip (f : GTerm) (args : list GTerm) :
  (t ← GeneralUnifier.apply f args; GeneralUnifier.fun_sym t) = Ok f /\
  (t ← GeneralUnifier.apply f args; GeneralUnifier.args t) = Ok args.
Proof. split; reflexivity. Qed.

Lemma combinator_round_trip (f : FunSym) (args : list Term) :
  Unifier.arity_ok f args ->
  (t ← Unifier.apply f args; Unifier.fun_sym t) = Ok f /\
  (t ← Unifier.apply f args; Unifier.args t) = Ok args.
Proof.
  destruct f as [name|]; cbn [Unifier.arity_ok].
  - intros ->. split; reflexivity.
  - intros Hlen. destruct args as [|a [|b [|c args]]]; try discriminate Hlen.
    split; reflexivity.
Qed.

Lemma combinator_fun_sym_apply (f : FunSym) (args : list Term) (t : Term) :
  Unifier.apply f args = Ok t -> Unifier.fun_sym t = Ok f.
Proof.
  destruct f as [name|]; cbn [Unifier.apply].
  - by intros [= <-].
  - destruct args as [|a [|b [|c args]]]; try discriminate. by intros [= <-].
Qed.

(** On the combinator algebra, [apply] drops the arguments given to a
    primitive combinator: [args (apply S [K])] is empty. *)
Lemma combinator_args_apply_not_round_trip :
  ~ (forall (f : FunSym) (args : list Term),
       (t ← Unifier.apply f args; Unifier.args t) = Ok args).
Proof.
  intros H. specialize (H (FunSym_PrimComb "S") [PrimComb_K]). discriminate H.
Qed.

(** C6 (amended): on the tuple algebra, [fun_sym (apply f args)] is [f]
    and [args (apply f args)] is [args] for every [f] and [args].  On
    the combinator algebra the two equations hold when [args] is empty
    for a primitive combinator and has two terms for [App]; whenever
    [apply] returns, [fun_sym] gives back [f]; [apply] of a primitive
    combinator returns that combinator whatever [args] is, and [apply]
    of [App] to other than two terms raises. *)
Theorem unifier_round_trip_laws :
  (forall (f : GTerm) (args : list GTerm),
     (t ← GeneralUnifier.apply f args; GeneralUnifier.fun_sym t) = Ok f /\
     (t ← GeneralUnifier.apply f args; GeneralUnifier.args t) = Ok args) /\
  (forall (f : FunSym) (args : list Term),
     Unifier.arity_ok f args ->
     (t ← Unifier.apply f args; Unifier.fun_sym t) = Ok f /\
     (t ← Unifier.apply f args; Unifier.args t) = Ok args) /\
  (forall (f : FunSym) (args : list Term) (t : Term),
     Unifier.apply f args = Ok t -> Unifier.fun_sym t = Ok f) /\
  (forall name args,
     Unifier.apply (FunSym_PrimComb name) args = Ok (PrimComb name)) /\
  (forall args,
     length args <> 2 -> Unifier.apply FunSym_App args = Raise ValueError).
Proof.
  split; [apply general_round_trip|].
  split; [apply combinator_round_trip|].
  split; [apply combinator_fun_sym_apply|].
  split; [done|].
  intros args Hlen. by destruct args as [|a [|b [|c args]]].
Qed.

Lemma unifier_round_trip_laws_witness :
  Unifier.arity_ok FunSym_App [PrimComb_S; PrimComb_K] /\
  (t ← Unifier.apply FunSym_App [PrimComb_S; PrimComb_K]; Unifier.args t) =
    Ok [PrimComb_S; PrimComb_K].
Proof.
  split; [reflexivity|].
  apply (proj1 (proj2 unifier_round_trip_laws) FunSym_App [PrimComb_S; PrimComb_K]).
  reflexivity.
Defined.

(** Both algebras rebuild an application from its own symbol and as
    many arguments as it has into an application to these arguments. *)
Lemma general_rebuild_law : rebuild_law (H := GeneralUnifier).
Proof.
  intros t f l l' t' Hv Hf Hargs _ [= <-].
  split; reflexivity.
Qed.

Lemma combinator_rebuild_law : rebuild_law (H := CombinatorUnifier).
Proof.
  intros t f l l' t' Hv Hf Hargs Hlen Happ.
  destruct t as [name|name|a b]; [done|..];
    injection Hf as <-; injection Hargs as <-.
  - injection Happ as <-. destruct l'; [|done]. split; reflexivity.
  - destruct l' as [|a' [|b' [|c' l']]]; try done.
    injection Happ as <-. split; reflexivity.
Qed.

(** On combinator terms no variable can be bound: building the
    dictionary [{left: right}] needs the hash of a [Var]. *)
Lemma combinator_unify2_var :
  unify2 (Var "x") PrimComb_S None 2 1 [] =
    ([PyList []; PyDict []], Raise (AlgebraError TypeError)).
Proof. reflexivity. Qed.

End Algebras.

(** * Properties of unification *)

Section UnifyLemmas.
Import Unify.
Context {FunSymT TermT : Type} `{Unifier FunSymT TermT} `{Hash TermT}.

(** **** Lists and dictionaries *)

Lemma pop_None {A} (l : list A) : pop l = None <-> l = [].
Proof.
  destruct l as [|x l]; simpl; [done|].
  split; [|done]. by destruct (pop l) as [[? ?]|].
Qed.

Lemma pop_app {A} (l : list A) (a : A) : pop (l ++ [a]) = Some (l, a).
Proof. induction l as [|x l IH]; simpl; [done|]. by rewrite IH. Qed.

Lemma pop_Some {A} (l l' : list A) (a : A) :
  pop l = Some (l', a) <-> l = l' ++ [a].
Proof.
  split; [|intros ->; apply pop_app].
  revert l'. induction l as [|x l IH]; intros l'; simpl; [done|].
  destruct (pop l) as [[l'' y]|] eqn:Hpop.
  - intros [= <- <-]. simpl. f_equal. by apply IH.
  - intros [= <- <-]. apply pop_None in Hpop. by subst.
Qed.

Lemma dict_get_set (s : dict TermT) (k v d : TermT) :
  dict_get (dict_set s k v) k d = v.
Proof.
  induction s as [|[k' v'] s IH]; simpl.
  - by rewrite decide_True.
  - destruct (decide (k' = k)) as [->|Hne]; simpl.
    + by rewrite decide_True.
    + by rewrite decide_False.
Qed.

Lemma dict_set_keys_in (s : dict TermT) (k v : TermT) :
  k ∈ dict_keys s -> dict_keys (dict_set s k v) = dict_keys s.
Proof.
  unfold dict_keys. induction s as [|[k' v'] s IH]; simpl.
  - by intros ?%elem_of_nil.
  - intros Hin. destruct (decide (k' = k)) as [->|Hne]; simpl; [done|].
    f_equal. apply IH. apply elem_of_cons in Hin as [?|?]; [congruence|done].
Qed.

Lemma dict_set_notin (s : dict TermT) (k v : TermT) :
  k ∉ dict_keys s -> dict_set s k v = s ++ [(k, v)].
Proof.
  unfold dict_keys. induction s as [|[k' v'] s IH]; simpl; [done|].
  intros Hin. apply not_elem_of_cons in Hin as [Hne Hin].
  rewrite decide_False by congruence. f_equal. by apply IH.
Qed.

(** Setting again, item after item, the keys a dictionary has, keeps
    its keys. *)
Lemma dict_ior_keys_subseteq (s other : dict TermT) :
  dict_keys other ⊆ dict_keys s -> dict_keys (dict_ior s other) = dict_keys s.
Proof.
  unfold dict_ior. revert s. induction other as [|[k v] other IH]; intros s; simpl; [done|].
  intros Hsub. rewrite IH.
  - apply dict_set_keys_in. apply Hsub. unfold dict_keys. simpl. left.
  - rewrite dict_set_keys_in; [|apply Hsub; unfold dict_keys; simpl; left].
    intros k' Hk'. apply Hsub. unfold dict_keys. simpl. by right.
Qed.

(** On a dictionary without repeated keys, setting each of its keys, in
    order, to a new value gives the list of the new items. *)
Lemma dict_ior_same_keys_aux (pre s other : dict TermT) :
  NoDup (dict_keys (pre ++ s)) -> dict_keys other = dict_keys s ->
  dict_ior (pre ++ s) other = pre ++ other.
Proof.
  unfold dict_ior, dict_keys. revert pre s.
  induction other as [|[k v] other IH]; intros pre s Hnd Hkeys.
  - destruct s; [done|discriminate Hkeys].
  - destruct s as [|[k' v'] s]; [discriminate Hkeys|].
    simpl in Hkeys. injection Hkeys as Hk Hkeys. subst k'. simpl.
    assert (dict_set (pre ++ (k, v') :: s) k v = (pre ++ [(k, v)]) ++ s) as ->.
    { rewrite fmap_app in Hnd. apply NoDup_app in Hnd as (_ & Hdisj & _).
      clear -Hdisj. induction pre as [|[k1 v1] pre IHpre]; simpl.
      - by rewrite decide_True.
      - rewrite decide_False.
        + f_equal. apply IHpre. intros x Hx. apply Hdisj. simpl. by right.
        + intros ->. apply (Hdisj k); simpl; left. }
    rewrite (IH (pre ++ [(k, v)]) s); [by rewrite <- app_assoc| |done].
    rewrite <- app_assoc. simpl.
    rewrite !fmap_app in *. simpl in *. done.
Qed.

Lemma dict_ior_same_keys (s other : dict TermT) :
  NoDup (dict_keys s) -> dict_keys other = dict_keys s ->
  dict_ior s other = other.
Proof. intros. by apply (dict_ior_same_keys_aux [] s other). Qed.

(** **** The statements of the body of [unify] *)

Lemma call_inv {A} (r : res PyError A) (st st' : Locals TermT)
    (r' : res (Exn FunSymT TermT) A) :
  call r st = (st', r') ->
  st' = st /\ ((exists a, r = Ok a /\ r' = Ok a) \/ alg_failure r').
Proof.
  unfold call. intros [= <- <-]. split; [done|].
  destruct r; [left; by eexists|by right..].
Qed.

Lemma subst_equations_inv depth var term todo :
  forall pre st st' r,
    equations st = pre ++ todo ->
    subst_equations depth [(var, term)] (length pre) todo st = (st', r) ->
    (exists todo', r = Ok tt /\
        Forall2 (subst_eq depth var term) todo todo' /\
        st' = mkLocals (pre ++ todo') (bindings st)) \/
    (alg_failure r /\ bindings st' = bindings st).
Proof.
  induction todo as [|[l r0] todo IH]; intros pre st st' r Heqs; simpl.
  - intros [= <- <-]. left. exists []. split; [done|]. split; [constructor|].
    destruct st as [eqs s]. simpl in *. by rewrite Heqs.
  - unfold bind at 1.
    destruct (call (subst depth [(var, term)] l) st) as [st1 r1] eqn:H1.
    apply call_inv in H1 as [-> [(l' & Hl & ->)|Hf]]; cycle 1.
    { destruct r1 as [?|e|]; [done|..]; intros [= <- <-]; by right. }
    unfold bind at 1.
    destruct (call (subst depth [(var, term)] r0) st) as [st1 r1] eqn:H2.
    apply call_inv in H2 as [-> [(r' & Hr & ->)|Hf]]; cycle 1.
    { destruct r1 as [?|e|]; [done|..]; intros [= <- <-]; by right. }
    unfold bind at 1, get_equations. unfold bind at 1, set_equations.
    intros Hrec.
    replace (S (length pre)) with (length (pre ++ [(l', r')])) in Hrec
      by (rewrite length_app; simpl; lia).
    apply IH in Hrec as [(todo' & -> & Hall & ->)|[Hf Hb]].
    + left. exists ((l', r') :: todo'). split; [done|]. split.
      * constructor; [by split|done].
      * simpl. by rewrite <- app_assoc.
    + by right.
    + simpl. rewrite Heqs, <- app_assoc. simpl.
      rewrite insert_app_r_alt by lia. by rewrite Nat.sub_diag.
Qed.

Lemma subst_bindings_inv depth var term todo :
  forall st st' r,
    subst_bindings depth [(var, term)] todo st = (st', r) ->
    (exists todo', r = Ok tt /\
        Forall2 (subst_item depth var term) todo todo' /\
        st' = mkLocals (equations st) (dict_ior (bindings st) todo')) \/
    (alg_failure r /\ equations st' = equations st).
Proof.
  induction todo as [|[k v] todo IH]; intros st st' r; simpl.
  - intros [= <- <-]. left. exists []. split; [done|]. split; [constructor|].
    by destruct st.
  - unfold bind at 1.
    destruct (call (subst depth [(var, term)] v) st) as [st1 r1] eqn:H1.
    apply call_inv in H1 as [-> [(v' & Hv & ->)|Hf]]; cycle 1.
    { destruct r1 as [?|e|]; [done|..]; intros [= <- <-]; by right. }
    unfold bind at 1, get_bindings. unfold bind at 1, set_bindings.
    intros Hrec.
    apply IH in Hrec as [(todo' & -> & Hall & ->)|[Hf Hb]]; [|by right].
    left. exists ((k, v') :: todo'). split; [done|]. split; [|done].
    constructor; [by split|done].
Qed.

(** Each turn of the loop is one of the cases of [turn_spec]. *)
Lemma unify_turn_spec depth (st st' : Locals TermT) r :
  unify_turn depth st = (st', r) -> turn_spec depth st st' r.
Proof.
  unfold unify_turn. unfold bind at 1, get_equations.
  destruct (pop (equations st)) as [[eqs [l r0]]|] eqn:Hpop.
  2: { apply pop_None in Hpop. intros [= <- <-]. by constructor. }
  apply pop_Some in Hpop. unfold bind at 1, set_equations.
  destruct (decide (l = r0)) as [<-|Hne].
  { rewrite bool_decide_true by done. intros [= <- <-]. by eapply turn_equal. }
  rewrite bool_decide_false by done.
  destruct (is_var l) eqn:Hvl.
  - (* the left side is a variable *)
    unfold bind at 1.
    destruct (call (occurs_in depth l r0) _) as [st1 r1] eqn:Hocc.
    apply call_inv in Hocc as [-> [(b & Hb & ->)|Hf]]; cycle 1.
    { destruct r1 as [?|e|]; [done|..]; intros [= <- <-]; by apply turn_failure. }
    destruct b.
    { intros [= <- <-]. by eapply turn_occurs. }
    unfold bind at 1, call at 1, dict_display.
    destruct (hashable l) eqn:Hhash; cycle 1.
    { intros [= <- <-]. by apply turn_failure. }
    unfold bind at 1, get_equations. cbn [equations bindings].
    unfold bind at 1.
    destruct (subst_equations depth [(l, r0)] 0 eqs _) as [st1 r1] eqn:Hse.
    apply (subst_equations_inv depth l r0 eqs []
             (mkLocals eqs (bindings st)) st1 r1 eq_refl) in Hse
      as [(eqs' & -> & Heqs' & ->)|[Hf _]]; cycle 1.
    { destruct r1 as [?|e|]; [done|..]; intros [= <- <-]; by apply turn_failure. }
    unfold bind at 1, get_bindings. cbn [equations bindings]. unfold bind at 1.
    destruct (subst_bindings depth [(l, r0)] (bindings st) _) as [st1 r1] eqn:Hsb.
    apply subst_bindings_inv in Hsb as [(s' & -> & Hs' & ->)|[Hf _]]; cycle 1.
    { destruct r1 as [?|e|]; [done|..]; intros [= <- <-]; by apply turn_failure. }
    unfold bind at 1, get_bindings. unfold bind at 1, set_bindings.
    cbn [equations bindings app]. intros [= <- <-].
    by eapply turn_bind.
  - destruct (is_var r0) eqn:Hvr.
    { unfold bind at 1, get_equations. unfold bind at 1, set_equations.
      cbn [equations bindings]. intros [= <- <-]. by eapply turn_swap. }
    unfold bind at 1.
    destruct (call (fun_sym l) _) as [st1 r1] eqn:Hf.
    apply call_inv in Hf as [-> [(f & Hf & ->)|Hf]]; cycle 1.
    { destruct r1 as [?|e|]; [done|..]; intros [= <- <-]; by apply turn_failure. }
    unfold bind at 1.
    destruct (call (fun_sym r0) _) as [st1 r1] eqn:Hg.
    apply call_inv in Hg as [-> [(g & Hg & ->)|Hg]]; cycle 1.
    { destruct r1 as [?|e|]; [done|..]; intros [= <- <-]; by apply turn_failure. }
    destruct (decide (f = g)) as [<-|Hfg].
    2: { rewrite bool_decide_true by done. intros [= <- <-].
         by eapply turn_mismatch. }
    rewrite bool_decide_false by (by intros ?).
    unfold bind at 1.
    destruct (call (args l) _) as [st1 r1] eqn:Hla.
    apply call_inv in Hla as [-> [(largs & Hla & ->)|Hla]]; cycle 1.
    { destruct r1 as [?|e|]; [done|..]; intros [= <- <-]; by apply turn_failure. }
    unfold bind at 1.
    destruct (call (args r0) _) as [st1 r1] eqn:Hra.
    apply call_inv in Hra as [-> [(rargs & Hra & ->)|Hra]]; cycle 1.
    { destruct r1 as [?|e|]; [done|..]; intros [= <- <-]; by apply turn_failure. }
    unfold bind at 1, get_equations. unfold bind at 1, set_equations.
    cbn [equations bindings]. intros [= <- <-]. by eapply turn_decompose.
Qed.



(** **** The loop *)

Lemma unify_loop_S fuel depth (st : Locals TermT) :
  unify_loop (S fuel) depth st =
  match unify_turn depth st with
  | (st1, Ok true) => unify_loop fuel depth st1
  | (st1, Ok false) => (st1, Ok tt)
  | (st1, Raise e) => (st1, Raise e)
  | (st1, OutOfFuel) => (st1, OutOfFuel)
  end.
Proof.
  cbn [unify_loop]. unfold bind.
  by destruct (unify_turn depth st) as [st1 [[]|e|]].
Qed.

(** The loop returns from a state without equations, reached by turns
    of the loop. *)
Lemma unify_loop_Ok fuel depth (st st' : Locals TermT) :
  unify_loop fuel depth st = (st', Ok tt) ->
  turns depth st st' /\ equations st' = [].
Proof.
  revert st. induction fuel as [|fuel IH]; intros st; [done|].
  rewrite unify_loop_S.
  destruct (unify_turn depth st) as [st1 [[]|e|]] eqn:Hturn; try done.
  - intros [Ht Hnil]%IH. split; [|done]. by eapply turns_step.
  - intros [= <-]. apply unify_turn_spec in Hturn.
    inversion Hturn; subst; [|done]. split; [constructor|done].
Qed.

(** The loop raises what one of its turns raises. *)
Lemma unify_loop_Raise depth (st st' : Locals TermT) e :
  (exists fuel, unify_loop fuel depth st = (st', Raise e)) <->
  (exists st1, turns depth st st1 /\ unify_turn depth st1 = (st', Raise e)).
Proof.
  split.
  - intros [fuel Hloop]. revert st Hloop.
    induction fuel as [|fuel IH]; intros st; [done|].
    rewrite unify_loop_S.
    destruct (unify_turn depth st) as [st1 [[]|e'|]] eqn:Hturn; try done.
    + intros (st2 & Ht & Hr)%IH. exists st2. split; [|done].
      by eapply turns_step.
    + intros [= <- <-]. exists st. split; [constructor|done].
  - intros (st1 & Ht & Hr). induction Ht as [st|st st1 st2 Hturn _ IH].
    + exists 1. by rewrite unify_loop_S, Hr.
    + destruct (IH Hr) as [fuel Hloop]. exists (S fuel).
      by rewrite unify_loop_S, Hturn.
Qed.

(** **** The call on the objects of the caller *)

Lemma unify_Some (er sr fuel depth : nat) (h : heap TermT) eqs s :
  h !! er = Some (PyList eqs) -> h !! sr = Some (PyDict s) ->
  exists h',
    unify er (Some sr) fuel depth h =
      (h', _ ← (unify_loop fuel depth (mkLocals eqs s)).2; Ok sr) /\
    h' !! er = Some (PyList (equations (unify_loop fuel depth (mkLocals eqs s)).1)) /\
    h' !! sr = Some (PyDict (bindings (unify_loop fuel depth (mkLocals eqs s)).1)).
Proof.
  intros Her Hsr. unfold unify. cbv beta iota zeta. rewrite Her, Hsr.
  destruct (unify_loop fuel depth (mkLocals eqs s)) as [st r]. cbn [fst snd].
  eexists. split; [done|].
  assert (er <> sr) as Hne by congruence.
  split.
  - rewrite list_lookup_insert_ne by done.
    apply list_lookup_insert_eq. by eapply lookup_lt_Some.
  - apply list_lookup_insert_eq. rewrite length_insert. by eapply lookup_lt_Some.
Qed.

Lemma unify_None (er fuel depth : nat) (h : heap TermT) eqs :
  h !! er = Some (PyList eqs) ->
  unify er None fuel depth h =
    unify er (Some (length h)) fuel depth (h ++ [PyDict []]) /\
  (h ++ [PyDict []]) !! er = Some (PyList eqs) /\
  (h ++ [PyDict []]) !! length h = Some (PyDict []).
Proof.
  intros Her. split; [done|]. split.
  - by apply lookup_app_l_Some.
  - by rewrite lookup_app_r, Nat.sub_diag.
Qed.

Lemma unify_spec (er : nat) (sro : option nat) (fuel depth : nat)
    (h : heap TermT) eqs s :
  h !! er = Some (PyList eqs) -> subst_arg h sro s ->
  exists h',
    unify er sro fuel depth h =
      (h', _ ← (unify_loop fuel depth (mkLocals eqs s)).2; Ok (subst_loc h sro)) /\
    h' !! er = Some (PyList (equations (unify_loop fuel depth (mkLocals eqs s)).1)) /\
    h' !! subst_loc h sro =
      Some (PyDict (bindings (unify_loop fuel depth (mkLocals eqs s)).1)).
Proof.
  intros Her Hs. destruct sro as [sr|]; cbn [subst_arg subst_loc] in *.
  - by apply unify_Some.
  - subst s. destruct (unify_None er fuel depth h eqs Her) as (-> & Her' & Hsr').
    by apply unify_Some.
Qed.

(** What [unify] raises is what its loop raises. *)
Lemma unify_Raise (er : nat) (sro : option nat) (fuel depth : nat)
    (h h' : heap TermT) eqs s e :
  h !! er = Some (PyList eqs) -> subst_arg h sro s ->
  unify er sro fuel depth h = (h', Raise e) ->
  exists st',
    unify_loop fuel depth (mkLocals eqs s) = (st', Raise e) /\
    h' !! er = Some (PyList (equations st')) /\
    h' !! subst_loc h sro = Some (PyDict (bindings st')).
Proof.
  intros Her Hs Hu.
  destruct (unify_spec er sro fuel depth h eqs s Her Hs) as (h1 & Hu1 & Hl & Hd).
  rewrite Hu in Hu1.
  destruct (unify_loop fuel depth (mkLocals eqs s)) as [st' [[]|e'|]];
    cbn [fst snd mbind res_bind] in *; simplify_eq.
  by exists st'.
Qed.


End UnifyLemmas.


Section Errors.
Import Unify.
Context {FunSymT TermT : Type} `{Unifier FunSymT TermT} `{Hash TermT}.


End Errors.

Section InPlace.
Import Unify.
Context {FunSymT TermT : Type} `{Unifier FunSymT TermT} `{Hash TermT}.

Lemma subst_item_keys depth var term (s s' : dict TermT) :
  Forall2 (subst_item depth var term) s s' -> dict_keys s' = dict_keys s.
Proof.
  unfold dict_keys. induction 1 as [|[k v] [k' v'] s s' [Hk _] _ IH]; csimpl; [done|].
  simpl in Hk. by rewrite Hk, IH.
Qed.

(** The keys of the dictionary after the items of a turn that binds
    [var] have been rewritten and the binding merged. *)
Lemma bind_keys depth var term (s s' : dict TermT) :
  Forall2 (subst_item depth var term) s s' ->
  dict_keys (dict_ior (dict_ior s s') [(var, term)]) =
  dict_keys s ++ (if decide (var ∈ dict_keys s) then [] else [var]).
Proof.
  intros Hkeys%subst_item_keys.
  assert (dict_keys (dict_ior s s') = dict_keys s) as Hk.
  { apply dict_ior_keys_subseteq. intros k Hin. congruence. }
  unfold dict_ior at 1. cbn [fold_left].
  destruct (decide (var ∈ dict_keys s)) as [Hin|Hnin].
  - rewrite dict_set_keys_in by (by rewrite Hk). by rewrite Hk, app_nil_r.
  - rewrite dict_set_notin by (by rewrite Hk).
    unfold dict_keys in *. by rewrite fmap_app, Hk.
Qed.

(** A turn keeps the keys of the dictionary, in their order, and adds at
    most the variable it binds, when that is not a key yet. *)
Lemma unify_turn_keys depth (st st' : Locals TermT) r :
  unify_turn depth st = (st', r) -> ~ alg_failure r ->
  exists news,
    dict_keys (bindings st') = dict_keys (bindings st) ++ news /\
    forall k, k ∈ news -> k ∉ dict_keys (bindings st).
Proof.
  intros Hturn%unify_turn_spec Hr.
  inversion Hturn; subst; cbn [bindings]; try done;
    try (exists []; split; [by rewrite app_nil_r|by intros ? ?%elem_of_nil]).
  erewrite bind_keys by done. eexists. split; [done|].
  intros k. destruct (decide (var ∈ dict_keys (bindings st))).
  - by intros ?%elem_of_nil.
  - by intros ->%list_elem_of_singleton.
Qed.

Lemma turns_keys depth (st st' : Locals TermT) :
  turns depth st st' ->
  exists news,
    dict_keys (bindings st') = dict_keys (bindings st) ++ news /\
    forall k, k ∈ news -> k ∉ dict_keys (bindings st).
Proof.
  induction 1 as [st|st st1 st' Hturn _ (news2 & Hk2 & Hn2)].
  - exists []. split; [by rewrite app_nil_r|by intros ? ?%elem_of_nil].
  - apply unify_turn_keys in Hturn as (news1 & Hk1 & Hn1); [|by intros []].
    exists (news1 ++ news2). split.
    + by rewrite Hk2, Hk1, app_assoc.
    + intros k [Hin|Hin]%elem_of_app; [by apply Hn1|].
      intros Hk. apply (Hn2 k Hin). rewrite Hk1. apply elem_of_app. by left.
Qed.

Ltac no_failure :=
  match goal with Hf : alg_failure _ |- _ => by destruct Hf end.

(** The run on a single equation between a variable and another term:
    it stops after the turn that binds the variable. *)
Lemma unify_loop_single fuel depth var term (s : dict TermT) (st' : Locals TermT) :
  is_var var = true -> var <> term ->
  unify_loop fuel depth (mkLocals [(var, term)] s) = (st', Ok tt) ->
  forall d, dict_get (bindings st') var d = term.
Proof.
  intros Hv Hne Hloop d. destruct fuel as [|fuel]; [done|].
  rewrite unify_loop_S in Hloop.
  destruct (unify_turn depth _) as [st1 [[]|e|]] eqn:Hturn; try done.
  - apply unify_turn_spec in Hturn. inversion Hturn as
      [ |eqs t Heq|eqs v t Heq|eqs v t eqs' s' Heq _ _ _ _ Heqs' Hs'
       |eqs l r Heq _ Hl|eqs l r f g Heq|eqs l r f la ra Heq _ Hl| ];
      subst; cbn [equations bindings] in *;
      try (apply (app_inj_tail [] eqs) in Heq as [<- [= <- <-]]); try congruence;
      try no_failure.
    inversion Heqs'; subst.
    destruct fuel as [|fuel]; [done|]. rewrite unify_loop_S in Hloop.
    destruct (unify_turn depth _) as [st2 [[]|e|]] eqn:Hturn2; try done.
    injection Hloop as <-. apply unify_turn_spec in Hturn2.
    inversion Hturn2; subst; [|done].
    cbn [bindings]. unfold dict_ior at 1. cbn [fold_left].
    apply dict_get_set.
  - injection Hloop as <-. apply unify_turn_spec in Hturn.
    by inversion Hturn; subst.
Qed.

(** What holds whenever [unify] returns, in every term algebra: the list
    [equations] of the caller is empty, and the dictionary returned is
    the one passed as [subst] (a new one if none was passed), updated in
    place: its keys are those it had, in their order, followed by the
    variables newly bound; and after the run on a single equation
    between a variable and another term, the variable is bound to that
    term, whatever it was bound to before. *)
Lemma unify_returns_in_place (er : nat) (sro : option nat)
    (fuel depth : nat) (h h' : heap TermT) (r : nat)
    (eqs : list (TermT * TermT)) (s : dict TermT) :
  h !! er = Some (PyList eqs) -> subst_arg h sro s ->
  unify er sro fuel depth h = (h', Ok r) ->
  h' !! er = Some (PyList []) /\
  r = subst_loc h sro /\
  (forall sr, sro = Some sr -> r = sr) /\
  exists s',
    h' !! r = Some (PyDict s') /\
    (exists news,
       dict_keys s' = dict_keys s ++ news /\
       forall k, k ∈ news -> k ∉ dict_keys s) /\
    (forall var term,
       eqs = [(var, term)] -> is_var var = true -> var <> term ->
       forall d, dict_get s' var d = term).
Proof.
  intros Her Hs Hu.
  destruct (unify_spec er sro fuel depth h eqs s Her Hs) as (h1 & Hu1 & Hl & Hd).
  rewrite Hu in Hu1.
  destruct (unify_loop fuel depth (mkLocals eqs s)) as [st' [[]|e|]] eqn:Hloop;
    cbn [fst snd mbind res_bind] in *; simplify_eq.
  pose proof (unify_loop_Ok _ _ _ _ Hloop) as [Ht Hnil].
  split; [by rewrite Hl, Hnil|]. split; [done|].
  split; [by intros sr ->|].
  exists (bindings st'). split; [done|]. split.
  - by apply turns_keys in Ht.
  - intros var term -> Hv Hne d. by eapply unify_loop_single.
Qed.

End InPlace.

Section Idempotence.
Import Unify.
Context {FunSymT TermT : Type} `{Unifier FunSymT TermT} `{Hash TermT}.

(** **** [any], [occurs_in] and [subst] *)

Lemma any_res_false {E} (f : TermT -> res E bool) (l : list TermT) :
  any_res f l = Ok false <-> forall a, a ∈ l -> f a = Ok false.
Proof.
  induction l as [|x l IH]; simpl.
  - split; [|done]. by intros _ a ?%elem_of_nil.
  - destruct (f x) as [[]| |] eqn:Hx; cbn [mbind res_bind].
    + split; [done|]. intros Hall. specialize (Hall x). rewrite Hx in Hall.
      discriminate Hall. left.
    + rewrite IH. split.
      * intros Hall a [->|Hin]%elem_of_cons; auto.
      * intros Hall a Hin. apply Hall. by right.
    + split; [done|]. intros Hall. specialize (Hall x). rewrite Hx in Hall.
      discriminate Hall. left.
    + split; [done|]. intros Hall. specialize (Hall x). rewrite Hx in Hall.
      discriminate Hall. left.
Qed.

Lemma any_res_ext {E} (f g : TermT -> res E bool) (l : list TermT) b :
  (forall a b, a ∈ l -> f a = Ok b -> g a = Ok b) ->
  any_res f l = Ok b -> any_res g l = Ok b.
Proof.
  induction l as [|x l IH]; simpl; [done|]. intros Hfg.
  destruct (f x) as [c| |] eqn:Hx; cbn [mbind res_bind]; [|done..].
  rewrite (Hfg x c) by (done || left). cbn [mbind res_bind].
  destruct c; [done|]. apply IH. intros a b' Hin. apply Hfg. by right.
Qed.

Lemma occurs_in_mono d d' (var term : TermT) b :
  occurs_in d var term = Ok b -> d <= d' -> occurs_in d' var term = Ok b.
Proof.
  revert d' term b. induction d as [|d IH]; intros d' term b; [done|].
  intros Hocc Hle. destruct d' as [|d']; [lia|]. cbn [occurs_in] in *.
  destruct (is_var term); [done|].
  destruct (args term) as [l| |]; cbn [mbind res_bind] in *; [|done..].
  eapply any_res_ext; [|done]. intros a c _ Ha. apply IH; [done|lia].
Qed.

Lemma fresh_in_var (var term : TermT) :
  is_var term = true -> fresh_in var term <-> var <> term.
Proof.
  intros Hv. split.
  - intros [[|d] Hd]; [done|]. cbn [occurs_in] in Hd. rewrite Hv in Hd.
    injection Hd as Hd. by apply bool_decide_eq_false in Hd.
  - intros Hne. exists 1. cbn [occurs_in]. rewrite Hv.
    by rewrite bool_decide_false.
Qed.

(** One depth serves for all the terms of a list. *)
Lemma fresh_in_list (var : TermT) (l : list TermT) :
  (forall a, a ∈ l -> fresh_in var a) ->
  exists d, forall a, a ∈ l -> occurs_in d var a = Ok false.
Proof.
  induction l as [|x l IH]; intros Hall.
  - exists 0. by intros a ?%elem_of_nil.
  - destruct (Hall x) as [dx Hx]; [left|].
    destruct IH as [dl Hl]; [intros a Ha; apply Hall; by right|].
    exists (dx `max` dl). intros a [->|Hin]%elem_of_cons.
    + eapply occurs_in_mono; [done|lia].
    + eapply occurs_in_mono; [by apply Hl|lia].
Qed.

Lemma fresh_in_args (var term : TermT) (l : list TermT) :
  is_var term = false -> args term = Ok l ->
  fresh_in var term <-> forall a, a ∈ l -> fresh_in var a.
Proof.
  intros Hv Hargs. split.
  - intros [[|d] Hd]; [done|]. cbn [occurs_in] in Hd.
    rewrite Hv, Hargs in Hd. cbn [mbind res_bind] in Hd.
    intros a Hin. exists d. by eapply any_res_false in Hd.
  - intros [d Hd]%fresh_in_list. exists (S d). cbn [occurs_in].
    rewrite Hv, Hargs. cbn [mbind res_bind]. by apply any_res_false.
Qed.

Lemma map_res_Forall2 {E} (f : TermT -> res E TermT) (l l' : list TermT) :
  map_res f l = Ok l' -> Forall2 (fun a a' => f a = Ok a') l l'.
Proof.
  revert l'. induction l as [|x l IH]; intros l'; simpl.
  - intros [= <-]. constructor.
  - destruct (f x) as [y| |] eqn:Hx; cbn [mbind res_bind]; [|done..].
    destruct (map_res f l) as [l''| |]; cbn [mbind res_bind]; [|done..].
    intros [= <-]. constructor; [done|]. by apply IH.
Qed.

Lemma Forall2_elem_of_r {A B} (P : A -> B -> Prop) l l' y :
  Forall2 P l l' -> y ∈ l' -> exists x, x ∈ l /\ P x y.
Proof.
  induction 1 as [|x y' l l' HP _ IH]; [by intros ?%elem_of_nil|].
  intros [->|Hin]%elem_of_cons.
  - exists x. split; [left|done].
  - destruct (IH Hin) as (x' & Hx' & HP'). exists x'. split; [by right|done].
Qed.

Hypothesis Hlaw : rebuild_law.

(** A variable that occurs neither in [term] nor in [u], or the
    variable [var] itself when it does not occur in [term], does not
    occur in the image of [u] under [{var: term}]. *)
Lemma subst_fresh depth (k var term u u' : TermT) :
  fresh_in k term -> (k = var \/ fresh_in k u) ->
  subst depth [(var, term)] u = Ok u' -> fresh_in k u'.
Proof.
  intros Hterm. revert u u'. induction depth as [|depth IH]; intros u u'; [done|].
  intros Hu. cbn [subst].
  destruct (is_var u) eqn:Hv.
  - destruct (hashable u); [|done]. intros [= <-]. cbn [dict_get].
    destruct (decide (var = u)) as [->|Hne]; [done|].
    destruct Hu as [->|Hu]; [|done]. by apply fresh_in_var.
  - destruct (fun_sym u) as [f| |] eqn:Hf; cbn [mbind res_bind]; [|done..].
    destruct (args u) as [l| |] eqn:Hargs; cbn [mbind res_bind]; [|done..].
    destruct (map_res _ l) as [l'| |] eqn:Hmap; cbn [mbind res_bind]; [|done..].
    intros Happ. apply map_res_Forall2 in Hmap.
    destruct (Hlaw u f l l' u') as [Hv' Hargs']; try done.
    { symmetry. by eapply Forall2_length. }
    apply (fresh_in_args _ _ l'); [done..|].
    intros a' (a & Hin & Ha)%(Forall2_elem_of_r _ _ _ _ Hmap).
    apply (IH a); [|done].
    destruct Hu as [->|Hu]; [by left|right].
    by eapply (fresh_in_args _ u l).
Qed.

(** **** The invariant of the loop *)

Lemma solved_turn depth (st st' : Locals TermT) :
  unify_turn depth st = (st', Ok true) ->
  solved (equations st) (bindings st) ->
  solved (equations st') (bindings st').
Proof.
  intros Hturn%unify_turn_spec [Hnd Hinv].
  inversion Hturn as
    [ |eqs t Heq|eqs v t Heq|eqs var term eqs' s' Heq Hne Hv Hocc _ Heqs' Hs'
     |eqs l r Heq Hne Hl Hr|eqs l r f g Heq
     |eqs l r f la ra Heq Hne Hl Hr Hf Hg Hla Hra|? ? Hfail];
    subst; cbn [equations bindings]; [| | | |done].
  - (* both sides equal *)
    split; [done|]. intros k Hk. destruct (Hinv k Hk) as [Hvals Heqs].
    split; [done|]. intros e He. apply Heqs. rewrite Heq.
    apply elem_of_app. by left.
  - (* a variable is bound *)
    set (s := bindings st) in *.
    assert (forall k, k ∈ dict_keys s -> fresh_in k var /\ fresh_in k term) as Hvt.
    { intros k Hk. destruct (Hinv k Hk) as [_ Heqs].
      apply (Heqs (var, term)). rewrite Heq. apply elem_of_app. right. left. }
    assert (var ∉ dict_keys s) as Hnin.
    { intros Hk. destruct (Hvt var Hk) as [Hfv _].
      by apply fresh_in_var in Hfv. }
    pose proof (subst_item_keys _ _ _ _ _ Hs') as Hkeys.
    rewrite (dict_ior_same_keys s s') by done.
    unfold dict_ior. cbn [fold_left].
    rewrite dict_set_notin by (by rewrite Hkeys).
    assert (fresh_in var term) as Hfresh by (by exists depth).
    assert (forall k, k ∈ dict_keys s \/ k = var -> fresh_in k term) as Hkterm.
    { intros k [Hk| ->]; [by apply Hvt|done]. }
    split.
    + unfold dict_keys in *. rewrite fmap_app, Hkeys. cbn [fmap list_fmap fst].
      apply NoDup_app. split; [done|]. split; [|apply NoDup_singleton].
      by intros k Hk ->%list_elem_of_singleton.
    + intros k Hk.
      assert (k ∈ dict_keys s \/ k = var) as Hk'.
      { unfold dict_keys in *. rewrite fmap_app, Hkeys in Hk.
        apply elem_of_app in Hk as [Hk|Hk]; [by left|right].
        by apply list_elem_of_singleton in Hk. }
      split.
      * intros v Hvin. unfold dict_values in Hvin. rewrite fmap_app in Hvin.
        apply elem_of_app in Hvin as [Hvin|Hvin].
        -- apply list_elem_of_fmap in Hvin as ([k1 v1] & -> & Hin1).
           apply (Forall2_elem_of_r _ _ _ _ Hs') in Hin1
             as ([k0 v0] & Hin0 & _ & Hsub). cbn [fst snd] in *.
           eapply subst_fresh; [by apply Hkterm| |done].
           destruct Hk' as [Hks| ->]; [right|by left].
           apply (Hinv k Hks). unfold dict_values.
           apply list_elem_of_fmap. by exists (k0, v0).
        -- apply list_elem_of_singleton in Hvin as ->. by apply Hkterm.
      * intros e' (e & Hin & Hl & Hr)%(Forall2_elem_of_r _ _ _ _ Heqs').
        assert (k = var \/ (fresh_in k e.1 /\ fresh_in k e.2)) as He.
        { destruct Hk' as [Hks| ->]; [right|by left].
          apply (Hinv k Hks). rewrite Heq. apply elem_of_app. by left. }
        destruct He as [Hkv|[He1 He2]].
        -- split; (eapply subst_fresh; [by apply Hkterm|by left|]); [apply Hl|apply Hr].
        -- split; (eapply subst_fresh; [by apply Hkterm|right|]);
             [apply He1|apply Hl|apply He2|apply Hr].
  - (* the two sides are swapped *)
    split; [done|]. intros k Hk. destruct (Hinv k Hk) as [Hvals Heqs].
    split; [done|]. intros e [He|He]%elem_of_app.
    + apply Heqs. rewrite Heq. apply elem_of_app. by left.
    + apply list_elem_of_singleton in He as ->.
      destruct (Heqs (l, r)) as [? ?]; [|done].
      rewrite Heq. apply elem_of_app. right. left.
  - (* two applications of one symbol *)
    split; [done|]. intros k Hk. destruct (Hinv k Hk) as [Hvals Heqs].
    split; [done|]. intros e [He|He]%elem_of_app.
    + apply Heqs. rewrite Heq. apply elem_of_app. by left.
    + destruct (Heqs (l, r)) as [Hfl Hfr].
      { rewrite Heq. apply elem_of_app. right. left. }
      destruct e as [a b]. pose proof (elem_of_zip_l _ _ _ _ He) as Ha.
      pose proof (elem_of_zip_r _ _ _ _ He) as Hb. cbn [fst snd] in *. split.
      * by apply (fresh_in_args k l la).
      * by apply (fresh_in_args k r ra).
Qed.

Lemma solved_turns depth (st st' : Locals TermT) :
  turns depth st st' ->
  solved (equations st) (bindings st) ->
  solved (equations st') (bindings st').
Proof.
  induction 1 as [st|st st1 st' Hturn _ IH]; [done|].
  intros Hs. apply IH. by eapply solved_turn.
Qed.

Lemma solved_nil (eqs : list (TermT * TermT)) : solved eqs [].
Proof. split; [constructor|]. by intros k ?%elem_of_nil. Qed.

(** C5 (amended): whenever [unify] returns a substitution, having
    started from no initial substitution, or from one none of whose
    variables occurs in a term it binds or in an equation, no variable
    bound by the result occurs in a term the result binds a variable
    to.  (The algebra is one where an application rebuilt from its own
    symbol and as many arguments as it has is an application to these
    arguments.) *)
Theorem unify_idempotent (er : nat) (sro : option nat) (fuel depth : nat)
    (h h' : heap TermT) (r : nat) (eqs : list (TermT * TermT)) (s : dict TermT) :
  h !! er = Some (PyList eqs) -> subst_arg h sro s ->
  (sro <> None -> solved eqs s) ->
  unify er sro fuel depth h = (h', Ok r) ->
  exists s',
    h' !! r = Some (PyDict s') /\
    forall k v, k ∈ dict_keys s' -> v ∈ dict_values s' -> fresh_in k v.
Proof.
  intros Her Hs Hsolved Hu.
  assert (solved eqs s) as Hinit.
  { destruct sro as [sr|]; [by apply Hsolved|].
    cbn [subst_arg] in Hs. subst s. apply solved_nil. }
  destruct (unify_spec er sro fuel depth h eqs s Her Hs) as (h1 & Hu1 & Hl & Hd).
  rewrite Hu in Hu1.
  destruct (unify_loop fuel depth (mkLocals eqs s)) as [st' [[]|e|]] eqn:Hloop;
    cbn [fst snd mbind res_bind] in *; simplify_eq.
  apply unify_loop_Ok in Hloop as [Ht Hnil].
  apply solved_turns in Ht; [|done].
  exists (bindings st'). split; [done|].
  intros k v Hk Hv. by apply (proj2 Ht k Hk).
Qed.

End Idempotence.

Section Examples.
Import Unify.

(** C9: on the tuple algebra, [unify2 (f, x, y) (f, y, x)] returns the
    dictionary [{y: x}] and [unify2 (f, x, (g, y, z)) (f, x, w)] returns
    [{w: (g, y, z)}], as soon as the bounds leave room for the five
    turns of the loop and for terms of depth two: the reference returned
    is that of a new dictionary with this one item. *)
Theorem unify2_examples (fuel depth : nat) :
  5 <= fuel -> 2 <= depth ->
  (exists h r,
     unify2 (f_ [x_; y_]) (f_ [y_; x_]) None fuel depth [] = (h, Ok r) /\
     h !! r = Some (PyDict [(y_, x_)])) /\
  (exists h r,
     unify2 (f_ [x_; g_ [y_; z_]]) (f_ [x_; w_]) None fuel depth [] = (h, Ok r) /\
     h !! r = Some (PyDict [(w_, g_ [y_; z_])])).
Proof.
  intros Hfuel Hdepth.
  destruct fuel as [|[|[|[|[|fuel]]]]]; try lia.
  destruct depth as [|[|depth]]; try lia.
  split; eexists _, _; split; vm_compute; reflexivity.
Qed.

Lemma unify2_examples_witness :
  exists h r,
    unify2 (f_ [x_; y_]) (f_ [y_; x_]) None 5 2 [] = (h, Ok r) /\
    h !! r = Some (PyDict [(y_, x_)]).
Proof. apply (unify2_examples 5 2); lia. Defined.

(** From the substitution [{x: y}], in which [x] does not occur in [y],
    and the equation between [y] and [(f, x)], [unify] returns
    [{x: (f, x), y: (f, x)}]. *)
Lemma unify_result_not_idempotent :
  ~ (forall (er : nat) (sro : option nat) (fuel depth : nat)
            (h h' : heap GTerm) (r : nat) (s' : dict GTerm),
       unify er sro fuel depth h = (h', Ok r) ->
       h' !! r = Some (PyDict s') ->
       forall k v, k ∈ dict_keys s' -> v ∈ dict_values s' -> fresh_in k v).
Proof.
  intros Hc.
  specialize (Hc 0 (Some 1) 2 2 [PyList [(y_, f_ [x_])]; PyDict [(x_, y_)]]
                _ _ [(x_, f_ [x_]); (y_, f_ [x_])] eq_refl eq_refl
                x_ (f_ [x_])).
  destruct Hc as [d Hd]; [left..|].
  destruct d as [|[|d]]; discriminate Hd.
Qed.

Lemma unify_idempotent_witness :
  exists s',
    [PyList []; PyDict [(y_, x_)]] !! 1 = Some (PyDict s') /\
    forall k v, k ∈ dict_keys s' -> v ∈ dict_values s' -> fresh_in k v.
Proof.
  apply (unify_idempotent general_rebuild_law 0 None 4 2
           [PyList [(f_ [x_; y_], f_ [y_; x_])]] _ 1
           [(f_ [x_; y_], f_ [y_; x_])] []).
  - reflexivity.
  - reflexivity.
  - intros Hne. by destruct Hne.
  - reflexivity.
Defined.



End Examples.

(** * Further properties of the combinator calculus *)

Section ParserMore.
Import CombinatorCalculus.


Lemma char_in_SK (char : ascii) :
  char_in char "SK" = true -> only_SK (PrimComb (String char EmptyString)).
Proof.
  cbn [char_in]. destruct (Ascii.eqb_spec char "S") as [->|_]; [done|].
  destruct (Ascii.eqb_spec char "K") as [->|_]; done.
Qed.

Lemma acc_append_only_SK (acc : option Term) (t : Term) :
  (forall a, acc = Some a -> only_SK a) -> only_SK t ->
  forall a, acc_append acc t = Some a -> only_SK a.
Proof.
  intros Hacc Ht a [= <-]. destruct acc as [a0|]; [|done].
  cbn [only_SK]. apply andb_prop_intro. split; [by apply Hacc|done].
Qed.

Lemma parse_term_loop_only_SK n src i0 i acc t j :
  (forall a, acc = Some a -> only_SK a) ->
  parse_term_loop n src i0 i acc = Ok (t, j) -> only_SK t.
Proof.
  revert i0 i acc t j. induction n as [|n IH]; intros i0 i acc t j Hacc; [done|].
  cbn [parse_term_loop].
  destruct (String.get i src) as [char|].
  - destruct (char_in char "SK") eqn:HSK.
    { apply IH. apply acc_append_only_SK; [done|]. by apply char_in_SK. }
    destruct (Ascii.eqb char "(").
    { destruct (parse_term_loop n src (i + 1) (i + 1) None) as [[t1 j1]| |] eqn:Hin;
        cbn [mbind res_bind]; [|done..].
      apply IH. apply acc_append_only_SK; [done|].
      by eapply (IH _ _ None). }
    destruct (Ascii.eqb char ")"); [|done].
    destruct acc as [a|]; [|done]. intros [= <- <-]. by apply Hacc.
  - destruct (negb (Nat.eqb i0 0)); [done|].
    destruct acc as [a|]; [|done]. intros [= <- <-]. by apply Hacc.
Qed.

(** X2: a term that [parse] returns is built from [S], [K] and
    applications only: the parser makes no variable and no primitive
    combinator of another name. *)
Theorem parse_only_SK (src : string) (t : Term) :
  parse src = Ok t -> only_SK t.
Proof.
  unfold parse, parse_term.
  destruct (parse_term_loop _ src 0 0 None) as [[t' j]| |] eqn:Hloop;
    cbn [mbind res_bind]; [|done..].
  destruct (negb (Nat.eqb j (String.length src))); [done|].
  intros [= <-].
  eapply (parse_term_loop_only_SK _ _ _ _ None); [|exact Hloop]. by intros a.
Qed.

Lemma parse_only_SK_witness : only_SK (App (App PrimComb_S PrimComb_K) PrimComb_K).
Proof. apply (parse_only_SK "(SK)(K)"). reflexivity. Defined.

(** The parser inverts the printer on the terms built from [S], [K] and
    applications. *)
Lemma parse_to_str_SK (t : Term) : only_SK t -> parse (to_str t) = Ok t.
Proof.
  intros Hsk. unfold parse, parse_term.
  change (S (String.length (to_str t))) with (1 + String.length (to_str t)).
  rewrite (parse_term_loop_to_str t Hsk (to_str t) 0 0 None 1
             (Ok (t, String.length (to_str t))));
    [| apply at_pos_refl | | done].
  - cbn [mbind res_bind]. by rewrite Nat.eqb_refl.
  - cbn [parse_term_loop feed]. rewrite Nat.add_0_l.
    by rewrite str_get_length.
Qed.

(** X3: printing what was parsed gives a source of the same term: if
    [parse src] returns [t], then [parse (to_str t)] returns [t] too,
    however [src] was bracketed. *)
Theorem parse_to_str_parse (src : string) (t : Term) :
  parse src = Ok t -> parse (to_str t) = Ok t.
Proof. intros Hp%parse_only_SK. by apply parse_to_str_SK. Qed.

Lemma parse_to_str_parse_witness :
  parse (to_str (App (App PrimComb_S PrimComb_K) PrimComb_K)) =
  Ok (App (App PrimComb_S PrimComb_K) PrimComb_K).
Proof. apply (parse_to_str_parse "(SK)(K)"). reflexivity. Defined.

(** X4: the printer is injective on the terms built from [S], [K] and
    applications: two such terms printed alike are equal. *)
Theorem to_str_inj (t1 t2 : Term) :
  only_SK t1 -> only_SK t2 -> to_str t1 = to_str t2 -> t1 = t2.
Proof.
  intros H1%parse_to_str_SK H2%parse_to_str_SK Heq.
  rewrite Heq, H2 in H1. by injection H1.
Qed.

Lemma to_str_inj_witness : SKK = App (App PrimComb_S PrimComb_K) PrimComb_K.
Proof. apply to_str_inj; [exact I|exact I|reflexivity]. Defined.

(** X5: a closing bracket at the very end of the input goes unnoticed:
    the printed form of a term built from [S], [K] and applications,
    followed by one closing bracket, is parsed as that term. *)
Theorem parse_trailing_bracket (t : Term) :
  only_SK t -> parse (to_str t +:+ ")") = Ok t.
Proof.
  intros Hsk. unfold parse, parse_term.
  set (src := to_str t +:+ ")").
  assert (String.length src = String.length (to_str t) + 1) as Hlen
    by (unfold src; by rewrite str_length_app).
  assert (at_pos src 0 (to_str t)) as Hat
    by (apply (at_pos_app_l _ _ _ ")"), at_pos_refl).
  assert (String.get (String.length (to_str t)) src = Some ")"%char) as Hclose.
  { pose proof (at_pos_app_r src 0 (to_str t) ")" (at_pos_refl _)) as Hr.
    by apply at_pos_head in Hr. }
  rewrite Hlen.
  replace (S (String.length (to_str t) + 1))
    with (2 + String.length (to_str t)) by lia.
  rewrite (parse_term_loop_to_str t Hsk src 0 0 None 2
             (Ok (t, String.length (to_str t) + 1))); [|done| |done].
  - cbn [mbind res_bind]. by rewrite Nat.eqb_refl.
  - rewrite Nat.add_0_l. by rewrite parse_term_loop_close.
Qed.

Lemma parse_trailing_bracket_witness :
  parse (to_str SKK +:+ ")") = Ok SKK.
Proof. apply parse_trailing_bracket. exact I. Defined.

End ParserMore.

Section ReductionMore.
Import CombinatorCalculus.

Lemma root_rule_size (l r t : Term) :
  root_rule l r = Some t -> t <> App l r.
Proof.
  intros Hrule Heq. unfold root_rule in Hrule.
  destruct l as [| |ll lr]; [done..|].
  destruct ll as [| |lll llr]; repeat case_bool_decide;
    try discriminate Hrule; injection Hrule as <-;
    try (injection Heq; clear Heq; intros);
    match goal with
    | Hsz : _ = _ :> Term |- _ =>
        apply (f_equal term_size) in Hsz; cbn [term_size] in Hsz; lia
    end.
Qed.

Lemma reduce1_App (l r : Term) :
  reduce1 (App l r) =
  match root_rule l r with
  | Some t => Some t
  | None =>
      match reduce1 l with
      | None =>
          match reduce1 r with
          | None => None
          | Some r' => Some (App l r')
          end
      | Some l' => Some (App l' r)
      end
  end.
Proof. reflexivity. Qed.

(** X6: [reduce1] returns its argument unchanged exactly when no rule
    applies at the root or along the left spine of the term; so a term
    in normal form, and also a term whose only redexes are in right
    children, is answered with itself. *)
Theorem reduce1_fixed_point (t : Term) :
  reduce1 t = Some t <-> no_spine_redex t.
Proof.
  induction t as [name|name|l IHl r _]; [done..|].
  rewrite reduce1_App. cbn [no_spine_redex].
  destruct (root_rule l r) as [t'|] eqn:Hrule.
  - split; [|done]. intros [= ->]. by apply root_rule_size in Hrule.
  - destruct (reduce1_is_Some l) as [l' Hl]. rewrite Hl. rewrite <- IHl.
    split; [by intros [= ->]|]. intros Hl'. congruence.
Qed.

(** X7: [reduce1] keeps within the terms built from [S], [K] and
    applications: a step from such a term leads to such a term. *)
Theorem reduce1_only_SK (t t' : Term) :
  only_SK t -> reduce1 t = Some t' -> only_SK t'.
Proof.
  revert t'. induction t as [name|name|l IHl r _]; intros t' Hsk.
  - done.
  - by intros [= <-].
  - cbn [only_SK] in Hsk. apply andb_prop_elim in Hsk as [Hl Hr].
    rewrite reduce1_App. destruct (root_rule l r) as [u|] eqn:Hrule.
    + intros [= <-]. unfold root_rule in Hrule.
      destruct l as [| |ll lr]; [done..|].
      cbn [only_SK] in Hl. apply andb_prop_elim in Hl as [Hll Hlr].
      destruct ll as [| |lll llr]; [done| |].
      * case_bool_decide; [|done]. by injection Hrule as <-.
      * cbn [only_SK] in Hll. apply andb_prop_elim in Hll as [Hlll Hllr].
        repeat case_bool_decide; simplify_eq.
        cbn [only_SK]. repeat (apply andb_prop_intro; split); done.
    + destruct (reduce1_is_Some l) as [l' Hl']. rewrite Hl'. intros [= <-].
      cbn [only_SK]. apply andb_prop_intro. split; [by apply IHl|done].
Qed.

Lemma reduce1_only_SK_witness : only_SK (App (App PrimComb_K PrimComb_K) (App PrimComb_K PrimComb_K)).
Proof. apply (reduce1_only_SK (App SKK PrimComb_K)); [exact I|reflexivity]. Defined.

End ReductionMore.

(** * Further properties of unification *)

Section UnifyMore.
Import Unify.
Context {FunSymT TermT : Type} `{Unifier FunSymT TermT} `{Hash TermT}.

Ltac failure_case :=
  match goal with Hf : alg_failure _ |- _ => by destruct Hf end.

(** **** Turns of the loop, forwards *)

Lemma unify_turn_empty depth (st : Locals TermT) :
  equations st = [] -> unify_turn depth st = (st, Ok false).
Proof.
  intros Heqs. unfold unify_turn. unfold bind at 1, get_equations.
  by rewrite Heqs.
Qed.

Lemma unify_turn_equal depth (st : Locals TermT) eqs t :
  equations st = eqs ++ [(t, t)] ->
  unify_turn depth st = (mkLocals eqs (bindings st), Ok true).
Proof.
  intros Heqs. unfold unify_turn. unfold bind at 1, get_equations.
  rewrite Heqs, pop_app. unfold bind at 1, set_equations.
  by rewrite bool_decide_true.
Qed.

Lemma unify_turn_swap depth (st : Locals TermT) eqs l r :
  equations st = eqs ++ [(l, r)] ->
  l <> r -> is_var l = false -> is_var r = true ->
  unify_turn depth st = (mkLocals (eqs ++ [(r, l)]) (bindings st), Ok true).
Proof.
  intros Heqs Hne Hl Hr. unfold unify_turn. unfold bind at 1, get_equations.
  rewrite Heqs, pop_app. unfold bind at 1, set_equations.
  by rewrite bool_decide_false, Hl, Hr.
Qed.

Lemma unify_turn_decompose depth (st : Locals TermT) eqs l r f largs rargs :
  equations st = eqs ++ [(l, r)] ->
  l <> r -> is_var l = false -> is_var r = false ->
  fun_sym l = Ok f -> fun_sym r = Ok f ->
  args l = Ok largs -> args r = Ok rargs ->
  unify_turn depth st =
    (mkLocals (eqs ++ zip largs rargs) (bindings st), Ok true).
Proof.
  intros Heqs Hne Hl Hr Hf Hg Hla Hra. unfold unify_turn.
  unfold bind at 1, get_equations.
  rewrite Heqs, pop_app. unfold bind at 1, set_equations.
  rewrite bool_decide_false, Hl, Hr by done.
  unfold bind at 1, call. rewrite Hf. unfold bind at 1. rewrite Hg.
  rewrite bool_decide_false by (by intros ?).
  unfold bind at 1. rewrite Hla. unfold bind at 1. by rewrite Hra.
Qed.

(** The turn that binds a variable when no other equation is left and
    nothing is bound yet. *)
Lemma unify_turn_bind_first depth var term :
  var <> term -> is_var var = true ->
  occurs_in depth var term = Ok false -> hashable var = true ->
  unify_turn depth (mkLocals [(var, term)] []) =
    (mkLocals [] [(var, term)], Ok true).
Proof.
  intros Hne Hv Hocc Hhash. unfold unify_turn.
  unfold bind at 1, get_equations. cbn [equations pop].
  unfold bind at 1, set_equations.
  rewrite bool_decide_false, Hv by done.
  unfold bind at 1, call at 1. rewrite Hocc.
  unfold bind at 1, call at 1, dict_display. by rewrite Hhash.
Qed.

(** A list of equations between equal terms is emptied, one equation
    per turn, and the dictionary is left as it is. *)
Lemma unify_loop_reflexive depth (eqs : list (TermT * TermT)) (s : dict TermT) k :
  (forall e, e ∈ eqs -> e.1 = e.2) ->
  unify_loop (S (length eqs + k)) depth (mkLocals eqs s) =
    (mkLocals [] s, Ok tt).
Proof.
  induction eqs as [|[l r] eqs IH] using rev_ind; intros Hrefl.
  - rewrite unify_loop_S. by rewrite unify_turn_empty.
  - rewrite length_app. cbn [length].
    replace (S (length eqs + 1 + k)) with (S (S (length eqs + k))) by lia.
    rewrite unify_loop_S.
    assert (l = r) as <-.
    { apply (Hrefl (l, r)). apply elem_of_app. right. left. }
    rewrite (unify_turn_equal _ _ eqs l) by done. cbn [bindings].
    apply IH. intros e He. apply Hrefl. apply elem_of_app. by left.
Qed.

(** X8: on equations whose two sides are equal, in particular on the
    empty list, [unify] returns as soon as the bound allows one turn per
    equation and one more: the list is emptied and the dictionary
    returned holds what it held before. *)
Theorem unify_reflexive (er : nat) (sro : option nat) (fuel depth : nat)
    (h : heap TermT) (eqs : list (TermT * TermT)) (s : dict TermT) :
  h !! er = Some (PyList eqs) -> subst_arg h sro s ->
  (forall e, e ∈ eqs -> e.1 = e.2) ->
  length eqs < fuel ->
  exists h',
    unify er sro fuel depth h = (h', Ok (subst_loc h sro)) /\
    h' !! er = Some (PyList []) /\
    h' !! subst_loc h sro = Some (PyDict s).
Proof.
  intros Her Hs Hrefl Hfuel.
  destruct (unify_spec er sro fuel depth h eqs s Her Hs) as (h' & Hu & Hl & Hd).
  replace fuel with (S (length eqs + (fuel - S (length eqs)))) in Hu, Hl, Hd by lia.
  rewrite unify_loop_reflexive in Hu, Hl, Hd by done.
  exists h'. split; [|done].
  by replace fuel with (S (length eqs + (fuel - S (length eqs)))) by lia.
Qed.

(** X10: the keys of the dictionary that [unify] returns are distinct
    variables, when those of the dictionary it started from are. *)
Theorem unify_keys (er : nat) (sro : option nat) (fuel depth : nat)
    (h h' : heap TermT) (r : nat) (eqs : list (TermT * TermT)) (s : dict TermT) :
  h !! er = Some (PyList eqs) -> subst_arg h sro s ->
  NoDup (dict_keys s) -> (forall k, k ∈ dict_keys s -> is_var k = true) ->
  unify er sro fuel depth h = (h', Ok r) ->
  exists s',
    h' !! r = Some (PyDict s') /\
    NoDup (dict_keys s') /\ (forall k, k ∈ dict_keys s' -> is_var k = true).
Proof.
  intros Her Hs Hnd Hvars Hu.
  destruct (unify_spec er sro fuel depth h eqs s Her Hs) as (h1 & Hu1 & Hl & Hd).
  rewrite Hu in Hu1.
  destruct (unify_loop fuel depth (mkLocals eqs s)) as [st' [[]|e|]] eqn:Hloop;
    cbn [fst snd mbind res_bind] in *; simplify_eq.
  apply unify_loop_Ok in Hloop as [Ht _].
  exists (bindings st'). split; [done|].
  change s with (bindings (mkLocals eqs s)) in Hnd, Hvars.
  induction Ht as [st|st st1 st2 Hturn _ IH]; [done|].
  apply IH; apply unify_turn_spec in Hturn;
    inversion Hturn; subst; cbn [bindings]; try done; try failure_case.
  - erewrite bind_keys by done. destruct (decide (var ∈ _)).
    + by rewrite app_nil_r.
    + apply NoDup_app. split; [done|]. split; [|apply NoDup_singleton].
      by intros k Hk ->%list_elem_of_singleton.
  - erewrite bind_keys by done. intros k [Hk|Hk]%elem_of_app; [by apply Hvars|].
    destruct (decide (var ∈ _)); [by apply elem_of_nil in Hk|].
    by apply list_elem_of_singleton in Hk as ->.
Qed.

(** X11: [unify2] of a variable and a term in which it does not occur
    returns, from no initial substitution, the dictionary that binds the
    variable to the term; and so it does with the two arguments the
    other way round, when the term is not a variable. *)
Theorem unify2_variable (var term : TermT) (fuel depth : nat) (h : heap TermT) :
  is_var var = true -> var <> term ->
  occurs_in depth var term = Ok false -> hashable var = true ->
  3 <= fuel ->
  unify2 var term None fuel depth h =
    (h ++ [PyList []; PyDict [(var, term)]], Ok (S (length h))) /\
  (is_var term = false ->
   unify2 term var None fuel depth h =
     (h ++ [PyList []; PyDict [(var, term)]], Ok (S (length h)))).
Proof.
  intros Hv Hne Hocc Hhash Hfuel.
  assert (forall a b,
    unify_loop fuel depth (mkLocals [(a, b)] []) =
      (mkLocals [] [(var, term)], Ok tt) ->
    unify2 a b None fuel depth h =
      (h ++ [PyList []; PyDict [(var, term)]], Ok (S (length h)))) as Hrun.
  { intros a b Hloop. unfold unify2, unify, alloc. cbv beta iota zeta.
    rewrite length_app. cbn [length].
    replace (length h + 1) with (S (length h)) by lia.
    rewrite <- app_assoc. cbn [app].
    rewrite (lookup_app_r h) by lia. rewrite Nat.sub_diag. cbn [lookup list_lookup].
    rewrite (lookup_app_r h) by lia.
    replace (S (length h) - length h) with 1 by lia. cbn [lookup list_lookup].
    rewrite Hloop. cbn [equations bindings mbind res_bind]. f_equal.
    rewrite (insert_app_r_alt h) by lia. rewrite Nat.sub_diag.
    rewrite (insert_app_r_alt h) by lia.
    replace (S (length h) - length h) with 1 by lia. done. }
  destruct fuel as [|[|[|fuel]]]; try lia.
  split.
  - apply Hrun. rewrite unify_loop_S.
    rewrite unify_turn_bind_first by done.
    rewrite unify_loop_S. by rewrite unify_turn_empty.
  - intros Ht. apply Hrun. rewrite unify_loop_S.
    rewrite (unify_turn_swap _ _ [] term var) by done. cbn [app bindings].
    rewrite unify_loop_S.
    rewrite unify_turn_bind_first by done.
    rewrite unify_loop_S. by rewrite unify_turn_empty.
Qed.

End UnifyMore.

Section SubstMore.
Import Unify.
Context {FunSymT TermT : Type} `{Unifier FunSymT TermT} `{Hash TermT}.

Lemma dict_get_notin (s : dict TermT) (k d : TermT) :
  k ∉ dict_keys s -> dict_get s k d = d.
Proof.
  unfold dict_keys. induction s as [|[k' v] s IH]; csimpl; [done|].
  intros [Hne Hnin]%not_elem_of_cons. rewrite decide_False by done. by apply IH.
Qed.

Lemma Forall2_eq_of_elem {A} (P : A -> A -> Prop) (l l' : list A) :
  Forall2 P l l' -> (forall a a', a ∈ l -> P a a' -> a' = a) -> l' = l.
Proof.
  induction 1 as [|a a' l l' HP _ IH]; intros Hall; [done|]. f_equal.
  - apply (Hall a); [left|done].
  - apply IH. intros b b' Hb. apply Hall. by right.
Qed.

(** X12: a substitution changes only the terms in which one of its
    variables occurs: when no key of [s] occurs in [term], what
    [subst s term] returns is [term] itself (in an algebra where an
    application taken apart and rebuilt is the application again). *)
Theorem subst_fresh_id (depth : nat) (s : dict TermT) (term term' : TermT) :
  rebuild_id_law ->
  (forall k, k ∈ dict_keys s -> fresh_in k term) ->
  subst depth s term = Ok term' -> term' = term.
Proof.
  intros Hlaw. revert term term'.
  induction depth as [|depth IH]; intros term term' Hfresh; [done|].
  cbn [subst]. destruct (is_var term) eqn:Hv.
  - destruct (hashable term); [|done]. intros [= <-].
    apply dict_get_notin. intros Hin. apply Hfresh in Hin.
    by apply fresh_in_var in Hin.
  - destruct (fun_sym term) as [f| |] eqn:Hf; cbn [mbind res_bind]; [|done..].
    destruct (args term) as [l| |] eqn:Hargs; cbn [mbind res_bind]; [|done..].
    destruct (map_res _ l) as [l'| |] eqn:Hmap; cbn [mbind res_bind]; [|done..].
    apply map_res_Forall2 in Hmap.
    assert (l' = l) as ->.
    { apply (Forall2_eq_of_elem _ _ _ Hmap). intros a a' Ha Hsub.
      apply (IH a); [|done]. intros k Hk.
      by apply (proj1 (fresh_in_args k term l Hv Hargs) (Hfresh k Hk)). }
    intros Happ. by eapply Hlaw.
Qed.

End SubstMore.

(** * Further properties of the two term algebras *)

Section AlgebrasMore.
Import Unify CombinatorCalculus.

(** X13: on both algebras, applying the symbol of an application to its
    arguments gives the application back: for every combinator term that
    is not a variable, and for every tuple that is not empty.  On a
    variable of the combinator algebra [fun_sym] and [args] raise
    [ValueError], and on the empty tuple [fun_sym] raises [IndexError]. *)
Theorem rebuild_identity :
  (forall t : Term,
     Unifier.is_var t = false ->
     (f ← Unifier.fun_sym t; l ← Unifier.args t; Unifier.apply f l) = Ok t) /\
  (forall name,
     Unifier.fun_sym (Var name) = Raise ValueError /\
     Unifier.args (Var name) = Raise ValueError) /\
  (forall (f : GTerm) (items : list GTerm),
     (g ← GeneralUnifier.fun_sym (Tuple (f :: items));
      l ← GeneralUnifier.args (Tuple (f :: items));
      GeneralUnifier.apply g l) = Ok (Tuple (f :: items))) /\
  GeneralUnifier.fun_sym (Tuple []) = Raise IndexError.
Proof.
  split; [|done]. by intros [name|name|l r].
Qed.

Lemma rebuild_identity_witness :
  (f ← Unifier.fun_sym SKK; l ← Unifier.args SKK; Unifier.apply f l) = Ok SKK.
Proof. apply (proj1 rebuild_identity). reflexivity. Defined.

Lemma general_rebuild_id_law : rebuild_id_law (H := GeneralUnifier).
Proof.
  intros [s|[|f items]] g l t' Hv Hf Hargs; try done.
  injection Hf as <-. injection Hargs as <-. by intros [= <-].
Qed.

Lemma combinator_rebuild_id_law : rebuild_id_law (H := CombinatorUnifier).
Proof.
  intros [name|name|a b] g l t' Hv Hf Hargs; try done;
    injection Hf as <-; injection Hargs as <-; by intros [= <-].
Qed.

(** X14: the combinator algebra satisfies the two laws that the
    interface asks of the applications of an implementation: terms with
    the same function symbol have the same number of arguments, and two
    terms are equal exactly when their symbols are equal and their
    arguments are equal pairwise. *)
Theorem combinator_consistency (t u : Term) (f g : FunSym) (l k : list Term) :
  Unifier.fun_sym t = Ok f -> Unifier.args t = Ok l ->
  Unifier.fun_sym u = Ok g -> Unifier.args u = Ok k ->
  (f = g -> length l = length k) /\
  (t = u <-> f = g /\ Forall (fun p => p.1 = p.2) (zip l k)).
Proof.
  destruct t as [?|n|a b], u as [?|m|c d]; try done;
    intros [= <-] [= <-] [= <-] [= <-]; (split; [done|]).
  - split; [by intros [= ->]|]. by intros [[= ->] _].
  - split; [done|]. by intros [? _].
  - split; [done|]. by intros [? _].
  - split.
    + intros [= -> ->]. split; [done|]. by repeat constructor.
    + intros [_ Hall]. cbn [zip zip_with] in Hall.
      inversion Hall as [|? ? Ha Hall']; subst.
      inversion Hall' as [|? ? Hb _]; subst. cbn [fst snd] in *. congruence.
Qed.

Lemma combinator_consistency_witness :
  SKK = SKK <->
  FunSym_App = FunSym_App /\
  Forall (fun p : Term * Term => p.1 = p.2)
    (zip [App PrimComb_S PrimComb_K; PrimComb_K]
         [App PrimComb_S PrimComb_K; PrimComb_K]).
Proof.
  apply (proj2 (combinator_consistency SKK SKK FunSym_App FunSym_App _ _
                  eq_refl eq_refl eq_refl eq_refl)).
Defined.

End AlgebrasMore.

(** * Unification on the tuple algebra *)

Section Tuples.
Import Unify.

Lemma GTerm_ind (P : GTerm -> Prop) :
  (forall s, P (Atom s)) ->
  (forall items, Forall P items -> P (Tuple items)) ->
  forall t, P t.
Proof.
  intros Hatom Htuple.
  refine (fix IH (t : GTerm) : P t :=
    match t with
    | Atom s => Hatom s
    | Tuple items =>
        Htuple items
          ((fix go (l : list GTerm) : Forall P l :=
              match l with
              | [] => Forall_nil_2 P
              | x :: l' => Forall_cons_2 P x l' (IH x) (go l')
              end) items)
    end).
Qed.

Lemma gdepth_item (items : list GTerm) (a : GTerm) :
  a ∈ items -> gdepth a < gdepth (Tuple items).
Proof.
  cbn [gdepth]. induction items as [|x items IH]; [by intros ?%elem_of_nil|].
  intros [->|Hin]%elem_of_cons; cbn [foldr]; [lia|].
  apply IH in Hin. lia.
Qed.

Lemma elem_of_tail {A} (a : A) (l : list A) : a ∈ tail l -> a ∈ l.
Proof. destruct l; [done|]. by right. Qed.

Lemma any_res_existsb {E} (f : GTerm -> res E bool) (g : GTerm -> bool) l :
  (forall a, a ∈ l -> f a = Ok (g a)) -> any_res f l = Ok (existsb g l).
Proof.
  induction l as [|x l IH]; intros Hfg; [done|]. cbn [any_res existsb].
  rewrite (Hfg x) by left. cbn [mbind res_bind].
  destruct (g x); [done|]. apply IH. intros a Ha. apply Hfg. by right.
Qed.

Lemma map_res_map {E} (f : GTerm -> res E GTerm) (g : GTerm -> GTerm) l :
  (forall a, a ∈ l -> f a = Ok (g a)) -> map_res f l = Ok (map g l).
Proof.
  induction l as [|x l IH]; intros Hfg; [done|]. cbn [map_res map].
  rewrite (Hfg x) by left. cbn [mbind res_bind].
  rewrite IH; [done|]. intros a Ha. apply Hfg. by right.
Qed.

(** When one of the terms of a list makes [f] raise [e], and the others
    make it return or raise [e], the whole raises [e]. *)
Lemma map_res_raise {E} (f : GTerm -> res E GTerm) (e : E) l :
  (forall a, a ∈ l -> (exists b, f a = Ok b) \/ f a = Raise e) ->
  (exists a, a ∈ l /\ f a = Raise e) ->
  map_res f l = Raise e.
Proof.
  induction l as [|x l IH]; intros Hall (a & Hin & Ha).
  { by apply elem_of_nil in Hin. }
  cbn [map_res]. destruct (Hall x) as [[b Hb]|Hx]; [left| |by rewrite Hx].
  rewrite Hb. cbn [mbind res_bind]. rewrite IH; [done| |].
  - intros c Hc. apply Hall. by right.
  - apply elem_of_cons in Hin as [->|Hin]; [congruence|]. by exists a.
Qed.

Lemma occurs_in_goccurs (d : nat) (var term : GTerm) :
  gdepth term < d -> occurs_in d var term = Ok (goccurs var term).
Proof.
  revert d. induction term as [s|items IH] using GTerm_ind; intros d Hd;
    (destruct d as [|d]; [lia|]); [done|].
  cbn [occurs_in is_var args GeneralUnifier GeneralUnifier.is_var
       GeneralUnifier.args mbind res_bind].
  assert (goccurs var (Tuple items) = existsb (goccurs var) (tail items)) as ->
    by (by destruct items).
  apply any_res_existsb. intros a Ha%elem_of_tail.
  rewrite Forall_forall in IH. apply IH; [done|].
  apply gdepth_item in Ha. lia.
Qed.

Lemma subst_gsubst (d : nat) (s : dict GTerm) (term : GTerm) :
  gdepth term < d ->
  subst d s term =
    if proper term then Ok (gsubst s term) else Raise IndexError.
Proof.
  revert d. induction term as [a|items IH] using GTerm_ind; intros d Hd;
    (destruct d as [|d]; [lia|]); [done|].
  destruct items as [|f items]; [done|].
  cbn [subst is_var args fun_sym GeneralUnifier GeneralUnifier.is_var
       GeneralUnifier.args GeneralUnifier.fun_sym mbind res_bind tail
       proper gsubst].
  rewrite Forall_forall in IH.
  assert (forall a, a ∈ items ->
    subst d s a = if proper a then Ok (gsubst s a) else Raise IndexError) as Hi.
  { intros a Ha. apply IH; [by right|].
    assert (a ∈ f :: items) as Ha' by (by right).
    apply gdepth_item in Ha'. lia. }
  destruct (forallb proper items) eqn:Hp.
  - rewrite (map_res_map _ (gsubst s)); [done|].
    intros a Ha. rewrite Hi by done.
    rewrite forallb_forall in Hp. rewrite Hp; [done|]. by apply list_elem_of_In.
  - rewrite (map_res_raise _ IndexError); [done| |].
    + intros a Ha. rewrite Hi by done. destruct (proper a); [left|right]; eauto.
    + assert (exists a, a ∈ items /\ proper a = false) as (a & Ha & Hpa).
      { clear -Hp. induction items as [|x items IHi]; [done|].
        cbn [forallb] in Hp. destruct (proper x) eqn:Hx.
        - destruct (IHi Hp) as (a & Ha & Hpa). exists a. split; [by right|done].
        - exists x. split; [left|done]. }
      exists a. split; [done|]. by rewrite Hi, Hpa.
Qed.

(** X15: on tuple terms [occurs_in] and [subst] terminate, within a
    depth of recursion of one more than the nesting depth of the term.
    [occurs_in] answers whether the variable is among the arguments of
    the term, their arguments and so on, the symbol of a tuple not being
    looked at; [subst] returns the term with its variables replaced,
    bound terms being put in as they are, unless the term has an empty
    tuple among its arguments, and then it raises [IndexError]. *)
Theorem occurs_in_subst_terminate (d : nat) (s : dict GTerm) (var term : GTerm) :
  gdepth term < d ->
  occurs_in d var term = Ok (goccurs var term) /\
  subst d s term = if proper term then Ok (gsubst s term) else Raise IndexError.
Proof.
  intros Hd. split; [by apply occurs_in_goccurs|by apply subst_gsubst].
Qed.

Lemma occurs_in_subst_terminate_witness :
  occurs_in 2 (Atom "f") (f_ [x_]) = Ok false /\
  subst 2 [(x_, g_ [y_])] (f_ [x_]) = Ok (f_ [g_ [y_]]).
Proof. apply (occurs_in_subst_terminate 2 [(x_, g_ [y_])] (Atom "f") (f_ [x_])). cbn. lia. Defined.

End Tuples.

Section Truncation.
Import Unify.
Context {FunSymT TermT : Type} `{Unifier FunSymT TermT} `{Hash TermT}.

(** [unify2] without initial substitution, on any heap: the new list
    and the new dictionary end as the loop leaves them. *)
Lemma unify2_run (a b : TermT) (fuel depth : nat) (h : heap TermT) st' r :
  unify_loop fuel depth (mkLocals [(a, b)] []) = (st', r) ->
  unify2 a b None fuel depth h =
    (h ++ [PyList (equations st'); PyDict (bindings st')],
     _ ← r; Ok (S (length h))).
Proof.
  intros Hloop. unfold unify2, unify, alloc. cbv beta iota zeta.
  rewrite length_app. cbn [length].
  replace (length h + 1) with (S (length h)) by lia.
  rewrite <- app_assoc. cbn [app].
  rewrite (lookup_app_r h) by lia. rewrite Nat.sub_diag. cbn [lookup list_lookup].
  rewrite (lookup_app_r h) by lia.
  replace (S (length h) - length h) with 1 by lia. cbn [lookup list_lookup].
  rewrite Hloop. f_equal.
  rewrite (insert_app_r_alt h) by lia. rewrite Nat.sub_diag.
  rewrite (insert_app_r_alt h) by lia.
  replace (S (length h) - length h) with 1 by lia. done.
Qed.

Lemma zip_app_reflexive {A} (l k : list A) :
  length (zip l (l ++ k)) = length l /\
  forall e, e ∈ zip l (l ++ k) -> e.1 = e.2.
Proof.
  induction l as [|x l [IHlen IHrefl]].
  - split; [done|]. intros e He. by apply elem_of_nil in He.
  - split; [cbn; by rewrite IHlen|].
    intros e [->|He]%elem_of_cons; [done|]. by apply IHrefl.
Qed.

End Truncation.

Section TuplesUnify.
Import Unify.

(** X16: [unify] pairs the arguments of two tuples with [zip], which
    stops at the end of the shorter: a tuple and the same tuple with
    more arguments at its end are unified by the empty substitution. *)
Theorem unify2_truncates (f : GTerm) (args extra : list GTerm)
    (fuel depth : nat) (h : heap GTerm) :
  extra <> [] -> length args + 2 <= fuel ->
  unify2 (Tuple (f :: args)) (Tuple (f :: args ++ extra)) None fuel depth h =
    (h ++ [PyList []; PyDict []], Ok (S (length h))).
Proof.
  intros Hextra Hfuel.
  destruct (zip_app_reflexive args extra) as [Hlen Hrefl].
  apply (unify2_run _ _ _ _ _ (mkLocals [] []) (Ok tt)).
  replace fuel with (S (S (length (zip args (args ++ extra)) + (fuel - length args - 2))))
    by (rewrite Hlen; lia).
  rewrite unify_loop_S.
  rewrite (unify_turn_decompose _ _ [] (Tuple (f :: args))
             (Tuple (f :: args ++ extra)) f args (args ++ extra)); try done.
  - cbn [app bindings]. by apply unify_loop_reflexive.
  - intros [= Heq]. apply Hextra.
    apply (app_inv_head args). by rewrite app_nil_r.
Qed.

Lemma unify2_truncates_witness :
  unify2 (f_ [x_]) (f_ [x_; y_]) None 3 1 [] = ([PyList []; PyDict []], Ok 1).
Proof. apply (unify2_truncates (Atom "f") [x_] [y_] 3 1 []); [done|cbn; lia]. Defined.

End TuplesUnify.

Section Soundness.
Import Unify.
Variable arity : GTerm -> nat.

Ltac failed_turn :=
  match goal with Hf : alg_failure _ |- _ => by destruct Hf end.

(** **** Substitution by recursion on the term *)

Lemma subst_Ok_gsubst (d : nat) (s : dict GTerm) (t t' : GTerm) :
  subst d s t = Ok t' -> t' = gsubst s t.
Proof.
  revert t t'. induction d as [|d IH]; intros t t'; [done|].
  destruct t as [a|[|f items]]; cbn [subst is_var args fun_sym GeneralUnifier
    GeneralUnifier.is_var GeneralUnifier.args GeneralUnifier.fun_sym
    mbind res_bind tail gsubst]; [by intros [= <-]|done|].
  destruct (map_res _ items) as [l'| |] eqn:Hmap; cbn [mbind res_bind]; [|done..].
  intros [= <-]. do 2 f_equal. apply map_res_Forall2 in Hmap.
  clear -Hmap IH. induction Hmap as [|a a' l l' Ha _ IHl]; [done|].
  cbn [map]. f_equal; [by apply IH|done].
Qed.

Lemma fresh_in_goccurs (k t : GTerm) : fresh_in k t <-> goccurs k t = false.
Proof.
  split.
  - intros [d Hd].
    apply (occurs_in_mono _ (d `max` S (gdepth t))) in Hd; [|lia].
    rewrite occurs_in_goccurs in Hd by lia. by injection Hd.
  - intros Hg. exists (S (gdepth t)). rewrite occurs_in_goccurs by lia.
    by rewrite Hg.
Qed.

Lemma gsubst_id (s : dict GTerm) (t : GTerm) :
  (forall k, k ∈ dict_keys s -> goccurs k t = false) -> gsubst s t = t.
Proof.
  induction t as [a|items IH] using GTerm_ind; intros Hfresh.
  - cbn [gsubst]. apply dict_get_notin. intros Hin.
    apply Hfresh in Hin. cbn [goccurs] in Hin. by rewrite bool_decide_true in Hin.
  - destruct items as [|f items]; [done|]. cbn [gsubst]. do 2 f_equal.
    apply Forall_cons in IH as [_ IH]. rewrite Forall_forall in IH.
    rewrite <- (map_id items) at 2. apply map_ext_in.
    intros a Ha%list_elem_of_In. apply IH; [done|]. intros k Hk.
    specialize (Hfresh k Hk). cbn [goccurs] in Hfresh.
    destruct (goccurs k a) eqn:Hka; [|done].
    assert (existsb (goccurs k) items = true) as Hex; [|congruence].
    apply existsb_exists. exists a. split; [by apply list_elem_of_In|done].
Qed.

Lemma gsubst_compose (s : dict GTerm) (x t u : GTerm) :
  gsubst s x = gsubst s t ->
  is_var x = true ->
  gsubst s (gsubst [(x, t)] u) = gsubst s u.
Proof.
  intros Hxt Hx. induction u as [a|items IH] using GTerm_ind.
  - cbn [gsubst dict_get] in *. destruct (decide (x = Atom a)) as [->|Hne]; [|done].
    by rewrite <- Hxt.
  - destruct items as [|f items]; [done|]. cbn [gsubst]. do 2 f_equal.
    apply Forall_cons in IH as [_ IH]. rewrite Forall_forall in IH.
    rewrite map_map. apply map_ext_in. intros a Ha%list_elem_of_In. by apply IH.
Qed.

Lemma ranked_proper (t : GTerm) : ranked arity t -> proper t.
Proof.
  induction t as [a|items IH] using GTerm_ind; [done|].
  destruct items as [|f items]; [done|]. cbn [ranked proper].
  intros [_ Hall]%andb_prop_elim. apply Is_true_true in Hall.
  apply Is_true_true. rewrite forallb_forall in *.
  apply Forall_cons in IH as [_ IH]. rewrite Forall_forall in IH.
  intros a Ha. apply Is_true_true. apply IH; [by apply list_elem_of_In|].
  apply Is_true_true. by apply Hall.
Qed.

Lemma ranked_args (f : GTerm) (items : list GTerm) :
  ranked arity (Tuple (f :: items)) ->
  length items = arity f /\ forall a, a ∈ items -> ranked arity a.
Proof.
  cbn [ranked]. intros [Hlen Hall]%andb_prop_elim.
  split; [by apply Nat.eqb_eq, Is_true_true|].
  apply Is_true_true in Hall. rewrite forallb_forall in Hall.
  intros a Ha%list_elem_of_In. apply Is_true_true. by apply Hall.
Qed.

Lemma ranked_gsubst (x t u : GTerm) :
  ranked arity t -> ranked arity u -> ranked arity (gsubst [(x, t)] u).
Proof.
  intros Ht. induction u as [a|items IH] using GTerm_ind; intros Hu.
  - cbn [gsubst dict_get]. by destruct (decide (x = Atom a)).
  - destruct items as [|f items]; [done|].
    apply ranked_args in Hu as [Hlen Hall]. cbn [gsubst ranked].
    apply Forall_cons in IH as [_ IH]. rewrite Forall_forall in IH.
    apply andb_prop_intro. split.
    + rewrite length_map. by apply Is_true_true, Nat.eqb_eq.
    + apply Is_true_true, forallb_forall.
      intros a' (a & <- & Ha)%in_map_iff. apply list_elem_of_In in Ha.
      apply Is_true_true. apply IH; [done|]. by apply Hall.
Qed.

Lemma dict_get_elem (s : dict GTerm) (k v d : GTerm) :
  NoDup (dict_keys s) -> (k, v) ∈ s -> dict_get s k d = v.
Proof.
  unfold dict_keys. induction s as [|[k' v'] s IH]; [by intros _ ?%elem_of_nil|].
  csimpl. intros [Hnin Hnd]%NoDup_cons [[= -> ->]|Hin]%elem_of_cons.
  - by rewrite decide_True.
  - rewrite decide_False; [by apply IH|]. intros ->. apply Hnin.
    apply list_elem_of_fmap. by exists (k, v).
Qed.

Lemma bind_bindings depth (x t : GTerm) (s s' : dict GTerm) :
  NoDup (dict_keys s) -> x ∉ dict_keys s ->
  Forall2 (subst_item depth x t) s s' ->
  dict_ior (dict_ior s s') [(x, t)] = s' ++ [(x, t)].
Proof.
  intros Hnd Hnin Hs'. pose proof (subst_item_keys _ _ _ _ _ Hs') as Hkeys.
  rewrite (dict_ior_same_keys s s') by done.
  unfold dict_ior. cbn [fold_left]. apply dict_set_notin. by rewrite Hkeys.
Qed.

Lemma Forall2_elem_of_l {A B} (P : A -> B -> Prop) l l' x :
  Forall2 P l l' -> x ∈ l -> exists y, y ∈ l' /\ P x y.
Proof.
  induction 1 as [|x' y l l' HP _ IH]; [by intros ?%elem_of_nil|].
  intros [->|Hin]%elem_of_cons.
  - exists y. split; [left|done].
  - destruct (IH Hin) as (y' & Hy' & HP'). exists y'. split; [by right|done].
Qed.

Lemma map_zip_eq {A B} (g : A -> B) (l k : list A) :
  length l = length k ->
  (forall p, p ∈ zip l k -> g p.1 = g p.2) -> map g l = map g k.
Proof.
  revert k. induction l as [|x l IH]; intros [|y k] Hlen Hall; try done.
  cbn [map]. f_equal.
  - apply (Hall (x, y)). left.
  - apply IH; [by injection Hlen|]. intros p Hp. apply Hall. by right.
Qed.

(** **** What the loop keeps, and what it hands back *)

Lemma ranked_state_turn depth (st st' : Locals GTerm) :
  unify_turn depth st = (st', Ok true) -> ranked_state arity st -> ranked_state arity st'.
Proof.
  intros Hturn (Hsolved & Hranked & Hvars).
  split; [by eapply (solved_turn general_rebuild_law)|].
  apply unify_turn_spec in Hturn.
  inversion Hturn as
    [ |eqs t Heq|eqs v t Heq|eqs var term eqs' s' Heq Hne Hv Hocc _ Heqs' Hs'
     |eqs l r Heq Hne Hl Hr|eqs l r f g Heq
     |eqs l r f la ra Heq Hne Hl Hr Hf Hg Hla Hra|? ? Hfail];
    subst; cbn [equations bindings]; try failed_turn.
  - split; [|done]. intros e He. apply Hranked. rewrite Heq.
    apply elem_of_app. by left.
  - destruct (Hranked (var, term)) as [_ Hterm].
    { rewrite Heq. apply elem_of_app. right. left. }
    split.
    + intros e' (e & He & Hl & Hr)%(Forall2_elem_of_r _ _ _ _ Heqs').
      apply subst_Ok_gsubst in Hl, Hr. rewrite Hl, Hr.
      destruct (Hranked e) as [? ?]; [rewrite Heq; apply elem_of_app; by left|].
      split; by apply ranked_gsubst.
    + erewrite bind_keys by done.
      intros k [Hk|Hk]%elem_of_app; [by apply Hvars|].
      destruct (decide (var ∈ _)); [by apply elem_of_nil in Hk|].
      by apply list_elem_of_singleton in Hk as ->.
  - split; [|done]. intros e [He|He]%elem_of_app.
    + apply Hranked. rewrite Heq. apply elem_of_app. by left.
    + apply list_elem_of_singleton in He as ->.
      destruct (Hranked (l, r)) as [? ?]; [|done].
      rewrite Heq. apply elem_of_app. right. left.
  - split; [|done]. intros e [He|He]%elem_of_app.
    + apply Hranked. rewrite Heq. apply elem_of_app. by left.
    + destruct (Hranked (l, r)) as [Hrl Hrr].
      { rewrite Heq. apply elem_of_app. right. left. }
      destruct l as [?|[|f' la']], r as [?|[|g' ra']]; try done.
      injection Hla as <-. injection Hra as <-.
      apply ranked_args in Hrl as [_ Hrl]. apply ranked_args in Hrr as [_ Hrr].
      destruct e as [a b]. cbn [fst snd]. split.
      * apply Hrl. by eapply elem_of_zip_l.
      * apply Hrr. by eapply elem_of_zip_r.
Qed.

(** A substitution that unifies the equations and bindings left after a
    turn unifies those before it. *)
Lemma unified_by_turn depth (s : dict GTerm) (st st' : Locals GTerm) :
  unify_turn depth st = (st', Ok true) -> ranked_state arity st ->
  unified_by s st' -> unified_by s st.
Proof.
  intros Hturn (Hsolved & Hranked & Hvars) [Qeqs Qbind].
  apply unify_turn_spec in Hturn.
  inversion Hturn as
    [ |eqs t Heq|eqs v t Heq|eqs var term eqs' s' Heq Hne Hv Hocc _ Heqs' Hs'
     |eqs l r Heq Hne Hl Hr|eqs l r f g Heq
     |eqs l r f la ra Heq Hne Hl Hr Hf Hg Hla Hra|? ? Hfail];
    subst; cbn [equations bindings] in *; try failed_turn.
  - split; [|done]. rewrite Heq. intros e [He|He]%elem_of_app; [by apply Qeqs|].
    by apply list_elem_of_singleton in He as ->.
  - destruct Hsolved as [Hnd Hinv].
    assert (var ∉ dict_keys (bindings st)) as Hnin.
    { intros Hk. destruct (Hinv var Hk) as [_ Hfr].
      destruct (Hfr (var, term)) as [Hfv _].
      { rewrite Heq. apply elem_of_app. right. left. }
      by apply fresh_in_var in Hfv. }
    rewrite (bind_bindings depth) in Qbind by done.
    assert (gsubst s var = gsubst s term) as Hxt.
    { apply (Qbind (var, term)). apply elem_of_app. right. left. }
    split.
    + rewrite Heq. intros e [He|He]%elem_of_app.
      * destruct (Forall2_elem_of_l _ _ _ _ Heqs' He) as (e' & He' & Hl & Hr).
        apply subst_Ok_gsubst in Hl, Hr. specialize (Qeqs e' He').
        rewrite Hl, Hr in Qeqs. by rewrite !gsubst_compose in Qeqs.
      * by apply list_elem_of_singleton in He as ->.
    + intros e He.
      destruct (Forall2_elem_of_l _ _ _ _ Hs' He) as (e' & He' & Hk & Hsub).
      apply subst_Ok_gsubst in Hsub.
      assert (gsubst s e'.1 = gsubst s e'.2) as Qe
        by (apply Qbind, elem_of_app; by left).
      rewrite Hk, Hsub in Qe. by rewrite gsubst_compose in Qe.
  - split; [|done]. rewrite Heq. intros e [He|He]%elem_of_app.
    + apply Qeqs. apply elem_of_app. by left.
    + apply list_elem_of_singleton in He as ->. symmetry.
      apply (Qeqs (r, l)). apply elem_of_app. right. left.
  - split; [|done]. rewrite Heq. intros e [He|He]%elem_of_app.
    + apply Qeqs. apply elem_of_app. by left.
    + apply list_elem_of_singleton in He as ->. cbn [fst snd].
      destruct (Hranked (l, r)) as [Hrl Hrr].
      { rewrite Heq. apply elem_of_app. right. left. }
      destruct l as [?|[|f' la']], r as [?|[|g' ra']]; try done.
      injection Hla as <-. injection Hra as <-.
      injection Hf as ->. injection Hg as ->.
      apply ranked_args in Hrl as [Hlenl _]. apply ranked_args in Hrr as [Hlenr _].
      cbn [gsubst]. do 2 f_equal. apply map_zip_eq; [congruence|].
      intros p Hp. apply Qeqs. apply elem_of_app. by right.
Qed.

Lemma unified_by_turns depth (s : dict GTerm) (st st' : Locals GTerm) :
  turns depth st st' -> ranked_state arity st ->
  ranked_state arity st' /\ (unified_by s st' -> unified_by s st).
Proof.
  induction 1 as [st|st st1 st' Hturn _ IH]; intros Hst; [done|].
  destruct IH as [Hst' IH]; [by eapply ranked_state_turn|].
  split; [done|]. intros Hu. eapply unified_by_turn; [done..|]. by apply IH.
Qed.

(** The dictionary left when the equations are used up unifies its own
    bindings. *)
Lemma unified_by_self (st : Locals GTerm) :
  ranked_state arity st -> equations st = [] -> unified_by (bindings st) st.
Proof.
  intros ([Hnd Hinv] & _ & Hvars) Hnil. split.
  { rewrite Hnil. by intros e ?%elem_of_nil. }
  intros [k v] Hin. cbn [fst snd].
  assert (k ∈ dict_keys (bindings st)) as Hk
    by (apply list_elem_of_fmap; by exists (k, v)).
  assert (v ∈ dict_values (bindings st)) as Hv
    by (apply list_elem_of_fmap; by exists (k, v)).
  specialize (Hvars k Hk). destruct k as [a|?]; [|done].
  cbn [gsubst]. rewrite (dict_get_elem _ _ v) by done.
  symmetry. apply gsubst_id. intros k' Hk'.
  apply fresh_in_goccurs. by apply (Hinv k' Hk').
Qed.

(** X17: [unify] returns a unifier.  On equations between tuple terms in
    which every symbol has as many arguments as its arity, and without
    initial substitution, the substitution that [unify] returns makes
    the two sides of every equation equal: [subst] with it returns the
    same term on both sides, at any depth of recursion that exceeds the
    nesting depth of the two sides. *)
Theorem unify_sound (er fuel depth : nat) (h h' : heap GTerm) (r : nat)
    (eqs : list (GTerm * GTerm)) :
  h !! er = Some (PyList eqs) ->
  (forall e, e ∈ eqs -> ranked arity e.1 /\ ranked arity e.2) ->
  unify er None fuel depth h = (h', Ok r) ->
  exists s,
    h' !! r = Some (PyDict s) /\
    forall e d, e ∈ eqs -> gdepth e.1 < d -> gdepth e.2 < d ->
      exists t, subst d s e.1 = Ok t /\ subst d s e.2 = Ok t.
Proof.
  intros Her Hranked Hu.
  destruct (unify_spec er None fuel depth h eqs [] Her eq_refl)
    as (h1 & Hu1 & Hl & Hd).
  rewrite Hu in Hu1.
  destruct (unify_loop fuel depth (mkLocals eqs [])) as [st' [[]|e|]] eqn:Hloop;
    cbn [fst snd mbind res_bind] in *; simplify_eq.
  apply unify_loop_Ok in Hloop as [Ht Hnil].
  exists (bindings st'). split; [done|].
  assert (ranked_state arity (mkLocals eqs [])) as Hinit.
  { split; [apply solved_nil|]. split; [done|]. by intros k ?%elem_of_nil. }
  destruct (unified_by_turns depth (bindings st') _ _ Ht Hinit) as [Hst' Hback].
  destruct (Hback (unified_by_self st' Hst' Hnil)) as [Hunif _].
  intros e d He Hd1 Hd2. destruct (Hranked e He) as [Hr1 Hr2].
  exists (gsubst (bindings st') e.1).
  rewrite !subst_gsubst by done.
  apply ranked_proper, Is_true_true in Hr1, Hr2. rewrite Hr1, Hr2.
  split; [done|]. f_equal. symmetry. by apply Hunif.
Qed.

End Soundness.

(** * Unification on combinator terms *)

Section CombinatorUnify.
Import Unify CombinatorCalculus.

Ltac failed_turn :=
  match goal with Hf : alg_failure _ |- _ => by destruct Hf end.

(** A turn that goes on leaves the dictionary as it is, and equations
    that hold once their sides are read as they stand come from
    equations that hold. *)
Lemma combinator_turn depth (st st' : Locals Term) :
  unify_turn depth st = (st', Ok true) ->
  bindings st' = bindings st /\
  ((forall e, e ∈ equations st' -> e.1 = e.2) ->
   forall e, e ∈ equations st -> e.1 = e.2).
Proof.
  intros Hturn%unify_turn_spec.
  inversion Hturn as
    [ |eqs t Heq|eqs v t Heq|eqs var term eqs' s' Heq Hne Hv Hocc Hhash
     |eqs l r Heq Hne Hl Hr|eqs l r f g Heq
     |eqs l r f la ra Heq Hne Hl Hr Hf Hg Hla Hra|? ? Hfail];
    subst; cbn [equations bindings]; try failed_turn; try done.
  - split; [done|]. rewrite Heq. intros Hall e [He|He]%elem_of_app; [by apply Hall|].
    by apply list_elem_of_singleton in He as ->.
  - split; [done|]. rewrite Heq. intros Hall e [He|He]%elem_of_app.
    + apply Hall. apply elem_of_app. by left.
    + apply list_elem_of_singleton in He as ->. symmetry.
      apply (Hall (r, l)). apply elem_of_app. right. left.
  - split; [done|]. rewrite Heq. intros Hall e [He|He]%elem_of_app.
    + apply Hall. apply elem_of_app. by left.
    + apply list_elem_of_singleton in He as ->. cbn [fst snd].
      apply (combinator_consistency l r f f la ra Hf Hla Hg Hra).
      split; [done|]. apply Forall_forall. intros p Hp. apply Hall.
      apply elem_of_app. by right.
Qed.

(** X19: the instances of [Var] have no hash, so that no dictionary can
    take one as a key: on combinator terms [unify] binds no variable.
    When it returns, the dictionary is as it was, and the two sides of
    every equation were equal from the start. *)
Theorem combinator_unify_binds_nothing (er : nat) (sro : option nat)
    (fuel depth : nat) (h h' : heap Term) (r : nat)
    (eqs : list (Term * Term)) (s : dict Term) :
  h !! er = Some (PyList eqs) -> subst_arg h sro s ->
  unify er sro fuel depth h = (h', Ok r) ->
  h' !! r = Some (PyDict s) /\ forall e, e ∈ eqs -> e.1 = e.2.
Proof.
  intros Her Hs Hu.
  destruct (unify_spec er sro fuel depth h eqs s Her Hs) as (h1 & Hu1 & Hl & Hd).
  rewrite Hu in Hu1.
  destruct (unify_loop fuel depth (mkLocals eqs s)) as [st' [[]|e|]] eqn:Hloop;
    cbn [fst snd mbind res_bind] in *; simplify_eq.
  apply unify_loop_Ok in Hloop as [Ht Hnil].
  assert (bindings st' = s /\
          ((forall e, e ∈ equations st' -> e.1 = e.2) ->
           forall e, e ∈ eqs -> e.1 = e.2)) as [Hb Heqs].
  { change s with (bindings (mkLocals eqs s)).
    change eqs with (equations (mkLocals eqs s)) at 2.
    clear -Ht. induction Ht as [st|st st1 st2 Hturn _ [IHb IHe]]; [done|].
    apply combinator_turn in Hturn as [Hb He]. split; [congruence|auto]. }
  split; [by rewrite Hd, Hb|].
  apply Heqs. rewrite Hnil. by intros e ?%elem_of_nil.
Qed.

Lemma combinator_unify_binds_nothing_witness :
  [PyList []; PyDict []] !! 1 = Some (PyDict (TermT := Term) []) /\
  forall e, e ∈ [(SKK, SKK)] -> e.1 = e.2.
Proof.
  apply (combinator_unify_binds_nothing 0 None 4 1 [PyList [(SKK, SKK)]] _ 1
           [(SKK, SKK)] []); reflexivity.
Defined.

(** X20: and when a turn is to bind a variable of a combinator term,
    [unify2] raises [TypeError]: so on a variable and any other term in
    which it does not occur. *)
Theorem combinator_unify2_variable (name : string) (t : Term)
    (fuel depth : nat) (h : heap Term) :
  Var name <> t -> occurs_in depth (Var name) t = Ok false ->
  unify2 (Var name) t None (S fuel) depth h =
    (h ++ [PyList []; PyDict []], Raise (AlgebraError TypeError)).
Proof.
  intros Hne Hocc.
  apply (unify2_run _ _ _ _ _ (mkLocals [] []) (Raise (AlgebraError TypeError))).
  rewrite unify_loop_S. unfold unify_turn.
  unfold bind at 1, get_equations. cbn [equations pop].
  unfold bind at 1, set_equations. rewrite bool_decide_false by done.
  cbn [is_var CombinatorUnifier Unifier.is_var].
  unfold bind at 1, call at 1. by rewrite Hocc.
Qed.

Lemma combinator_unify2_variable_witness :
  unify2 (Var "x") SKK None 1 3 [] =
    ([PyList []; PyDict []], Raise (AlgebraError TypeError)).
Proof. apply combinator_unify2_variable; [done|reflexivity]. Defined.

End CombinatorUnify.

Section ParserAlphabet.
Import CombinatorCalculus.

Lemma char_in_SK_alphabet (c : ascii) :
  char_in c "SK" = true -> char_in c "SK()" = true.
Proof.
  cbn [char_in]. destruct (Ascii.eqb c "S"); [done|].
  by destruct (Ascii.eqb c "K").
Qed.

(** The characters between the index at which the loop starts and the
    index it returns are all among [S K ( )]. *)
Lemma parse_term_loop_alphabet n src i0 i acc t j :
  parse_term_loop n src i0 i acc = Ok (t, j) ->
  forall k, i <= k < j ->
    exists c, String.get k src = Some c /\ char_in c "SK()" = true.
Proof.
  revert i0 i acc t j. induction n as [|n IH]; intros i0 i acc t j; [done|].
  cbn [parse_term_loop].
  destruct (String.get i src) as [char|] eqn:Hget.
  - destruct (char_in char "SK") eqn:HSK.
    { intros Hloop k Hk. destruct (decide (k = i)) as [->|Hne].
      - exists char. split; [done|]. by apply char_in_SK_alphabet.
      - apply (IH _ _ _ _ _ Hloop). lia. }
    destruct (Ascii.eqb_spec char "(") as [->|Hopen].
    { destruct (parse_term_loop n src (i + 1) (i + 1) None) as [[t1 j1]| |] eqn:Hin;
        cbn [mbind res_bind]; [|done..].
      intros Hloop k Hk. destruct (decide (k = i)) as [->|Hne].
      - by exists "("%char.
      - destruct (decide (k < j1)) as [Hlt|Hge].
        + apply (IH _ _ _ _ _ Hin). lia.
        + apply (IH _ _ _ _ _ Hloop). lia. }
    destruct (Ascii.eqb_spec char ")") as [->|Hclose]; [|done].
    destruct acc as [a|]; [|done]. intros [= <- <-] k Hk.
    replace k with i by lia. by exists ")"%char.
  - destruct (negb (Nat.eqb i0 0)); [done|].
    destruct acc as [a|]; [|done]. intros [= <- <-] k Hk. lia.
Qed.

(** X18: [parse] returns a term only for a source written with the four
    characters [S], [K], [(] and [)]. *)
Theorem parse_alphabet (src : string) (t : Term) (k : nat) (c : ascii) :
  parse src = Ok t -> String.get k src = Some c -> char_in c "SK()" = true.
Proof.
  unfold parse, parse_term.
  destruct (parse_term_loop _ src 0 0 None) as [[t' j]| |] eqn:Hloop;
    cbn [mbind res_bind]; [|done..].
  destruct (Nat.eqb_spec j (String.length src)) as [->|]; [|done].
  intros _ Hget. pose proof (str_get_lt _ _ _ Hget) as Hlt.
  destruct (parse_term_loop_alphabet _ _ _ _ _ _ _ Hloop k) as (c' & Hc' & Hin);
    [lia|]. congruence.
Qed.

Lemma parse_alphabet_witness : char_in "("%char "SK()" = true.
Proof. apply (parse_alphabet "S(KK)" (App PrimComb_S (App PrimComb_K PrimComb_K)) 1); reflexivity. Defined.

End ParserAlphabet.

(** * Instances of the statements above *)

Section MoreExamples.
Import Unify.

Lemma unify_reflexive_witness :
  exists h',
    unify 0 (Some 1) 3 0 [PyList [(x_, x_); (f_ [y_], f_ [y_])]; PyDict [(z_, w_)]] =
      (h', Ok 1) /\
    h' !! 0 = Some (PyList []) /\ h' !! 1 = Some (PyDict [(z_, w_)]).
Proof.
  apply (unify_reflexive 0 (Some 1) 3 0
           [PyList [(x_, x_); (f_ [y_], f_ [y_])]; PyDict [(z_, w_)]]
           [(x_, x_); (f_ [y_], f_ [y_])] [(z_, w_)]).
  - reflexivity.
  - reflexivity.
  - intros e He. repeat (apply elem_of_cons in He as [->|He]; [done|]).
    by apply elem_of_nil in He.
  - cbn. lia.
Defined.

Lemma unify_keys_witness :
  exists s',
    [PyList []; PyDict [(y_, x_)]] !! 1 = Some (PyDict s') /\
    NoDup (dict_keys s') /\ (forall k, k ∈ dict_keys s' -> is_var k = true).
Proof.
  apply (unify_keys 0 None 4 2 [PyList [(f_ [x_; y_], f_ [y_; x_])]] _ 1
           [(f_ [x_; y_], f_ [y_; x_])] []).
  - reflexivity.
  - reflexivity.
  - constructor.
  - by intros k ?%elem_of_nil.
  - reflexivity.
Defined.

Lemma unify2_variable_witness :
  unify2 x_ (f_ [y_]) None 3 2 [] = ([PyList []; PyDict [(x_, f_ [y_])]], Ok 1) /\
  (is_var (f_ [y_]) = false ->
   unify2 (f_ [y_]) x_ None 3 2 [] = ([PyList []; PyDict [(x_, f_ [y_])]], Ok 1)).
Proof.
  apply (unify2_variable x_ (f_ [y_]) 3 2 []).
  - reflexivity.
  - discriminate.
  - reflexivity.
  - reflexivity.
  - lia.
Defined.

Lemma subst_fresh_id_witness : f_ [y_] = f_ [y_].
Proof.
  apply (subst_fresh_id 2 [(x_, z_)] (f_ [y_]) (f_ [y_]) general_rebuild_id_law).
  - intros k ->%list_elem_of_singleton. by exists 2.
  - reflexivity.
Defined.

Lemma unify_sound_witness :
  exists s,
    [PyList []; PyDict [(y_, x_)]] !! 1 = Some (PyDict s) /\
    forall e d, e ∈ [(f_ [x_; y_], f_ [y_; x_])] ->
      gdepth e.1 < d -> gdepth e.2 < d ->
      exists t, subst d s e.1 = Ok t /\ subst d s e.2 = Ok t.
Proof.
  apply (unify_sound (fun _ => 2) 0 4 2 [PyList [(f_ [x_; y_], f_ [y_; x_])]] _ 1
           [(f_ [x_; y_], f_ [y_; x_])]).
  - reflexivity.
  - intros e ->%list_elem_of_singleton. by split.
  - reflexivity.
Defined.

End MoreExamples.

Section MostGeneral.
Import Unify.

Ltac failed_turn :=
  match goal with Hf : alg_failure _ |- _ => by destruct Hf end.

Lemma zip_map_eq {A B} (g : A -> B) (l k : list A) :
  map g l = map g k -> forall p, p ∈ zip l k -> g p.1 = g p.2.
Proof.
  revert k. induction l as [|x l IH]; intros [|y k] Heq p Hp;
    try (by apply elem_of_nil in Hp).
  injection Heq as Hxy Heq. apply elem_of_cons in Hp as [->|Hp]; [done|].
  by apply (IH k).
Qed.

Lemma dict_get_cases (s : dict GTerm) (k d : GTerm) :
  dict_get s k d = d \/ (k, dict_get s k d) ∈ s.
Proof.
  induction s as [|[k' v] s IH]; [by left|]. cbn [dict_get].
  destruct (decide (k' = k)) as [->|Hne]; [right; left|].
  destruct IH as [IH|IH]; [by left|right; by right].
Qed.

(** A substitution that makes equal the two sides of every binding of
    [s] gives the same whether or not [s] is applied first. *)
Lemma gsubst_factor (theta s : dict GTerm) (u : GTerm) :
  (forall e, e ∈ s -> gsubst theta e.1 = gsubst theta e.2) ->
  gsubst theta (gsubst s u) = gsubst theta u.
Proof.
  intros Hs. induction u as [a|items IH] using GTerm_ind.
  - change (gsubst s (Atom a)) with (dict_get s (Atom a) (Atom a)).
    destruct (dict_get_cases s (Atom a) (Atom a)) as [->|Hin]; [done|].
    symmetry. apply (Hs _ Hin).
  - destruct items as [|f items]; [done|]. cbn [gsubst]. do 2 f_equal.
    apply Forall_cons in IH as [_ IH]. rewrite Forall_forall in IH.
    rewrite map_map. apply map_ext_in. intros a Ha%list_elem_of_In. by apply IH.
Qed.

(** Where [subst] returns with one dictionary, it returns with any
    other, at the same depth. *)
Lemma subst_any_dict (d : nat) (s theta : dict GTerm) (u u' : GTerm) :
  subst d s u = Ok u' -> subst d theta u = Ok (gsubst theta u).
Proof.
  revert u u'. induction d as [|d IH]; intros u u'; [done|].
  destruct u as [a|[|f items]]; cbn [subst is_var args fun_sym GeneralUnifier
    GeneralUnifier.is_var GeneralUnifier.args GeneralUnifier.fun_sym
    mbind res_bind tail gsubst]; [done..|].
  destruct (map_res (subst d s) items) as [l'| |] eqn:Hmap;
    cbn [mbind res_bind]; [|done..].
  intros _. apply map_res_Forall2 in Hmap.
  rewrite (map_res_map _ (gsubst theta)); [done|].
  intros a Ha. destruct (Forall2_elem_of_l _ _ _ _ Hmap Ha) as (a' & _ & Ha').
  by eapply IH.
Qed.

(** A unifier of the equations and bindings of a state is one of those
    that a turn leaves. *)
Lemma unified_by_turn_forward depth (theta : dict GTerm) (st st' : Locals GTerm) :
  unify_turn depth st = (st', Ok true) ->
  solved (equations st) (bindings st) ->
  unified_by theta st -> unified_by theta st'.
Proof.
  intros Hturn [Hnd Hinv] [Qeqs Qbind].
  apply unify_turn_spec in Hturn.
  inversion Hturn as
    [ |eqs t Heq|eqs v t Heq|eqs var term eqs' s' Heq Hne Hv Hocc _ Heqs' Hs'
     |eqs l r Heq Hne Hl Hr|eqs l r f g Heq
     |eqs l r f la ra Heq Hne Hl Hr Hf Hg Hla Hra|? ? Hfail];
    subst; cbn [equations bindings] in *; try failed_turn.
  - split; [|done]. intros e He. apply Qeqs. rewrite Heq.
    apply elem_of_app. by left.
  - assert (var ∉ dict_keys (bindings st)) as Hnin.
    { intros Hk. destruct (Hinv var Hk) as [_ Hfr].
      destruct (Hfr (var, term)) as [Hfv _].
      { rewrite Heq. apply elem_of_app. right. left. }
      by apply fresh_in_var in Hfv. }
    rewrite (bind_bindings depth) by done.
    assert (gsubst theta var = gsubst theta term) as Hxt.
    { apply (Qeqs (var, term)). rewrite Heq. apply elem_of_app. right. left. }
    split.
    + intros e' (e & He & Hl & Hr)%(Forall2_elem_of_r _ _ _ _ Heqs').
      apply subst_Ok_gsubst in Hl, Hr. rewrite Hl, Hr.
      rewrite !gsubst_compose by done. apply Qeqs. rewrite Heq.
      apply elem_of_app. by left.
    + intros e' [He'|He']%elem_of_app.
      * destruct (Forall2_elem_of_r _ _ _ _ Hs' He') as (e & He & Hk & Hsub).
        apply subst_Ok_gsubst in Hsub. rewrite Hk, Hsub.
        rewrite gsubst_compose by done. by apply Qbind.
      * by apply list_elem_of_singleton in He' as ->.
  - split; [|done]. intros e [He|He]%elem_of_app.
    + apply Qeqs. rewrite Heq. apply elem_of_app. by left.
    + apply list_elem_of_singleton in He as ->. symmetry.
      apply (Qeqs (l, r)). rewrite Heq. apply elem_of_app. right. left.
  - split; [|done]. intros e [He|He]%elem_of_app.
    + apply Qeqs. rewrite Heq. apply elem_of_app. by left.
    + assert (gsubst theta l = gsubst theta r) as Hlr.
      { apply (Qeqs (l, r)). rewrite Heq. apply elem_of_app. right. left. }
      destruct l as [?|[|f' la']], r as [?|[|g' ra']]; try done.
      injection Hla as <-. injection Hra as <-.
      cbn [gsubst] in Hlr. injection Hlr as _ Hlr.
      by apply (zip_map_eq _ _ _ Hlr).
Qed.

(** X21: the substitution that [unify] returns is most general: every
    substitution [theta] that makes the two sides of every equation
    equal factors through it.  Applying [theta] to a term gives what
    applying it to the image of the term under the result gives. *)
Theorem unify_most_general (er fuel depth : nat) (h h' : heap GTerm) (r : nat)
    (eqs : list (GTerm * GTerm)) :
  h !! er = Some (PyList eqs) ->
  unify er None fuel depth h = (h', Ok r) ->
  exists s,
    h' !! r = Some (PyDict s) /\
    forall theta : dict GTerm,
      (forall e, e ∈ eqs ->
         exists d t, subst d theta e.1 = Ok t /\ subst d theta e.2 = Ok t) ->
      forall u d u' t,
        subst d s u = Ok u' -> subst d theta u' = Ok t ->
        subst d theta u = Ok t.
Proof.
  intros Her Hu.
  destruct (unify_spec er None fuel depth h eqs [] Her eq_refl)
    as (h1 & Hu1 & Hl & Hd).
  rewrite Hu in Hu1.
  destruct (unify_loop fuel depth (mkLocals eqs [])) as [st' [[]|e|]] eqn:Hloop;
    cbn [fst snd mbind res_bind] in *; simplify_eq.
  apply unify_loop_Ok in Hloop as [Ht _].
  exists (bindings st'). split; [done|].
  intros theta Htheta.
  assert (unified_by theta (mkLocals eqs [])) as Hinit.
  { split; [|by intros e ?%elem_of_nil].
    intros e He. destruct (Htheta e He) as (d & t & H1 & H2).
    apply subst_Ok_gsubst in H1, H2. congruence. }
  assert (unified_by theta st') as [_ Hfinal].
  { pose proof (solved_nil (TermT := GTerm) eqs) as Hsolved.
    change eqs with (equations (mkLocals eqs [])) in Hsolved.
    change (@nil (GTerm * GTerm)) with (bindings (mkLocals eqs [])) in Hsolved at 2.
    clear -Ht Hinit Hsolved.
    induction Ht as [st|st st1 st2 Hturn _ IH]; [done|].
    apply IH.
    - by eapply unified_by_turn_forward.
    - by eapply (solved_turn general_rebuild_law). }
  intros u d u' t Hsu Htu'.
  pose proof (subst_Ok_gsubst _ _ _ _ Hsu) as ->.
  pose proof (subst_Ok_gsubst _ _ _ _ Htu') as ->.
  rewrite (subst_any_dict _ _ theta _ _ Hsu). f_equal. symmetry.
  by apply gsubst_factor.
Qed.

Lemma unify_most_general_witness :
  exists s,
    [PyList []; PyDict [(y_, x_)]] !! 1 = Some (PyDict s) /\
    forall theta : dict GTerm,
      (forall e, e ∈ [(f_ [x_; y_], f_ [y_; x_])] ->
         exists d t, subst d theta e.1 = Ok t /\ subst d theta e.2 = Ok t) ->
      forall u d u' t,
        subst d s u = Ok u' -> subst d theta u' = Ok t ->
        subst d theta u = Ok t.
Proof.
  apply (unify_most_general 0 4 2 [PyList [(f_ [x_; y_], f_ [y_; x_])]] _ 1
           [(f_ [x_; y_], f_ [y_; x_])]); reflexivity.
Defined.

End MostGeneral.

Section Failure.
Import Unify.

Ltac failed_turn :=
  match goal with Hf : alg_failure _ |- _ => by destruct Hf end.

Lemma occurs_in_Ok_goccurs (d : nat) (x t : GTerm) (b : bool) :
  occurs_in d x t = Ok b -> b = goccurs x t.
Proof.
  intros Hd.
  apply (occurs_in_mono _ (d `max` S (gdepth t))) in Hd; [|lia].
  rewrite occurs_in_goccurs in Hd by lia. by injection Hd.
Qed.

Lemma gsize_item (g : GTerm -> GTerm) (items : list GTerm) (a : GTerm) :
  a ∈ items -> gsize (g a) <= foldr (fun x n => gsize x + n) 0 (map g items).
Proof.
  induction items as [|x items IH]; [by intros ?%elem_of_nil|].
  intros [->|Hin]%elem_of_cons; cbn [map foldr]; [lia|].
  apply IH in Hin. lia.
Qed.

(** The image of a term is at least as large as that of a variable that
    occurs in it, and larger when the term is a tuple. *)
Lemma goccurs_size (theta : dict GTerm) (x u : GTerm) :
  goccurs x u = true ->
  gsize (gsubst theta x) <= gsize (gsubst theta u) /\
  (is_var u = false -> gsize (gsubst theta x) < gsize (gsubst theta u)).
Proof.
  induction u as [a|items IH] using GTerm_ind.
  - cbn [goccurs]. intros ->%bool_decide_eq_true. split; [lia|done].
  - destruct items as [|f items]; [done|]. cbn [goccurs].
    intros (a & Ha%list_elem_of_In & Hocc)%existsb_exists.
    apply Forall_cons in IH as [_ IH]. rewrite Forall_forall in IH.
    destruct (IH a Ha Hocc) as [Hle _].
    pose proof (gsize_item (gsubst theta) items a Ha) as Hsum.
    cbn [gsubst gsize foldr]. split; [lia|]. intros _. lia.
Qed.

(** X22: [unify] raises a [UnificationError] only on equations that no
    substitution unifies: after an occurs-check or symbol-mismatch
    error, there is no dictionary with which [subst] returns the same
    term on the two sides of every equation. *)
Theorem unify_error_no_unifier (er fuel depth : nat) (h h' : heap GTerm)
    (e : Exn GTerm GTerm) (eqs : list (GTerm * GTerm)) (theta : dict GTerm) :
  h !! er = Some (PyList eqs) ->
  unify er None fuel depth h = (h', Raise e) ->
  (forall e', e <> AlgebraError e') ->
  ~ (forall eq, eq ∈ eqs ->
       exists d t, subst d theta eq.1 = Ok t /\ subst d theta eq.2 = Ok t).
Proof.
  intros Her Hu He Htheta.
  apply (unify_Raise _ _ _ _ _ _ eqs []) in Hu as (st' & Hloop & _); [|done..].
  assert (exists fuel, unify_loop fuel depth (mkLocals eqs []) = (st', Raise e))
    as Hex by eauto.
  apply unify_loop_Raise in Hex as (st1 & Ht & Hturn).
  assert (unified_by theta (mkLocals eqs [])) as Hinit.
  { split; [|by intros eq ?%elem_of_nil].
    intros eq Heq. destruct (Htheta eq Heq) as (d & t & H1 & H2).
    apply subst_Ok_gsubst in H1, H2. congruence. }
  assert (unified_by theta st1) as [Hfinal _].
  { pose proof (solved_nil (TermT := GTerm) eqs) as Hsolved.
    change eqs with (equations (mkLocals eqs [])) in Hsolved.
    change (@nil (GTerm * GTerm)) with (bindings (mkLocals eqs [])) in Hsolved at 2.
    clear -Ht Hinit Hsolved.
    induction Ht as [st|st st1 st2 Hturn _ IH]; [done|].
    apply IH.
    - by eapply unified_by_turn_forward.
    - by eapply (solved_turn general_rebuild_law). }
  apply unify_turn_spec in Hturn.
  inversion Hturn as
    [ |eqs' t Heq|eqs' var term Heq Hne Hv Hocc|eqs' v t ? ? Heq
     |eqs' l r Heq|eqs' l r f g Heq Hne Hl Hr Hf Hg Hfg
     |eqs' l r f la ra Heq|? ? Hfail]; subst.
  - (* the occurs check *)
    assert (gsubst theta var = gsubst theta term) as Hxt.
    { apply (Hfinal (var, term)). rewrite Heq. apply elem_of_app. right. left. }
    apply occurs_in_Ok_goccurs in Hocc. symmetry in Hocc.
    destruct (goccurs_size theta var term Hocc) as [_ Hlt].
    destruct term as [a|items].
    + cbn [goccurs] in Hocc. by apply bool_decide_eq_true in Hocc.
    + specialize (Hlt eq_refl). rewrite Hxt in Hlt. lia.
  - (* the symbols differ *)
    assert (gsubst theta l = gsubst theta r) as Hlr.
    { apply (Hfinal (l, r)). rewrite Heq. apply elem_of_app. right. left. }
    destruct l as [?|[|f' la]], r as [?|[|g' ra]]; try done.
    injection Hf as ->. injection Hg as ->.
    cbn [gsubst] in Hlr. by injection Hlr.
  - destruct e; [done..|]. by destruct (He e).
Qed.

Lemma unify_error_no_unifier_witness :
  ~ (forall eq, eq ∈ [(x_, f_ [x_])] ->
       exists d t, subst d [(x_, y_)] eq.1 = Ok t /\
                   subst d [(x_, y_)] eq.2 = Ok t).
Proof.
  apply (unify_error_no_unifier 0 1 2 [PyList [(x_, f_ [x_])]]
           [PyList []; PyDict []]
           (OccursCheck x_ (f_ [x_])) [(x_, f_ [x_])] [(x_, y_)]).
  - reflexivity.
  - reflexivity.
  - intros e' He'. discriminate He'.
Defined.

End Failure.

(** * Termination of unification on the tuple algebra *)

Section Termination.
Import Unify.

Ltac failed_turn :=
  match goal with Hf : alg_failure _ |- _ => by destruct Hf end.

(** **** Depth: a turn does not depend on the bound, once it is large *)

Lemma eqs_depth_elem (eqs : list (GTerm * GTerm)) e :
  e ∈ eqs -> gdepth e.1 <= eqs_depth eqs /\ gdepth e.2 <= eqs_depth eqs.
Proof.
  unfold eqs_depth. induction eqs as [|x eqs IH]; [by intros ?%elem_of_nil|].
  intros [->|Hin]%elem_of_cons; cbn [foldr]; [lia|].
  apply IH in Hin. lia.
Qed.

Lemma values_depth_elem (s : dict GTerm) e :
  e ∈ s -> gdepth e.2 <= values_depth s.
Proof.
  unfold values_depth. induction s as [|x s IH]; [by intros ?%elem_of_nil|].
  intros [->|Hin]%elem_of_cons; cbn [foldr]; [lia|].
  apply IH in Hin. lia.
Qed.

Lemma subst_depth (d d' : nat) (s : dict GTerm) (t : GTerm) :
  gdepth t < d -> gdepth t < d' -> subst d s t = subst d' s t.
Proof.
  intros Hd Hd'. rewrite (subst_gsubst d) by assumption.
  by rewrite (subst_gsubst d') by assumption.
Qed.

Lemma subst_equations_depth d d' ns i (todo : list (GTerm * GTerm)) st :
  (forall e, e ∈ todo -> gdepth e.1 < d /\ gdepth e.2 < d /\
                         gdepth e.1 < d' /\ gdepth e.2 < d') ->
  subst_equations d ns i todo st = subst_equations d' ns i todo st.
Proof.
  revert i st. induction todo as [|[l r] todo IH]; intros i st Hd; first done.
  destruct (Hd (l, r)) as (? & ? & ? & ?); [left|]. cbn [fst snd] in *.
  cbn [subst_equations]. unfold bind at 1 5.
  rewrite (subst_depth d d' ns l) by done.
  destruct (call (subst d' ns l) st) as [st1 [l'| |]]; [|done..].
  unfold bind at 1 4. rewrite (subst_depth d d' ns r) by done.
  destruct (call (subst d' ns r) st1) as [st2 [r'| |]]; [|done..].
  unfold bind, get_equations, set_equations. apply IH.
  intros e He. apply Hd. by right.
Qed.

Lemma subst_bindings_depth d d' ns (todo : list (GTerm * GTerm)) st :
  (forall e, e ∈ todo -> gdepth e.2 < d /\ gdepth e.2 < d') ->
  subst_bindings d ns todo st = subst_bindings d' ns todo st.
Proof.
  revert st. induction todo as [|[k v] todo IH]; intros st Hd; first done.
  destruct (Hd (k, v)) as (? & ?); [left|]. cbn [fst snd] in *.
  cbn [subst_bindings]. unfold bind at 1 4.
  rewrite (subst_depth d d' ns v) by done.
  destruct (call (subst d' ns v) st) as [st1 [v'| |]]; [|done..].
  unfold bind, get_bindings, set_bindings. apply IH.
  intros e He. apply Hd. by right.
Qed.

Lemma subst_equations_fuel d ns i (todo : list (GTerm * GTerm)) st :
  (forall e, e ∈ todo -> gdepth e.1 < d /\ gdepth e.2 < d) ->
  (subst_equations d ns i todo st).2 <> OutOfFuel.
Proof.
  revert i st. induction todo as [|[l r] todo IH]; intros i st Hd; first done.
  destruct (Hd (l, r)) as (? & ?); [left|]. cbn [fst snd] in *.
  cbn [subst_equations]. unfold bind at 1, call at 1.
  rewrite subst_gsubst by done. destruct (proper l); [|done].
  unfold bind at 1, call at 1.
  rewrite subst_gsubst by done. destruct (proper r); [|done].
  unfold bind, get_equations, set_equations. apply IH.
  intros e He. apply Hd. by right.
Qed.

Lemma subst_bindings_fuel d ns (todo : list (GTerm * GTerm)) st :
  (forall e, e ∈ todo -> gdepth e.2 < d) ->
  (subst_bindings d ns todo st).2 <> OutOfFuel.
Proof.
  revert st. induction todo as [|[k v] todo IH]; intros st Hd; first done.
  pose proof (Hd (k, v) ltac:(left)) as Hv. cbn [fst snd] in *.
  cbn [subst_bindings]. unfold bind at 1, call at 1.
  rewrite subst_gsubst by done. destruct (proper v); [|done].
  unfold bind, get_bindings, set_bindings. apply IH.
  intros e He. apply Hd. by right.
Qed.

Lemma subst_equations_bindings d ns i (todo : list (GTerm * GTerm)) st :
  bindings (subst_equations d ns i todo st).1 = bindings st.
Proof.
  revert i st. induction todo as [|[l r] todo IH]; intros i st; first done.
  cbn [subst_equations]. unfold bind at 1, call at 1.
  destruct (subst d ns l) as [l'| |]; [|done..].
  unfold bind at 1, call at 1.
  destruct (subst d ns r) as [r'| |]; [|done..].
  unfold bind, get_equations, set_equations. by rewrite IH.
Qed.

Lemma bind_ext {FunSymT TermT A B} (m : M (FunSymT:=FunSymT) (TermT:=TermT) A)
    (k k' : A -> M B) st :
  (forall a st', m st = (st', Ok a) -> k a st' = k' a st') ->
  bind m k st = bind m k' st.
Proof. intros H. unfold bind. destruct (m st) as [st' [a| |]]; auto. Qed.

Lemma bind_fuel {FunSymT TermT A B} (m : M (FunSymT:=FunSymT) (TermT:=TermT) A)
    (k : A -> M B) st :
  (m st).2 <> OutOfFuel ->
  (forall a st', m st = (st', Ok a) -> (k a st').2 <> OutOfFuel) ->
  (bind m k st).2 <> OutOfFuel.
Proof. intros Hm H. unfold bind. destruct (m st) as [st' [a| |]]; auto. Qed.

(** With a bound above the depth of every term of the state, a turn does
    not depend on the bound. *)
Lemma unify_turn_depth (d d' : nat) (st : Locals GTerm) :
  state_depth st < d -> state_depth st < d' ->
  unify_turn d st = unify_turn d' st.
Proof.
  intros Hd Hd'. unfold state_depth in *. unfold unify_turn.
  apply bind_ext. intros eqs0 st0 [= <- <-].
  destruct (pop (equations st)) as [[eqs [l r]]|] eqn:Hpop; [|done].
  apply pop_Some in Hpop.
  assert (Heqs : forall e, e ∈ eqs ++ [(l, r)] ->
    gdepth e.1 < d /\ gdepth e.2 < d /\ gdepth e.1 < d' /\ gdepth e.2 < d').
  { intros e He. rewrite <- Hpop in He. apply eqs_depth_elem in He. lia. }
  destruct (Heqs (l, r)) as (? & ? & ? & ?);
    [apply elem_of_app; right; left|]. cbn [fst snd] in *.
  apply bind_ext. intros [] st1 [= <-].
  case_bool_decide; [done|]. destruct (is_var l); [|done].
  rewrite (occurs_in_goccurs d), (occurs_in_goccurs d') by done.
  apply bind_ext. intros occurs st2 [= <- <-].
  destruct (goccurs l r); [done|].
  apply bind_ext. intros ns st2 [= <- _].
  apply bind_ext. intros eqs1 st2 [= <- <-]. cbn [equations].
  unfold bind at 1 6.
  rewrite (subst_equations_depth d d');
    [|intros e He; apply Heqs, elem_of_app; by left].
  pose proof (subst_equations_bindings d' ns 0 eqs
    (mkLocals eqs (bindings st))) as Hb.
  destruct (subst_equations d' ns 0 eqs (mkLocals eqs (bindings st)))
    as [st2 [[]| |]]; [|done..]. cbn in Hb.
  apply bind_ext. intros s st3 [= <- <-]. unfold bind at 1 4.
  rewrite (subst_bindings_depth d d'); [done|].
  intros e He. rewrite Hb in He. apply values_depth_elem in He. lia.
Qed.

(** With such a bound, a turn answers or raises: the bound is not what
    stops it. *)
Lemma unify_turn_fuel (d : nat) (st : Locals GTerm) :
  state_depth st < d -> (unify_turn d st).2 <> OutOfFuel.
Proof.
  intros Hd. unfold state_depth in *. unfold unify_turn.
  apply bind_fuel; [done|]. intros eqs0 st0 [= <- <-].
  destruct (pop (equations st)) as [[eqs [l r]]|] eqn:Hpop; [|done].
  apply pop_Some in Hpop.
  assert (Heqs : forall e, e ∈ eqs ++ [(l, r)] ->
    gdepth e.1 < d /\ gdepth e.2 < d).
  { intros e He. rewrite <- Hpop in He. apply eqs_depth_elem in He. lia. }
  destruct (Heqs (l, r)) as (? & ?);
    [apply elem_of_app; right; left|]. cbn [fst snd] in *.
  apply bind_fuel; [done|]. intros [] st1 [= <-].
  case_bool_decide; [done|]. destruct (is_var l) eqn:Hl.
  - rewrite (occurs_in_goccurs d) by done.
    apply bind_fuel; [done|]. intros occurs st2 [= <- <-].
    destruct (goccurs l r); [done|].
    apply bind_fuel; [done|]. intros ns st2 [= <- _].
    apply bind_fuel; [done|]. intros eqs1 st2 [= <- <-]. cbn [equations].
    apply bind_fuel.
    { apply subst_equations_fuel. intros e He. apply Heqs, elem_of_app.
      by left. }
    intros [] st2 Hse.
    pose proof (subst_equations_bindings d ns 0 eqs
      (mkLocals eqs (bindings st))) as Hb. rewrite Hse in Hb. cbn in Hb.
    apply bind_fuel; [done|]. intros s st3 [= <- <-].
    apply bind_fuel; [|done].
    apply subst_bindings_fuel. intros e He. rewrite Hb in He.
    apply values_depth_elem in He. lia.
  - destruct (is_var r); [done|].
    apply bind_fuel; [by destruct l as [[|]|[|]]|]. intros f st2 _.
    apply bind_fuel; [by destruct r as [[|]|[|]]|]. intros g st3 _.
    case_bool_decide; [done|].
    apply bind_fuel; [by destruct l as [[|]|[|]]|]. intros la st4 _.
    apply bind_fuel; [by destruct r as [[|]|[|]]|]. done.
Qed.

(** **** What decreases *)

Lemma count_if_le {A} (p q : A -> bool) (l : list A) :
  (forall x, p x = true -> q x = true) -> count_if p l <= count_if q l.
Proof.
  intros Hpq. induction l as [|x l IH]; cbn [count_if]; [lia|].
  pose proof (Hpq x) as Hx.
  destruct (p x), (q x); first [lia | by specialize (Hx eq_refl)].
Qed.

Lemma count_if_lt {A} (p q : A -> bool) (l : list A) (x : A) :
  (forall y, p y = true -> q y = true) ->
  x ∈ l -> p x = false -> q x = true -> count_if p l < count_if q l.
Proof.
  intros Hpq Hx Hp Hq. induction l as [|y l IH]; [by apply elem_of_nil in Hx|].
  cbn [count_if]. apply elem_of_cons in Hx as [<-|Hx].
  - rewrite Hp, Hq. pose proof (count_if_le p q l Hpq). lia.
  - specialize (IH Hx). pose proof (Hpq y) as Hy.
    destruct (p y), (q y); first [lia | by specialize (Hy eq_refl)].
Qed.

Lemma count_if_app {A} (p : A -> bool) (l k : list A) :
  count_if p (l ++ k) = count_if p l + count_if p k.
Proof. induction l as [|x l IH]; cbn [count_if app]; [done|]. rewrite IH. lia. Qed.

Lemma eqs_size_app (l k : list (GTerm * GTerm)) :
  eqs_size (l ++ k) = eqs_size l + eqs_size k.
Proof.
  unfold eqs_size. induction l as [|x l IH]; cbn [foldr app]; [done|].
  rewrite IH. lia.
Qed.

Lemma eqs_size_zip (la ra : list GTerm) :
  eqs_size (zip la ra) <=
    foldr (fun x n => gsize x + n) 0 la + foldr (fun x n => gsize x + n) 0 ra.
Proof.
  unfold eqs_size. revert ra.
  induction la as [|a la IH]; intros [|b ra]; cbn [zip zip_with foldr fst snd];
    try lia.
  specialize (IH ra). cbn [zip] in IH. lia.
Qed.

Lemma gsize_pos (t : GTerm) : 0 < gsize t.
Proof. destruct t; cbn [gsize]; lia. Qed.

Lemma occurs_in_eqs_app (v : GTerm) (l k : list (GTerm * GTerm)) :
  occurs_in_eqs v (l ++ k) = occurs_in_eqs v l || occurs_in_eqs v k.
Proof. apply existsb_app. Qed.

Lemma occurs_in_eqs_elem (v : GTerm) (eqs : list (GTerm * GTerm)) :
  occurs_in_eqs v eqs = true <->
  exists e, e ∈ eqs /\ (goccurs v e.1 = true \/ goccurs v e.2 = true).
Proof.
  unfold occurs_in_eqs. rewrite existsb_exists. split.
  - intros (e & He%list_elem_of_In & Hocc%orb_true_iff). by exists e.
  - intros (e & He%list_elem_of_In & Hocc%orb_true_iff). by exists e.
Qed.

Lemma occurs_in_eqs_zip (v : GTerm) (la ra : list GTerm) :
  occurs_in_eqs v (zip la ra) = true ->
  existsb (goccurs v) la = true \/ existsb (goccurs v) ra = true.
Proof.
  revert ra. induction la as [|a la IH]; intros [|b ra]; try done.
  cbn [zip zip_with occurs_in_eqs existsb fst snd].
  intros [[Ha|Hb]%orb_true_iff|Hrest]%orb_true_iff.
  - left. by rewrite Ha.
  - right. by rewrite Hb.
  - destruct (IH ra Hrest) as [Hl|Hr]; [left|right];
      apply orb_true_iff; by right.
Qed.

(** A variable of the image of [u] under [{x: t}], where [x] does not
    occur in [t], is not [x], and is a variable of [u] or of [t]. *)
Lemma goccurs_gsubst_bind (v x t u : GTerm) :
  goccurs x t = false -> goccurs v (gsubst [(x, t)] u) = true ->
  v <> x /\ (goccurs v u = true \/ goccurs v t = true).
Proof.
  intros Hxt. induction u as [a|items IH] using GTerm_ind.
  - cbn [gsubst dict_get]. destruct (decide (x = Atom a)) as [->|Hne].
    + intros Hv. split; [|by right]. intros ->. congruence.
    + cbn [goccurs]. intros ->%bool_decide_eq_true. split; [done|].
      left. by apply bool_decide_eq_true.
  - destruct items as [|f items]; [done|]. cbn [gsubst goccurs].
    intros (b & (a & <- & Ha)%in_map_iff & Hocc)%existsb_exists.
    apply Forall_cons in IH as [_ IH]. rewrite Forall_forall in IH.
    destruct (IH a (proj2 (list_elem_of_In _ _) Ha) Hocc) as [Hne [Hu|Ht]].
    + split; [done|]. left. apply existsb_exists. by exists a.
    + split; [done|]. by right.
Qed.

(** Each turn that goes on keeps the variables of the equations among
    those there were, and removes one of them, or makes the equations
    smaller, or, at the same size, leaves fewer of them to be swapped. *)
Lemma unify_turn_decreases (d : nat) (st st' : Locals GTerm) :
  unify_turn d st = (st', Ok true) ->
  (forall v, occurs_in_eqs v (equations st') = true ->
             occurs_in_eqs v (equations st) = true) /\
  ((exists x, occurs_in_eqs x (equations st) = true /\
              occurs_in_eqs x (equations st') = false) \/
   eqs_size (equations st') < eqs_size (equations st) \/
   (eqs_size (equations st') = eqs_size (equations st) /\
    eqs_to_swap (equations st') < eqs_to_swap (equations st))).
Proof.
  intros Hturn. apply unify_turn_spec in Hturn.
  inversion Hturn as
    [ |eqs t Heq|eqs v t Heq|eqs var term eqs' s' Heq Hne Hv Hocc _ Heqs' Hs'
     |eqs l r Heq Hne Hl Hr|eqs l r f g Heq
     |eqs l r f la ra Heq Hne Hl Hr Hf Hg Hla Hra|? ? Hfail];
    subst; cbn [equations bindings]; try failed_turn; rewrite Heq.
  - split.
    + intros v Hv'. rewrite occurs_in_eqs_app, Hv'. done.
    + right. left. rewrite eqs_size_app. unfold eqs_size at 3.
      cbn [foldr fst snd]. pose proof (gsize_pos t). lia.
  - apply occurs_in_Ok_goccurs in Hocc. symmetry in Hocc.
    assert (Himg : forall v, occurs_in_eqs v eqs' = true ->
      v <> var /\ (occurs_in_eqs v eqs = true \/ goccurs v term = true)).
    { intros v (e' & He' & Hocc')%occurs_in_eqs_elem.
      destruct (Forall2_elem_of_r _ _ _ _ Heqs' He') as (e & He & Hl & Hr).
      apply subst_Ok_gsubst in Hl, Hr. rewrite Hl, Hr in Hocc'.
      destruct Hocc' as [Ho|Ho];
        apply (goccurs_gsubst_bind _ _ _ _ Hocc) in Ho as [Hn [Ho|Ho]];
        (split; [done|]); try (by right);
        left; apply occurs_in_eqs_elem; exists e; (split; [done|]); auto. }
    split.
    + intros v [_ [Hv'|Hv']]%Himg; rewrite occurs_in_eqs_app.
      * by rewrite Hv'.
      * apply orb_true_iff. right. cbn [occurs_in_eqs existsb fst snd].
        rewrite Hv'. by rewrite orb_true_r.
    + left. exists var. split.
      * rewrite occurs_in_eqs_app. apply orb_true_iff. right.
        destruct var; [|done]. cbn [occurs_in_eqs existsb fst snd goccurs].
        by rewrite bool_decide_true.
      * destruct (occurs_in_eqs var eqs') eqn:Hvar; [|done].
        by apply Himg in Hvar as [? _].
  - split.
    + intros v. rewrite !occurs_in_eqs_app.
      cbn [occurs_in_eqs existsb fst snd].
      by rewrite (orb_comm (goccurs v r)).
    + right. right. rewrite !eqs_size_app. unfold eqs_size at 2 4.
      cbn [foldr fst snd]. split; [lia|]. unfold eqs_to_swap.
      rewrite !count_if_app. cbn [count_if fst snd]. rewrite Hl, Hr. cbn. lia.
  - destruct l as [|[|f0 la0]]; [done..|]. destruct r as [|[|g0 ra0]]; [done..|].
    cbn in Hla, Hra. injection Hla as <-. injection Hra as <-. split.
    + intros v. rewrite !occurs_in_eqs_app.
      intros [Hv|Hv%occurs_in_eqs_zip]%orb_true_iff; [by rewrite Hv|].
      apply orb_true_iff. right. cbn [occurs_in_eqs existsb fst snd goccurs].
      rewrite orb_false_r. by apply orb_true_iff.
    + right. left. rewrite !eqs_size_app. unfold eqs_size at 4.
      cbn [foldr fst snd gsize]. pose proof (eqs_size_zip la0 ra0). lia.
Qed.

Lemma goccurs_gvars (v t : GTerm) : goccurs v t = true -> v ∈ gvars t.
Proof.
  induction t as [a|items IH] using GTerm_ind.
  - cbn [goccurs gvars]. intros ->%bool_decide_eq_true. left.
  - destruct items as [|f items]; [done|]. cbn [goccurs gvars].
    intros (a & Ha & Hocc)%existsb_exists.
    apply Forall_cons in IH as [_ IH]. rewrite Forall_forall in IH.
    apply list_elem_of_In, in_flat_map. exists a. split; [done|].
    apply list_elem_of_In, IH; [by apply list_elem_of_In|done].
Qed.

(** **** The loop *)

Lemma unify_loop_terminates (universe : list GTerm) (a b c : nat) :
  forall st : Locals GTerm,
    (forall v, occurs_in_eqs v (equations st) = true -> v ∈ universe) ->
    eqs_vars universe (equations st) <= a ->
    eqs_size (equations st) <= b ->
    eqs_to_swap (equations st) <= c ->
    exists N, forall fuel depth, N <= fuel -> N <= depth ->
      (unify_loop fuel depth st).2 <> OutOfFuel.
Proof.
  revert b c. induction a as [a IHa] using lt_wf_ind.
  intros b. induction b as [b IHb] using lt_wf_ind.
  intros c. induction c as [c IHc] using lt_wf_ind.
  intros st HU Ha Hb Hc.
  set (d0 := S (state_depth st)).
  destruct (unify_turn d0 st) as [st1 r1] eqn:Hturn.
  assert (Hstep : forall depth, d0 <= depth -> unify_turn depth st = (st1, r1)).
  { intros depth Hd. rewrite <- Hturn. apply unify_turn_depth; unfold d0; lia. }
  pose proof (unify_turn_fuel d0 st ltac:(unfold d0; lia)) as Hf.
  rewrite Hturn in Hf. cbn [snd] in Hf.
  destruct r1 as [[]|e|]; [| | |done].
  - destruct (unify_turn_decreases _ _ _ Hturn) as [Hsub Hdec].
    assert (HU1 : forall v, occurs_in_eqs v (equations st1) = true ->
                            v ∈ universe).
    { intros v Hv. by apply HU, Hsub. }
    assert (Hle : eqs_vars universe (equations st1) <=
                  eqs_vars universe (equations st)).
    { by apply count_if_le. }
    assert (exists N1, forall fuel depth, N1 <= fuel -> N1 <= depth ->
      (unify_loop fuel depth st1).2 <> OutOfFuel) as [N1 HN1].
    { destruct Hdec as [(x & Hx & Hx')|[Hlt|[Heq Hlt]]].
      - apply (IHa (eqs_vars universe (equations st1)))
          with (b := eqs_size (equations st1))
               (c := eqs_to_swap (equations st1)); [|done|lia..].
        enough (eqs_vars universe (equations st1) <
                eqs_vars universe (equations st)) by lia.
        apply (count_if_lt _ _ _ x); [done|by apply HU|done..].
      - apply (IHb (eqs_size (equations st1)))
          with (c := eqs_to_swap (equations st1)); [lia|done|lia..].
      - apply (IHc (eqs_to_swap (equations st1))); [lia|done|lia..]. }
    exists (Nat.max (S N1) d0). intros fuel depth Hfuel Hdepth.
    destruct fuel as [|fuel]; [lia|]. rewrite unify_loop_S, Hstep by lia.
    apply HN1; lia.
  - exists (Nat.max 1 d0). intros fuel depth Hfuel Hdepth.
    destruct fuel as [|fuel]; [lia|]. by rewrite unify_loop_S, Hstep by lia.
  - exists (Nat.max 1 d0). intros fuel depth Hfuel Hdepth.
    destruct fuel as [|fuel]; [lia|]. by rewrite unify_loop_S, Hstep by lia.
Qed.

(** X23: [unify] terminates on the tuple algebra.  For every list of
    equations and every dictionary to start from there is a number such
    that, with at least as many turns of the loop and as much depth of
    recursion allowed, [unify] returns the reference of the dictionary
    or raises an exception: the bounds are not what stops it. *)
Theorem unify_terminates (eqs : list (GTerm * GTerm)) (s : dict GTerm) :
  exists N, forall (fuel depth er : nat) (sro : option nat) (h : heap GTerm),
    N <= fuel -> N <= depth ->
    h !! er = Some (PyList eqs) -> subst_arg h sro s ->
    exists h', unify er sro fuel depth h = (h', Ok (subst_loc h sro)) \/
               exists e, unify er sro fuel depth h = (h', Raise e).
Proof.
  set (universe := flat_map (fun e => gvars e.1 ++ gvars e.2) eqs).
  assert (HU : forall v, occurs_in_eqs v eqs = true -> v ∈ universe).
  { intros v (e & He & Hocc)%occurs_in_eqs_elem.
    apply list_elem_of_In, in_flat_map. exists e.
    split; [by apply list_elem_of_In|]. apply in_or_app.
    destruct Hocc as [Hv|Hv]; [left|right];
      by apply list_elem_of_In, goccurs_gvars. }
  destruct (unify_loop_terminates universe
    (eqs_vars universe eqs) (eqs_size eqs) (eqs_to_swap eqs)
    (mkLocals eqs s) HU (le_n _) (le_n _) (le_n _)) as [N HN].
  exists N. intros fuel depth er sro h Hfuel Hdepth Her Hs.
  destruct (unify_spec er sro fuel depth h eqs s Her Hs) as (h' & -> & _).
  specialize (HN fuel depth Hfuel Hdepth). exists h'.
  destruct (unify_loop fuel depth (mkLocals eqs s)) as [st [[]|e|]];
    cbn [snd mbind res_bind] in *; [by left|right; by exists e|done].
Qed.

Lemma unify_terminates_witness :
  exists fuel depth h', 
    unify 0 None fuel depth [PyList [(f_ [x_; y_], f_ [y_; g_ [x_]])]] = (h', Ok 1) \/
    exists e, unify 0 None fuel depth [PyList [(f_ [x_; y_], f_ [y_; g_ [x_]])]] = (h', Raise e).
Proof.
  destruct (unify_terminates [(f_ [x_; y_], f_ [y_; g_ [x_]])] []) as [N HN].
  exists N, N.
  apply (HN N N 0 None [PyList [(f_ [x_; y_], f_ [y_; g_ [x_]])]]);
    [lia|lia|reflexivity|reflexivity].
Defined.

End Termination.

(** * The dictionary of the caller, updated in place *)

Section Replacement.
Import Unify.
Context {FunSymT TermT : Type} `{Unifier FunSymT TermT} `{Hash TermT}.

Ltac failed_turn :=
  match goal with Hf : alg_failure _ |- _ => by destruct Hf end.

(** **** Dictionaries *)

Lemma dict_get_set_ne (s : dict TermT) (x v k d : TermT) :
  k <> x -> dict_get (dict_set s x v) k d = dict_get s k d.
Proof.
  intros Hne. induction s as [|[k' v'] s IH]; cbn [dict_set dict_get].
  - by rewrite decide_False by congruence.
  - destruct (decide (k' = x)) as [->|Hx]; cbn [dict_get].
    + by rewrite !decide_False by congruence.
    + destruct (decide (k' = k)); [done|apply IH].
Qed.

Lemma dict_set_keys_elem (s : dict TermT) (x v k : TermT) :
  k ∈ dict_keys (dict_set s x v) <-> k = x \/ k ∈ dict_keys s.
Proof.
  destruct (decide (x ∈ dict_keys s)) as [Hin|Hnin].
  - rewrite dict_set_keys_in by done. split; [by right|]. by intros [->|?].
  - rewrite dict_set_notin by done. unfold dict_keys. rewrite fmap_app.
    rewrite elem_of_app. cbn. rewrite list_elem_of_singleton. tauto.
Qed.

Lemma dict_set_NoDup (s : dict TermT) (x v : TermT) :
  NoDup (dict_keys s) -> NoDup (dict_keys (dict_set s x v)).
Proof.
  intros Hnd. destruct (decide (x ∈ dict_keys s)) as [Hin|Hnin].
  - by rewrite dict_set_keys_in.
  - rewrite dict_set_notin by done. unfold dict_keys in *. rewrite fmap_app.
    apply NoDup_app. split; [done|]. split; [|apply NoDup_singleton].
    intros k Hk ->%list_elem_of_singleton. done.
Qed.

Lemma subst_item_get depth x t (s s' : dict TermT) (k d : TermT) :
  Forall2 (subst_item depth x t) s s' -> k ∈ dict_keys s ->
  subst depth [(x, t)] (dict_get s k d) = Ok (dict_get s' k d).
Proof.
  unfold dict_keys.
  induction 1 as [|[k0 v0] [k0' v0'] s s' [Hk Hv] _ IH];
    [by intros ?%elem_of_nil|].
  cbn [fst snd] in Hk, Hv. subst k0'. csimpl. intros Hin. cbn [dict_get].
  destruct (decide (k0 = k)) as [|Hne]; [done|]. apply IH.
  apply elem_of_cons in Hin as [?|?]; [congruence|done].
Qed.

Lemma subst_eq_det depth x t (eqs eqs1 eqs2 : list (TermT * TermT)) :
  Forall2 (subst_eq depth x t) eqs eqs1 ->
  Forall2 (subst_eq depth x t) eqs eqs2 -> eqs1 = eqs2.
Proof.
  intros H1. revert eqs2.
  induction H1 as [|e [l1 r1] eqs eqs1 [Hl1 Hr1] _ IH]; intros eqs2 H2.
  - by inversion H2.
  - inversion H2 as [|? [l2 r2] ? eqs2' [Hl2 Hr2] Hrest]; subst.
    cbn [fst snd] in *. f_equal; [|by apply IH]. f_equal; congruence.
Qed.

(** The dictionary after a turn that binds [x]. *)
Lemma bind_dict depth x t (s s1 : dict TermT) :
  NoDup (dict_keys s) -> Forall2 (subst_item depth x t) s s1 ->
  dict_ior (dict_ior s s1) [(x, t)] = dict_set s1 x t.
Proof.
  intros Hnd Hs1. rewrite (dict_ior_same_keys s s1); [done..|].
  by apply subst_item_keys in Hs1.
Qed.

Lemma same_bindings_bind depth var x t (sa sb sa1 sb1 : dict TermT) :
  NoDup (dict_keys sa) -> NoDup (dict_keys sb) ->
  Forall2 (subst_item depth x t) sa sa1 ->
  Forall2 (subst_item depth x t) sb sb1 ->
  same_bindings var sa sb ->
  same_bindings var (dict_set sa1 x t) (dict_set sb1 x t).
Proof.
  intros Hnda Hndb Ha Hb Hag.
  pose proof (subst_item_keys _ _ _ _ _ Ha) as Hka.
  pose proof (subst_item_keys _ _ _ _ _ Hb) as Hkb.
  intros k Hk. rewrite !dict_set_keys_elem, Hka, Hkb.
  destruct (decide (k = x)) as [->|Hne].
  - split; [split; intros _; by left|]. intros d. by rewrite !dict_get_set.
  - assert (Hk' : k <> var \/ var ∈ dict_keys sb).
    { destruct Hk as [?|Hin]; [by left|].
      apply dict_set_keys_elem in Hin as [->|Hin]; [by left|].
      rewrite Hkb in Hin. by right. }
    destruct (Hag k Hk') as [Hkeys Hget]. split.
    + split; (intros [?|?]; [done|]); right; by apply Hkeys.
    + intros d. rewrite !dict_get_set_ne by done.
      destruct (decide (k ∈ dict_keys sa)) as [Hin|Hnin].
      * pose proof (subst_item_get _ _ _ _ _ k d Ha Hin) as Hga.
        pose proof (subst_item_get _ _ _ _ _ k d Hb (proj1 Hkeys Hin)) as Hgb.
        rewrite Hget in Hga. congruence.
      * rewrite !dict_get_notin; [done|..].
        -- rewrite Hkb. by rewrite <- Hkeys.
        -- by rewrite Hka.
Qed.

(** **** Two runs on the same equations *)

(** The equations do not depend on the dictionary: two turns on the same
    equations that both answer give the same answer and the same
    equations, and keep the dictionaries in agreement. *)
Lemma unify_turn_same depth var (sta stb sta' stb' : Locals TermT) (ca cb : bool) :
  equations sta = equations stb ->
  NoDup (dict_keys (bindings sta)) -> NoDup (dict_keys (bindings stb)) ->
  same_bindings var (bindings sta) (bindings stb) ->
  unify_turn depth sta = (sta', Ok ca) -> unify_turn depth stb = (stb', Ok cb) ->
  ca = cb /\ equations sta' = equations stb' /\
  NoDup (dict_keys (bindings sta')) /\ NoDup (dict_keys (bindings stb')) /\
  same_bindings var (bindings sta') (bindings stb').
Proof.
  intros Heqs Hnda Hndb Hag Ha Hb. apply unify_turn_spec in Ha.
  inversion Ha as
    [Hnil|eqs t Heq|eqs v t Heq|eqs x t eqs' s' Heq Hne Hv Hocc Hh Heqs' Hs'
     |eqs l r Heq Hne Hl Hr|eqs l r f g Heq
     |eqs l r f la ra Heq Hne Hl Hr Hf Hg Hla Hra|? ? Hfail];
    subst; try failed_turn.
  - rewrite unify_turn_empty in Hb by congruence. by injection Hb as <- <-.
  - rewrite (unify_turn_equal _ _ eqs t) in Hb by congruence.
    by injection Hb as <- <-.
  - apply unify_turn_spec in Hb.
    inversion Hb as
      [Heqb|eqsb tb Heqb|eqsb vb tb Heqb
       |eqsb xb tb eqsb' sb' Heqb Hneb Hvb Hoccb Hhb Heqsb' Hsb'
       |eqsb lb rb Heqb Hneb Hlb Hrb|eqsb lb rb fb gb Heqb
       |eqsb lb rb fb lab rab Heqb Hneb Hlb Hrb|? ? Hfail];
      subst; try failed_turn; rewrite Heq, Heqb in Heqs;
      try (by destruct eqs);
      apply app_inj_tail in Heqs as [-> [= -> ->]]; try congruence.
    cbn [equations bindings].
    rewrite (bind_dict _ _ _ _ _ Hnda Hs'), (bind_dict _ _ _ _ _ Hndb Hsb').
    split; [done|]. split; [by eapply subst_eq_det|].
    split; [|split].
    + apply dict_set_NoDup. by rewrite (subst_item_keys _ _ _ _ _ Hs').
    + apply dict_set_NoDup. by rewrite (subst_item_keys _ _ _ _ _ Hsb').
    + exact (same_bindings_bind _ _ _ _ _ _ _ _ Hnda Hndb Hs' Hsb' Hag).
  - rewrite (unify_turn_swap _ _ eqs l r) in Hb by congruence.
    by injection Hb as <- <-.
  - rewrite (unify_turn_decompose _ _ eqs l r f la ra) in Hb by congruence.
    by injection Hb as <- <-.
Qed.

Lemma unify_loop_same fuel depth var :
  forall sta stb sta' stb' : Locals TermT,
    equations sta = equations stb ->
    NoDup (dict_keys (bindings sta)) -> NoDup (dict_keys (bindings stb)) ->
    same_bindings var (bindings sta) (bindings stb) ->
    unify_loop fuel depth sta = (sta', Ok tt) ->
    unify_loop fuel depth stb = (stb', Ok tt) ->
    same_bindings var (bindings sta') (bindings stb').
Proof.
  induction fuel as [|fuel IH]; intros sta stb sta' stb' Heqs Hnda Hndb Hag;
    [done|].
  rewrite !unify_loop_S.
  destruct (unify_turn depth sta) as [sta1 [ca|ea|]] eqn:Ha; [|done..].
  destruct (unify_turn depth stb) as [stb1 [cb|eb|]] eqn:Hb;
    [|by destruct ca..].
  destruct (unify_turn_same _ var _ _ _ _ _ _ Heqs Hnda Hndb Hag Ha Hb)
    as (<- & Heqs1 & Hnda1 & Hndb1 & Hag1).
  destruct ca.
  - by apply IH.
  - by intros [= <-] [= <-].
Qed.

(** The dictionary with an item for [var] put in agrees with the
    dictionary without it. *)
Lemma same_bindings_insert (var v : TermT) (pre post : dict TermT) :
  var ∉ dict_keys (pre ++ post) ->
  same_bindings var (pre ++ (var, v) :: post) (pre ++ post).
Proof.
  intros Hnin k [Hne|Hin]; [|done]. unfold dict_keys. split.
  - rewrite !fmap_app, !elem_of_app. csimpl. rewrite elem_of_cons. tauto.
  - intros d. induction pre as [|[k' v'] pre IH]; cbn [app dict_get].
    + by rewrite decide_False by congruence.
    + destruct (decide (k' = k)); [done|]. apply IH.
      intros Hin. apply Hnin. unfold dict_keys in *. csimpl. by right.
Qed.

(** An initial binding of a variable that the call binds does not show
    in the result. *)
Lemma unify_replaces (era erb : nat) (sroa srob : option nat)
    (fuel depth : nat) (ha hb ha' hb' : heap TermT) (ra rb : nat)
    (eqs : list (TermT * TermT)) (pre post : dict TermT) (var v : TermT) :
  NoDup (dict_keys (pre ++ post)) -> var ∉ dict_keys (pre ++ post) ->
  ha !! era = Some (PyList eqs) ->
  subst_arg ha sroa (pre ++ (var, v) :: post) ->
  hb !! erb = Some (PyList eqs) -> subst_arg hb srob (pre ++ post) ->
  unify era sroa fuel depth ha = (ha', Ok ra) ->
  unify erb srob fuel depth hb = (hb', Ok rb) ->
  exists sa' sb',
    ha' !! ra = Some (PyDict sa') /\ hb' !! rb = Some (PyDict sb') /\
    (var ∈ dict_keys sb' ->
     forall k, (k ∈ dict_keys sa' <-> k ∈ dict_keys sb') /\
               forall d, dict_get sa' k d = dict_get sb' k d).
Proof.
  intros Hnd Hnin Hera Hsa Herb Hsb Hua Hub.
  destruct (unify_spec era sroa fuel depth ha eqs _ Hera Hsa)
    as (ha1 & Hua1 & _ & Hda).
  destruct (unify_spec erb srob fuel depth hb eqs _ Herb Hsb)
    as (hb1 & Hub1 & _ & Hdb).
  rewrite Hua in Hua1. rewrite Hub in Hub1.
  destruct (unify_loop fuel depth (mkLocals eqs (pre ++ (var, v) :: post)))
    as [sta' [[]|e|]] eqn:Hla; cbn [fst snd mbind res_bind] in *; simplify_eq.
  destruct (unify_loop fuel depth (mkLocals eqs (pre ++ post)))
    as [stb' [[]|e|]] eqn:Hlb; cbn [fst snd mbind res_bind] in *; simplify_eq.
  exists (bindings sta'), (bindings stb'). split; [done|]. split; [done|].
  intros Hin k.
  assert (Hnda : NoDup (dict_keys (pre ++ (var, v) :: post))).
  { unfold dict_keys in *. rewrite fmap_app. csimpl.
    rewrite <- Permutation_middle. apply NoDup_cons.
    rewrite <- fmap_app. by split. }
  pose proof (unify_loop_same fuel depth var
    (mkLocals eqs (pre ++ (var, v) :: post)) (mkLocals eqs (pre ++ post))
    sta' stb' eq_refl Hnda Hnd (same_bindings_insert var v pre post Hnin)
    Hla Hlb) as Hsame.
  apply Hsame. by right.
Qed.

(** **** The turn that binds a variable, forwards *)

Lemma subst_equations_run depth var term (todo todo' : list (TermT * TermT)) :
  Forall2 (subst_eq depth var term) todo todo' ->
  forall pre st, equations st = pre ++ todo ->
    subst_equations depth [(var, term)] (length pre) todo st =
      (mkLocals (pre ++ todo') (bindings st), Ok tt).
Proof.
  induction 1 as [|[l r] [l' r'] todo todo' [Hl Hr] _ IH]; intros pre st Heqs.
  - destruct st as [eqs s]. cbn in *. by rewrite Heqs.
  - cbn [fst snd] in Hl, Hr. cbn [subst_equations].
    unfold bind at 1, call at 1. rewrite Hl.
    unfold bind at 1, call at 1. rewrite Hr.
    unfold bind at 1, get_equations. unfold bind at 1, set_equations.
    replace (S (length pre)) with (length (pre ++ [(l', r')]))
      by (rewrite length_app; simpl; lia).
    rewrite IH.
    + cbn [bindings]. by rewrite <- app_assoc.
    + cbn [equations]. rewrite Heqs, <- app_assoc. simpl.
      rewrite insert_app_r_alt by lia. by rewrite Nat.sub_diag.
Qed.

Lemma subst_bindings_run depth var term (todo todo' : list (TermT * TermT)) :
  Forall2 (subst_item depth var term) todo todo' ->
  forall st,
    subst_bindings depth [(var, term)] todo st =
      (mkLocals (equations st) (dict_ior (bindings st) todo'), Ok tt).
Proof.
  induction 1 as [|[k v] [k' v'] todo todo' [Hk Hv] _ IH]; intros st.
  - by destruct st.
  - cbn [fst snd] in Hk, Hv. subst k'. cbn [subst_bindings].
    unfold bind at 1, call at 1. rewrite Hv.
    unfold bind at 1, get_bindings. unfold bind at 1, set_bindings.
    by rewrite IH.
Qed.

Lemma unify_turn_bind depth (st : Locals TermT) eqs var term eqs' s' :
  equations st = eqs ++ [(var, term)] ->
  var <> term -> is_var var = true ->
  occurs_in depth var term = Ok false -> hashable var = true ->
  Forall2 (subst_eq depth var term) eqs eqs' ->
  Forall2 (subst_item depth var term) (bindings st) s' ->
  unify_turn depth st =
    (mkLocals eqs' (dict_ior (dict_ior (bindings st) s') [(var, term)]),
     Ok true).
Proof.
  intros Heqs Hne Hv Hocc Hh Heqs' Hs'. unfold unify_turn.
  unfold bind at 1, get_equations. rewrite Heqs, pop_app.
  unfold bind at 1, set_equations.
  rewrite bool_decide_false, Hv by done.
  unfold bind at 1, call at 1. rewrite Hocc.
  unfold bind at 1, call at 1, dict_display. rewrite Hh.
  unfold bind at 1, get_equations. cbn [equations]. unfold bind at 1.
  pose proof (subst_equations_run depth var term eqs eqs' Heqs' []
    (mkLocals eqs (bindings st)) eq_refl) as Hrun.
  cbn [length app bindings] in Hrun. rewrite Hrun.
  unfold bind at 1, get_bindings. cbn [bindings]. unfold bind at 1.
  rewrite (subst_bindings_run depth var term _ _ Hs').
  by cbn.
Qed.

End Replacement.

(** **** Lists of bindings, on the tuple algebra *)

Section BindingLists.
Import Unify.

Lemma gdepth_gsubst (s : dict GTerm) (u : GTerm) :
  gdepth (gsubst s u) <= gdepth u + values_depth s.
Proof.
  induction u as [a|items IH] using GTerm_ind.
  - cbn [gsubst].
    destruct (dict_get_cases s (Atom a) (Atom a)) as [->|Hin]; [cbn; lia|].
    apply values_depth_elem in Hin. cbn [snd] in Hin. lia.
  - destruct items as [|f items]; [cbn; lia|]. cbn [gsubst gdepth foldr].
    apply Forall_cons in IH as [_ IH].
    assert (foldr (fun x n => gdepth x `max` n) 0 (map (gsubst s) items) <=
            foldr (fun x n => gdepth x `max` n) 0 items + values_depth s).
    { induction IH as [|a l Ha _ IHl]; cbn [map foldr]; lia. }
    lia.
Qed.

Lemma proper_gsubst (s : dict GTerm) (u : GTerm) :
  (forall e, e ∈ s -> proper e.2 = true) ->
  proper u = true -> proper (gsubst s u) = true.
Proof.
  intros Hs. induction u as [a|items IH] using GTerm_ind; intros Hu.
  - cbn [gsubst].
    destruct (dict_get_cases s (Atom a) (Atom a)) as [->|Hin]; [done|].
    by apply Hs in Hin.
  - destruct items as [|f items]; [done|]. cbn [gsubst proper] in *.
    apply Forall_cons in IH as [_ IH]. rewrite Forall_forall in IH.
    apply forallb_forall. intros b (a & <- & Ha)%in_map_iff.
    rewrite forallb_forall in Hu.
    apply IH; [by apply list_elem_of_In|by apply Hu].
Qed.

Lemma values_depth_bound (s : dict GTerm) (D : nat) :
  (forall e, e ∈ s -> gdepth e.2 <= D) -> values_depth s <= D.
Proof.
  unfold values_depth. induction s as [|x s IH]; intros Hs; cbn [foldr]; [lia|].
  pose proof (Hs x ltac:(left)). 
  assert (foldr (fun e n => Nat.max (gdepth e.2) n) 0 s <= D); [|lia].
  apply IH. intros e He. apply Hs. by right.
Qed.

Lemma eqs_depth_bound (eqs : list (GTerm * GTerm)) (D : nat) :
  (forall e, e ∈ eqs -> gdepth e.1 <= D /\ gdepth e.2 <= D) ->
  eqs_depth eqs <= D.
Proof.
  unfold eqs_depth. induction eqs as [|x eqs IH]; intros Hs; cbn [foldr]; [lia|].
  pose proof (Hs x ltac:(left)).
  assert (foldr (fun e n => Nat.max (gdepth e.1) (Nat.max (gdepth e.2) n)) 0 eqs
          <= D); [|lia].
  apply IH. intros e He. apply Hs. by right.
Qed.

Lemma elem_of_dict_set (s : dict GTerm) (x t : GTerm) e :
  e ∈ dict_set s x t -> e ∈ s \/ e = (x, t).
Proof.
  induction s as [|[k v] s IH]; cbn [dict_set].
  - intros ->%list_elem_of_singleton. by right.
  - destruct (decide (k = x)) as [->|Hne].
    + intros [->|Hin]%elem_of_cons; [by right|left; by right].
    + intros [->|Hin]%elem_of_cons; [left; left|].
      destruct (IH Hin) as [?|?]; [left; by right|by right].
Qed.

Lemma map_values_keys (g : GTerm -> GTerm) (s : dict GTerm) :
  dict_keys (map (fun kv => (kv.1, g kv.2)) s) = dict_keys s.
Proof.
  unfold dict_keys. induction s as [|[k v] s IH]; csimpl; [done|].
  by rewrite IH.
Qed.

Lemma map_values_get (g : GTerm -> GTerm) (s : dict GTerm) (k d : GTerm) :
  k ∈ dict_keys s ->
  dict_get (map (fun kv => (kv.1, g kv.2)) s) k d = g (dict_get s k d).
Proof.
  unfold dict_keys. induction s as [|[k' v] s IH]; csimpl;
    [by intros ?%elem_of_nil|].
  intros Hin. cbn [dict_get]. destruct (decide (k' = k)) as [|Hne]; [done|].
  apply IH. apply elem_of_cons in Hin as [?|?]; [congruence|done].
Qed.

(** With each key once, the update is: every term bound rewritten, then
    the item of the variable set. *)
Lemma bind_in_place_set (s : dict GTerm) (x t : GTerm) :
  NoDup (dict_keys s) ->
  bind_in_place s (x, t) =
    dict_set (map (fun kv => (kv.1, gsubst [(x, t)] kv.2)) s) x t.
Proof.
  intros Hnd. unfold bind_in_place.
  rewrite (dict_ior_same_keys s); [done..|]. apply map_values_keys.
Qed.

Lemma bind_in_place_NoDup (s : dict GTerm) (e : GTerm * GTerm) :
  NoDup (dict_keys s) -> NoDup (dict_keys (bind_in_place s e)).
Proof.
  intros Hnd. destruct e as [x t]. rewrite bind_in_place_set by done.
  apply dict_set_NoDup. by rewrite map_values_keys.
Qed.

Lemma bind_in_place_elem (s : dict GTerm) (x t : GTerm) e :
  NoDup (dict_keys s) -> e ∈ bind_in_place s (x, t) ->
  (exists e0, e0 ∈ s /\ e.2 = gsubst [(x, t)] e0.2) \/ e = (x, t).
Proof.
  intros Hnd. rewrite bind_in_place_set by done.
  intros [Hin| ->]%elem_of_dict_set; [|by right]. left.
  apply list_elem_of_In, in_map_iff in Hin as (e0 & <- & He0).
  exists e0. split; [by apply list_elem_of_In|done].
Qed.

Lemma foldr_bind_NoDup (s : dict GTerm) (eqs : list (GTerm * GTerm)) :
  NoDup (dict_keys s) ->
  NoDup (dict_keys (foldr (fun e acc => bind_in_place acc e) s eqs)).
Proof.
  intros Hnd. induction eqs as [|e eqs IH]; cbn [foldr]; [done|].
  by apply bind_in_place_NoDup.
Qed.

Lemma subst_item_map (d : nat) (x t : GTerm) (s : dict GTerm) :
  (forall e, e ∈ s -> proper e.2 = true /\ gdepth e.2 < d) ->
  Forall2 (subst_item d x t) s
    (map (fun kv => (kv.1, gsubst [(x, t)] kv.2)) s).
Proof.
  induction s as [|[k v] s IH]; intros Hs; cbn [map]; constructor.
  - destruct (Hs (k, v)) as [Hp Hd]; [left|]. cbn [fst snd] in *.
    split; [done|]. cbn [fst snd]. rewrite subst_gsubst by done.
    by rewrite Hp.
  - apply IH. intros e He. apply Hs. by right.
Qed.

Lemma subst_eq_same (d : nat) (x t : GTerm) (eqs : list (GTerm * GTerm)) :
  (forall e, e ∈ eqs ->
     proper e.1 = true /\ proper e.2 = true /\
     gdepth e.1 < d /\ gdepth e.2 < d /\
     goccurs x e.1 = false /\ goccurs x e.2 = false) ->
  Forall2 (subst_eq d x t) eqs eqs.
Proof.
  induction eqs as [|[l r] eqs IH]; intros Hs; constructor.
  - destruct (Hs (l, r)) as (Hpl & Hpr & Hdl & Hdr & Hol & Hor); [left|].
    cbn [fst snd] in *. split; cbn [fst snd]; rewrite subst_gsubst by done.
    + rewrite Hpl. f_equal. apply gsubst_id.
      by intros k ->%list_elem_of_singleton.
    + rewrite Hpr. f_equal. apply gsubst_id.
      by intros k ->%list_elem_of_singleton.
  - apply IH. intros e He. apply Hs. by right.
Qed.

(** The run on a list of bindings: one turn for each equation, from the
    last to the first, each updating the dictionary in place. *)
Lemma unify_loop_binding_list (D depth : nat) :
  forall (eqs : list (GTerm * GTerm)) (s : dict GTerm) (fuel : nat),
    NoDup (dict_keys s) ->
    (forall e, e ∈ s -> proper e.2 = true) ->
    (forall e, e ∈ eqs ->
       is_var e.1 = true /\ proper e.2 = true /\ goccurs e.1 e.2 = false /\
       gdepth e.2 <= D) ->
    (forall i j e' e, i < j -> eqs !! i = Some e' -> eqs !! j = Some e ->
       e'.1 <> e.1 /\ goccurs e.1 e'.2 = false) ->
    values_depth s + length eqs * D + D < depth ->
    length eqs < fuel ->
    unify_loop fuel depth (mkLocals eqs s) =
      (mkLocals [] (foldr (fun e acc => bind_in_place acc e) s eqs), Ok tt).
Proof.
  intros eqs. induction eqs as [|[x t] pre IH] using rev_ind;
    intros s fuel Hnd Hs Heqs Hord Hdepth Hfuel;
    (destruct fuel as [|fuel]; [cbn in Hfuel; lia|]); rewrite unify_loop_S.
  - by rewrite unify_turn_empty.
  - rewrite length_app in Hdepth, Hfuel. cbn [length] in Hdepth, Hfuel.
    destruct (Heqs (x, t)) as (Hx & Hpt & Hoc & Hdt);
      [apply elem_of_app; right; left|]. cbn [fst snd] in *.
    assert (Hlast : (pre ++ [(x, t)]) !! length pre = Some (x, t)).
    { by rewrite list_lookup_middle. }
    assert (Hpre : forall e, e ∈ pre ->
      is_var e.1 = true /\ proper e.2 = true /\ gdepth e.2 <= D /\
      e.1 <> x /\ goccurs x e.2 = false).
    { intros e He. destruct (Heqs e) as (? & ? & _ & ?);
        [apply elem_of_app; by left|].
      apply list_elem_of_lookup in He as [i Hi].
      pose proof (lookup_lt_Some _ _ _ Hi) as Hlt.
      destruct (Hord i (length pre) e (x, t) Hlt) as [? ?];
        [by rewrite lookup_app_l|done|]. done. }
    assert (Hvs : forall e, e ∈ s -> gdepth e.2 <= values_depth s).
    { intros e He. by apply values_depth_elem. }
    rewrite (unify_turn_bind depth _ pre x t pre
               (map (fun kv => (kv.1, gsubst [(x, t)] kv.2)) s)); cycle 1.
    + done.
    + intros ->. destruct t as [a|]; [|done]. cbn [goccurs] in Hoc.
      by rewrite bool_decide_true in Hoc.
    + done.
    + rewrite occurs_in_goccurs by lia. by rewrite Hoc.
    + done.
    + apply subst_eq_same. intros e He.
      destruct (Hpre e He) as (Hv & Hp & Hd & Hne & Ho).
      destruct e as [[a|items] r]; [|done]. cbn [fst snd] in *.
      split; [done|]. split; [done|]. split; [cbn; lia|]. split; [lia|].
      split; [|done]. cbn [goccurs]. by rewrite bool_decide_false.
    + cbn [bindings]. apply subst_item_map. intros e He.
      split; [by apply Hs|]. pose proof (Hvs e He). lia.
    + cbn [bindings]. rewrite foldr_app. cbn [foldr].
      change (dict_ior (dict_ior s (map (fun kv => (kv.1, gsubst [(x, t)] kv.2)) s))
                [(x, t)]) with (bind_in_place s (x, t)).
      apply IH.
      * by apply bind_in_place_NoDup.
      * intros e [(e0 & He0 & ->)| ->]%bind_in_place_elem; [|done|done].
        apply proper_gsubst; [|by apply Hs].
        by intros e1 ->%list_elem_of_singleton.
      * intros e He. destruct (Hpre e He) as (? & ? & ? & Hne & ?).
        destruct (Heqs e) as (? & ? & ? & ?); [apply elem_of_app; by left|].
        done.
      * intros i j e' e Hij Hi Hj.
        pose proof (lookup_lt_Some _ _ _ Hj) as Hlt.
        apply (Hord i j); [done|rewrite lookup_app_l; [done|lia]
                          |by rewrite lookup_app_l].
      * assert (values_depth (bind_in_place s (x, t)) <= values_depth s + D);
          [|lia].
        apply values_depth_bound.
        intros e [(e0 & He0 & ->)| ->]%bind_in_place_elem; [|cbn; lia|done].
        pose proof (gdepth_gsubst [(x, t)] e0.2) as Hg.
        pose proof (Hvs e0 He0). unfold values_depth in Hg at 1.
        cbn [foldr snd] in Hg. lia.
      * lia.
Qed.

(** In the dictionary so obtained, the variable of an equation is bound
    to the other side of the equation, when none of the variables bound
    after it occurs there. *)
Lemma foldr_bind_get (pre post : list (GTerm * GTerm)) (x t : GTerm)
    (s : dict GTerm) :
  NoDup (dict_keys s) ->
  (forall e', e' ∈ pre -> e'.1 <> x /\ goccurs e'.1 t = false) ->
  x ∈ dict_keys
        (foldr (fun e acc => bind_in_place acc e) s (pre ++ (x, t) :: post)) /\
  forall d,
    dict_get (foldr (fun e acc => bind_in_place acc e) s (pre ++ (x, t) :: post))
      x d = t.
Proof.
  intros Hnd Hpre. rewrite foldr_app. cbn [foldr].
  set (acc := foldr (fun e acc => bind_in_place acc e) s post).
  assert (Hacc : NoDup (dict_keys acc)) by (by apply foldr_bind_NoDup).
  induction pre as [|[x' t'] pre IH]; cbn [foldr].
  - rewrite bind_in_place_set by done. split.
    + apply dict_set_keys_elem. by left.
    + intros d. apply dict_get_set.
  - destruct IH as [Hin Hget]; [intros e' He'; apply Hpre; by right|].
    destruct (Hpre (x', t')) as [Hne Hoc]; [left|]. cbn [fst snd] in *.
    assert (Hnd' : NoDup (dict_keys
      (foldr (fun e acc => bind_in_place acc e) (bind_in_place acc (x, t)) pre))).
    { by apply foldr_bind_NoDup, bind_in_place_NoDup. }
    rewrite bind_in_place_set by done. split.
    + apply dict_set_keys_elem. right. by rewrite map_values_keys.
    + intros d. rewrite dict_get_set_ne by done.
      rewrite map_values_get by done. rewrite Hget. apply gsubst_id.
      by intros k ->%list_elem_of_singleton.
Qed.

End BindingLists.

(** **** The claim *)

Section UpdatedInPlace.
Import Unify.
Context {FunSymT TermT : Type} `{Unifier FunSymT TermT} `{Hash TermT}.

(** C10: [unify] works on the objects it is given, and what it binds
    replaces what the dictionary bound before.

    - In every term algebra, whenever [unify] returns: the list
      [equations] of the caller is empty, and the dictionary returned is
      the one passed as [subst] (a new one if none was passed), updated
      in place: its keys are those it had, in their order, followed by
      the variables newly bound; and after the run on a single equation
      between a variable and another term, the variable is bound to that
      term, whatever it was bound to before.
    - In every term algebra: an item for [var] in the dictionary passed
      does not show in the result when the call binds [var].  Take two
      calls on the same equations, one from a dictionary and one from
      this dictionary with an item for [var] put in; when both return
      and the first has bound [var], the two results have the same keys
      and bind them to the same terms.
    - On the tuple algebra, for a list of equations [var = term] (each
      variable occurring neither in its term nor in the equations before
      it in the list): [unify] does return, the list is emptied, and the
      dictionary passed holds what the bindings make of it, taken from
      the last equation to the first, each rewriting the terms bound so
      far and then setting its own item.  An equation whose term
      contains none of the variables of the equations before it has its
      variable bound to that term in the result, whatever the dictionary
      bound it to at the start. *)
Theorem unify_updates_in_place :
  (forall (er : nat) (sro : option nat) (fuel depth : nat)
      (h h' : heap TermT) (r : nat)
      (eqs : list (TermT * TermT)) (s : dict TermT),
    h !! er = Some (PyList eqs) -> subst_arg h sro s ->
    unify er sro fuel depth h = (h', Ok r) ->
    h' !! er = Some (PyList []) /\
    r = subst_loc h sro /\
    (forall sr, sro = Some sr -> r = sr) /\
    exists s',
      h' !! r = Some (PyDict s') /\
      (exists news,
         dict_keys s' = dict_keys s ++ news /\
         forall k, k ∈ news -> k ∉ dict_keys s) /\
      (forall var term,
         eqs = [(var, term)] -> is_var var = true -> var <> term ->
         forall d, dict_get s' var d = term)) /\
  (forall (era erb : nat) (sroa srob : option nat) (fuel depth : nat)
      (ha hb ha' hb' : heap TermT) (ra rb : nat)
      (eqs : list (TermT * TermT)) (pre post : dict TermT) (var v : TermT),
    NoDup (dict_keys (pre ++ post)) -> var ∉ dict_keys (pre ++ post) ->
    ha !! era = Some (PyList eqs) ->
    subst_arg ha sroa (pre ++ (var, v) :: post) ->
    hb !! erb = Some (PyList eqs) -> subst_arg hb srob (pre ++ post) ->
    unify era sroa fuel depth ha = (ha', Ok ra) ->
    unify erb srob fuel depth hb = (hb', Ok rb) ->
    exists sa' sb',
      ha' !! ra = Some (PyDict sa') /\ hb' !! rb = Some (PyDict sb') /\
      (var ∈ dict_keys sb' ->
       forall k, (k ∈ dict_keys sa' <-> k ∈ dict_keys sb') /\
                 forall d, dict_get sa' k d = dict_get sb' k d)) /\
  (forall (er : nat) (sro : option nat) (fuel depth : nat) (h : heap GTerm)
      (eqs : list (GTerm * GTerm)) (s : dict GTerm),
    h !! er = Some (PyList eqs) -> subst_arg h sro s ->
    NoDup (dict_keys s) ->
    (forall v, v ∈ dict_values s -> proper v = true) ->
    (forall e, e ∈ eqs ->
       is_var e.1 = true /\ proper e.2 = true /\ goccurs e.1 e.2 = false) ->
    (forall i j e' e, i < j -> eqs !! i = Some e' -> eqs !! j = Some e ->
       e'.1 <> e.1 /\ goccurs e.1 e'.2 = false) ->
    length eqs < fuel ->
    values_depth s + S (length eqs) * eqs_depth eqs < depth ->
    exists h',
      unify er sro fuel depth h = (h', Ok (subst_loc h sro)) /\
      h' !! er = Some (PyList []) /\
      h' !! subst_loc h sro =
        Some (PyDict (foldr (fun e acc => bind_in_place acc e) s eqs)) /\
      forall j e, eqs !! j = Some e ->
        (forall i e', i < j -> eqs !! i = Some e' -> goccurs e'.1 e.2 = false) ->
        forall d,
          dict_get (foldr (fun e acc => bind_in_place acc e) s eqs) e.1 d = e.2).
Proof.
  split; [|split].
  - intros er sro fuel depth h h' r eqs s. apply unify_returns_in_place.
  - intros era erb sroa srob fuel depth ha hb ha' hb' ra rb eqs pre post var v.
    apply unify_replaces.
  - intros er sro fuel depth h eqs s Her Hs Hnd Hvals Heqs Hord Hfuel Hdepth.
    destruct (unify_spec er sro fuel depth h eqs s Her Hs)
      as (h' & Hu & Hl & Hd).
    assert (Hloop : unify_loop fuel depth (mkLocals eqs s) =
      (mkLocals [] (foldr (fun e acc => bind_in_place acc e) s eqs), Ok tt)).
    { apply (unify_loop_binding_list (eqs_depth eqs)); [done| | |done|lia|done].
      - intros e He. apply Hvals. unfold dict_values.
        apply list_elem_of_fmap. by exists e.
      - intros e He. destruct (Heqs e He) as (? & ? & ?).
        split; [done|]. split; [done|]. split; [done|].
        by apply eqs_depth_elem in He as [_ ?]. }
    rewrite Hloop in Hu, Hl, Hd. cbn [fst snd equations bindings] in *.
    exists h'. split; [done|]. split; [done|]. split; [done|].
    intros j [x t] Hj Hbefore d. cbn [fst snd] in *.
    rewrite <- (take_drop_middle eqs j (x, t) Hj).
    apply foldr_bind_get; [done|].
    intros e' (i & Hi & Hlt)%elem_of_take. split.
    + by destruct (Hord i j e' (x, t) Hlt Hi Hj).
    + by apply (Hbefore i).
Qed.

End UpdatedInPlace.

Section UpdatedInPlaceExample.
Import Unify.

Lemma unify_updates_in_place_witness :
  (exists h',
     unify 0 (Some 1) 3 5
       [PyList [(y_, z_); (x_, Tuple [Atom "b"])];
        PyDict [(x_, Tuple [Atom "a"])]] = (h', Ok 1) /\
     h' !! 0 = Some (PyList []) /\
     h' !! 1 = Some (PyDict [(x_, Tuple [Atom "b"]); (y_, z_)]) /\
     forall d, dict_get [(x_, Tuple [Atom "b"]); (y_, z_)] x_ d =
               Tuple [Atom "b"]) /\
  (exists sa' sb',
     [PyList []; PyDict [(x_, Tuple [Atom "b"]); (y_, z_)]] !! 1 =
       Some (PyDict sa') /\
     [PyList []; PyDict [(x_, Tuple [Atom "b"]); (y_, z_)]] !! 1 =
       Some (PyDict (TermT := GTerm) sb') /\
     (x_ ∈ dict_keys sb' ->
      forall k, (k ∈ dict_keys sa' <-> k ∈ dict_keys sb') /\
                forall d, dict_get sa' k d = dict_get sb' k d)) /\
  [PyList []; PyDict [(x_, Tuple [Atom "b"]); (y_, z_)]] !! 0 =
    Some (PyList (TermT := GTerm) []).
Proof.
  destruct (@unify_updates_in_place GTerm GTerm _ _ GeneralUnifier GTerm_hash)
    as (HA & HN & HB).
  split; [|split].
  - opose proof* (HB 0 (Some 1) 3 5
      [PyList [(y_, z_); (x_, Tuple [Atom "b"])];
       PyDict [(x_, Tuple [Atom "a"])]]
      [(y_, z_); (x_, Tuple [Atom "b"])] [(x_, Tuple [Atom "a"])])
      as (h' & Hu & Hl & Hd & Hget).
    + reflexivity.
    + reflexivity.
    + cbn. apply NoDup_singleton.
    + intros v Hv. cbn in Hv. by apply list_elem_of_singleton in Hv as ->.
    + intros e He. repeat (apply elem_of_cons in He as [->|He]; [done|]).
      by apply elem_of_nil in He.
    + intros [|[|i]] [|[|j]] e' e Hij Hi Hj; try lia; try done;
        cbn in Hi, Hj; by simplify_eq.
    + cbn. lia.
    + cbn. lia.
    + exists h'. split; [exact Hu|]. split; [exact Hl|]. split; [exact Hd|].
      intros d. apply (Hget 1 (x_, Tuple [Atom "b"])); [reflexivity|].
      intros [|[|i]] e' Hi He'; try lia; try done;
        cbn in He'; by simplify_eq.
  - apply (HN 0 0 (Some 1) (Some 1) 3 2
      [PyList [(y_, z_); (x_, Tuple [Atom "b"])];
       PyDict [(x_, Tuple [Atom "a"])]]
      [PyList [(y_, z_); (x_, Tuple [Atom "b"])]; PyDict []]
      _ _ 1 1 [(y_, z_); (x_, Tuple [Atom "b"])] [] [] x_ (Tuple [Atom "a"]));
      try reflexivity.
    + constructor.
    + by intros ?%elem_of_nil.
  - apply (HA 0 (Some 1) 3 2
      [PyList [(y_, z_); (x_, Tuple [Atom "b"])];
       PyDict [(x_, Tuple [Atom "a"])]] _ 1
      [(y_, z_); (x_, Tuple [Atom "b"])] [(x_, Tuple [Atom "a"])]);
      reflexivity.
Defined.

End UpdatedInPlaceExample.
